(** * The skip list of package [skip]: model and verification

    The list keeps its nodes in an arena (a slice) and links them by their
    indices.  The model follows the Go source function by function: the
    receiver [*List] is the state of a small state-and-panic monad, loops
    are recursive functions, and a loop that the source runs without a
    bound carries fuel, with running out of it reported as [Diverge]. *)

From Stdlib Require Import ZArith Lia.
From Stdlib.Strings Require Import Byte.
From stdpp Require Import base list strings sorting.

Local Open Scope Z_scope.
Local Open Scope nat_scope.

(** ** Go values *)

(** A [[]byte] is nil or holds a sequence of bytes; the empty slice
    [[]byte{}] is not nil. *)
Definition bytes : Type := option (list byte).

(** [uint64(x)], [uint32(x)] and [uint8(x)] of an integer. *)
Definition uint64 (x : Z) : Z := (x mod 2 ^ 64)%Z.
Definition uint32 (x : Z) : Z := (x mod 2 ^ 32)%Z.
Definition uint8 (x : nat) : nat := x mod 256.

(** The interface of [math/rand] the list uses: [rand.NewSource(seed)] and
    the method [Int63] of the source, which returns the draw and moves the
    source on. *)
Class Rand (Source : Type) : Type := {
  NewSource : Z -> Source;
  Int63 : Source -> Z * Source
}.

Module skip.

Definition maxCount : Z := 4294967295 - 1.
Definition maxHeight : nat := 5.
Definition highest : nat := maxHeight - 1.

(** [type nodeId uint32]: an index into the arena.  The only arithmetic
    on identifiers is the conversion [toNodeId], which wraps. *)
Abbreviation nodeId := nat (only parsing).
Definition nullID : nodeId := 0.

(** [nodeId(n)] of an [int]: a conversion to [uint32]. *)
Definition toNodeId (n : Z) : nodeId := Z.to_nat (uint32 n).

(** [skipPointer] is the array [[maxHeight]nodeId]. *)
Record skipPointer : Type := mkPointer {
  p0 : nodeId; p1 : nodeId; p2 : nodeId; p3 : nodeId; p4 : nodeId
}.

Definition zeroPointer : skipPointer := mkPointer 0 0 0 0 0.

(** [p[h]] for [h < maxHeight]. *)
Definition pget (h : nat) (p : skipPointer) : nodeId :=
  match h with
  | 0 => p0 p | 1 => p1 p | 2 => p2 p | 3 => p3 p | 4 => p4 p
  | _ => nullID
  end.

(** [p[h] = x] for [h < maxHeight]. *)
Definition pset (h : nat) (x : nodeId) (p : skipPointer) : skipPointer :=
  match h with
  | 0 => mkPointer x (p1 p) (p2 p) (p3 p) (p4 p)
  | 1 => mkPointer (p0 p) x (p2 p) (p3 p) (p4 p)
  | 2 => mkPointer (p0 p) (p1 p) x (p3 p) (p4 p)
  | 3 => mkPointer (p0 p) (p1 p) (p2 p) x (p4 p)
  | 4 => mkPointer (p0 p) (p1 p) (p2 p) (p3 p) x
  | _ => p
  end.

Record skipNode : Type := mkNode {
  id : nodeId;
  key : bytes;
  val : bytes;
  height : nat;
  next : skipPointer
}.

(** The zero value of [skipNode], as [var prevNd skipNode] gives it. *)
Definition zeroNode : skipNode := mkNode 0 None None 0 zeroPointer.

Definition ValueCmp : Type := bytes -> bytes -> Z.

Section WithSource.

Context {Source : Type} `{Rand Source}.

Record List : Type := mkList {
  head : skipPointer;
  nodes : list skipNode;
  cmp : ValueCmp;
  src : Source
}.

(** ** The monad of the methods of [*List] *)

Inductive result (A : Type) : Type :=
| Ok (a : A) (l : List)
| Panic (msg : string) (l : List)
| Diverge.

Arguments Ok {A} a l.
Arguments Panic {A} msg l.
Arguments Diverge {A}.

Definition M (A : Type) : Type := List -> result A.

Definition ret {A} (a : A) : M A := fun l => Ok a l.

Definition bind {A B} (m : M A) (f : A -> M B) : M B := fun l =>
  match m l with
  | Ok a l' => f a l'
  | Panic msg l' => Panic msg l'
  | Diverge => Diverge
  end.

Definition panic {A} (msg : string) : M A := fun l => Panic msg l.
Definition diverge {A} : M A := fun _ => Diverge.
Definition gets {A} (f : List -> A) : M A := fun l => Ok (f l) l.
Definition modify (f : List -> List) : M unit := fun l => Ok tt (f l).

Notation "'let*' x := m 'in' k" := (bind m (fun x => k))
  (at level 10, x name, m at level 100, k at level 200).
Notation "'let*' ' pat := m 'in' k" := (bind m (fun x => match x with pat => k end))
  (at level 10, pat pattern, m at level 100, k at level 200).
Notation "m ;;; k" := (bind m (fun _ => k))
  (at level 100, k at level 200, right associativity).

Definition indexOutOfRange : string := "index out of range".

(** ** Construction *)

Definition NewSkipList (c : ValueCmp) : List :=
  {| head := zeroPointer;
     nodes := [ {| id := nullID; key := None; val := None;
                   height := maxHeight; next := zeroPointer |} ];
     cmp := c;
     src := NewSource 0 |}.

(** ** Queries *)

Definition Count : M Z := gets (fun l => (Z.of_nat (length (nodes l)) - 1)%Z).

Definition Full : M bool :=
  let* c := Count in ret (c >=? maxCount)%Z.

Definition getNode (i : nodeId) : M skipNode := fun l =>
  match nodes l !! i with
  | Some n => Ok n l
  | None => Panic indexOutOfRange l
  end.

Definition updateNode (node : skipNode) : M unit := fun l =>
  if decide (id node < length (nodes l))
  then Ok tt {| head := head l; nodes := <[id node := node]> (nodes l);
                cmp := cmp l; src := src l |}
  else Panic indexOutOfRange l.

(** The comparison with the sentinel rule, on a given comparator. *)
Definition cmpKeys (c : ValueCmp) (left right : bytes) : Z :=
  match right with
  | None => (-1)%Z
  | Some _ => c left right
  end.

Definition compareKeys (left right : bytes) : M Z :=
  gets (fun l => cmpKeys (cmp l) left right).

Definition compare (left right : skipNode) : M Z :=
  compareKeys (key left) (key right).

(** The loops of [Get] and [Put] that advance along a level run while the
    key is greater than the current node's.  What they do next depends on
    the current node only, so a walk that advances more often than the
    arena has nodes is on a cycle and never ends: the fuel is the arena's
    length plus one. *)
Definition walkFuel : M nat := gets (fun l => S (length (nodes l))).

Fixpoint getSeek (fuel h : nat) (k : bytes) (ptr : skipPointer) (curr : skipNode)
  : M (skipPointer * skipNode) :=
  match fuel with
  | 0 => diverge
  | S fuel' =>
      let* c := compareKeys k (key curr) in
      if (c >? 0)%Z then
        let ptr := next curr in
        let* curr := getNode (pget h ptr) in
        getSeek fuel' h k ptr curr
      else ret (ptr, curr)
  end.

(** The levels [h = n-1, ..., 0] of the descent of [Get]. *)
Fixpoint getLevels (n : nat) (k : bytes) (ptr : skipPointer) (curr : skipNode)
  : M skipNode :=
  match n with
  | 0 => ret curr
  | S h =>
      let* curr := getNode (pget h ptr) in
      let* fuel := walkFuel in
      let* '(ptr, curr) := getSeek fuel h k ptr curr in
      getLevels h k ptr curr
  end.

Definition Get (k : bytes) : M (bytes * bool) :=
  let* ptr := gets head in
  let* curr := getLevels (S highest) k ptr zeroNode in
  let* c := compareKeys k (key curr) in
  if (c =? 0)%Z then ret (val curr, true) else ret (None, false).

Definition Has (k : bytes) : M bool :=
  let* '(_, ok) := Get k in ret ok.

(** ** The height generator *)

Definition pattern1 : Z := 2 ^ 3 - 1.
Definition pattern2 : Z := 2 ^ 6 - 1.
Definition pattern3 : Z := 2 ^ 9 - 1.
Definition pattern4 : Z := 2 ^ 12 - 1.

Definition patterns : list Z := [pattern1; pattern2; pattern3; pattern4].

(** The [range] loop of [rollHeight] with its [break]. *)
Fixpoint rollPatterns (roll : Z) (pats : list Z) (h : nat) : nat :=
  match pats with
  | [] => h
  | pat :: pats' =>
      if (Z.land (uint64 roll) pat =? pat)%Z
      then rollPatterns roll pats' (uint8 (h + 1))
      else h
  end.

Definition rollHeight (r : Source) : nat * Source :=
  let '(roll, r') := Int63 r in
  (rollPatterns roll patterns 0, r').

Definition makeNode (k v : bytes) : M skipNode := fun l =>
  let '(h, r) := rollHeight (src l) in
  let n := {| id := toNodeId (Z.of_nat (length (nodes l)));
              key := k; val := v; height := h; next := zeroPointer |} in
  Ok n {| head := head l; nodes := nodes l ++ [n]; cmp := cmp l; src := r |}.

(** ** Put *)

Definition setVal (v : bytes) (n : skipNode) : skipNode :=
  {| id := id n; key := key n; val := v; height := height n; next := next n |}.

Definition setNext (h : nat) (x : nodeId) (n : skipNode) : skipNode :=
  {| id := id n; key := key n; val := val n; height := height n;
     next := pset h x (next n) |}.

Definition setHead (h : nat) (x : nodeId) : M unit :=
  modify (fun l => {| head := pset h x (head l); nodes := nodes l;
                      cmp := cmp l; src := src l |}).

Fixpoint putSeek (fuel h : nat) (k : bytes)
    (prevNd : skipNode) (nextp : skipPointer) (currNd : skipNode)
  : M (skipNode * skipPointer * skipNode) :=
  match fuel with
  | 0 => diverge
  | S fuel' =>
      let* c := compareKeys k (key currNd) in
      if (c >? 0)%Z then
        let prevNd := currNd in
        let nextp := next currNd in
        let* currNd := getNode (pget h nextp) in
        putSeek fuel' h k prevNd nextp currNd
      else ret (prevNd, nextp, currNd)
  end.

(** The levels [h = n-1, ..., 0] of the descent of [Put].  [None] is the
    [return] after an update in place, [Some breadcrumbs] the end of the
    loop. *)
Fixpoint putLevels (n : nat) (k v : bytes)
    (prevNd : skipNode) (nextp : skipPointer) (breadcrumbs : skipPointer)
  : M (option skipPointer) :=
  match n with
  | 0 => ret (Some breadcrumbs)
  | S h =>
      let* currNd := getNode (pget h nextp) in
      let* fuel := walkFuel in
      let* '(prevNd, nextp, currNd) := putSeek fuel h k prevNd nextp currNd in
      let* c := compareKeys k (key currNd) in
      if (c =? 0)%Z then
        updateNode (setVal v currNd) ;;;
        ret None
      else
        putLevels h k v prevNd nextp (pset h (id prevNd) breadcrumbs)
  end.

(** The loop [for h := uint8(0); h <= insert.height; h++], with [n] the
    number of levels left.  Indexing an array at [maxHeight] or above
    panics. *)
Fixpoint putSplice (n h : nat) (breadcrumbs : skipPointer) (insert : skipNode)
  : M skipNode :=
  match n with
  | 0 => ret insert
  | S n' =>
      if decide (maxHeight <= h) then panic indexOutOfRange else
      let* hd := gets head in
      let* headNd := getNode (pget h hd) in
      let* c := compare insert headNd in
      if (c <? 0)%Z then
        setHead h (id insert) ;;;
        putSplice n' (S h) breadcrumbs (setNext h (id headNd) insert)
      else
        let* prev := getNode (pget h breadcrumbs) in
        let insert := setNext h (pget h (next prev)) insert in
        let prev := setNext h (id insert) prev in
        updateNode prev ;;;
        putSplice n' (S h) breadcrumbs insert
  end.

Definition Put (k v : bytes) : M unit :=
  match k with
  | None => panic "key must be non-nil"
  | Some _ =>
      let* full := Full in
      if full then panic "list has no capacity" else
      let* nextp := gets head in
      let* r := putLevels (S highest) k v zeroNode nextp zeroPointer in
      match r with
      | None => ret tt
      | Some breadcrumbs =>
          let* insert := makeNode k v in
          let* insert := putSplice (S (height insert)) 0 breadcrumbs insert in
          updateNode insert
      end
  end.

(** ** The iterator *)

(** A [ListIter] holds a copy of its current node and a pointer to the
    list; the list it points to is the state of the monad. *)
Record ListIter : Type := mkIter { curr : skipNode }.

Definition firstNode : M skipNode :=
  let* hd := gets head in getNode (pget 0 hd).

Definition Iter : M ListIter :=
  let* c := firstNode in ret {| curr := c |}.

Definition Next (it : ListIter) : M (bytes * bytes * ListIter) :=
  let k := key (curr it) in
  let v := val (curr it) in
  let* c := getNode (pget 0 (next (curr it))) in
  ret (k, v, {| curr := c |}).

(** The loop [for key != nil] of [IterAll].  The callback works on a state
    of its own, of type [A]. *)
Fixpoint iterLoop {A} (fuel : nat) (cb : bytes -> bytes -> A -> A)
    (k v : bytes) (iter : ListIter) (a : A) : M A :=
  match k with
  | None => ret a
  | Some _ =>
      match fuel with
      | 0 => diverge
      | S fuel' =>
          let a := cb k v a in
          let* '(k, v, iter) := Next iter in
          iterLoop fuel' cb k v iter a
      end
  end.

Definition IterAll {A} (cb : bytes -> bytes -> A -> A) (a : A) : M A :=
  let* iter := Iter in
  let* '(k, v, iter) := Next iter in
  let* fuel := walkFuel in
  iterLoop fuel cb k v iter a.

(** [ListIter.Count]: the count of the list the iterator points to. *)
Definition IterCount (it : ListIter) : M Z := Count.

(** ** Histories and reachable states *)

(** A program that makes the calls [Put(k, v)] of [ops] in order; a panic
    ends it. *)
Fixpoint puts (ops : list (bytes * bytes)) : M unit :=
  match ops with
  | [] => ret tt
  | (k, v) :: ops' => Put k v ;;; puts ops'
  end.

(** The state a call leaves behind, when it returns or panics. *)
Definition stateOf {A} (r : result A) : option List :=
  match r with
  | Ok _ l => Some l
  | Panic _ l => Some l
  | Diverge => None
  end.

(** The states that calls of [Put] and [Get] reach from [NewSkipList c],
    a recovered panic included. *)
Inductive reachable (c : ValueCmp) : List -> Prop :=
| reach_new : reachable c (NewSkipList c)
| reach_put l k v l' :
    reachable c l -> stateOf (Put k v l) = Some l' -> reachable c l'
| reach_get l k l' :
    reachable c l -> stateOf (Get k l) = Some l' -> reachable c l'.

(** The value of the last call among [ops] that put a key equal to [k]. *)
Fixpoint lastPut (c : ValueCmp) (ops : list (bytes * bytes)) (k : bytes) : option bytes :=
  match ops with
  | [] => None
  | (k', v) :: ops' =>
      match lastPut c ops' k with
      | Some v' => Some v'
      | None => if (c k k' =? 0)%Z then Some v else None
      end
  end.

(** The value [Get] finds for a key, if it finds one. *)
Definition getVal (l : List) (k : bytes) : option bytes :=
  match Get k l with
  | Ok (v, true) _ => Some v
  | _ => None
  end.

(** [n] calls of [Next] on an iterator. *)
Fixpoint nexts (n : nat) (it : ListIter) : M (list (bytes * bytes)) :=
  match n with
  | 0 => ret []
  | S n' =>
      let* '(k, v, it) := Next it in
      let* kvs := nexts n' it in
      ret ((k, v) :: kvs)
  end.

(** The iterators of a list: what [Iter] returns, and what [Next] makes
    of them. *)
Inductive iterOf (l : List) : ListIter -> Prop :=
| iter_first it : Iter l = Ok it l -> iterOf l it
| iter_next it k v it' : iterOf l it -> Next it l = Ok (k, v, it') l -> iterOf l it'.

(** The iterator after [Iter] and [n] calls of [Next]. *)
Fixpoint iterAfter (n : nat) : M ListIter :=
  match n with
  | 0 => Iter
  | S n' =>
      let* it := iterAfter n' in
      let* '(_, _, it') := Next it in
      ret it'
  end.

(** The callback that records the pairs it is given. *)
Definition record (k v : bytes) (acc : list (bytes * bytes)) : list (bytes * bytes) :=
  acc ++ [(k, v)].

(** The keys of the stored nodes, in arena order; the sentinel is not one. *)
Definition storedKeys (l : List) : list bytes := key <$> tail (nodes l).

(** The first [n] draws of a source. *)
Fixpoint draws (n : nat) (r : Source) : list Z :=
  match n with
  | 0 => []
  | S n' => let '(d, r') := Int63 r in d :: draws n' r'
  end.

(** A call does not panic, and [P] holds of what it returns and of the
    state it leaves, if it returns. *)
Definition sat {A} (r : result A) (P : A -> List -> Prop) : Prop :=
  match r with
  | Ok a l => P a l
  | Panic _ _ => False
  | Diverge => True
  end.

(** A call returns. *)
Definition returns {A} (r : result A) : Prop :=
  match r with
  | Ok _ _ => True
  | _ => False
  end.

(** The source after [n] draws. *)
Fixpoint advance (n : nat) (r : Source) : Source :=
  match n with
  | 0 => r
  | S n' => advance n' (Int63 r).2
  end.

(** The height [rollHeight] makes of a draw. *)
Definition heightOfRoll (roll : Z) : nat := rollPatterns roll patterns 0.

(** What stays of a node when its value is replaced: the structure. *)
Definition shape (a : skipNode) : nat * bytes * nat * skipPointer :=
  (id a, key a, height a, next a).

(** ** Invariants *)

Definition sentinel : skipNode :=
  {| id := nullID; key := None; val := None; height := maxHeight; next := zeroPointer |}.

(** The arena is well formed: this holds whatever the comparator does. *)
Record wf (l : List) : Prop := {
  wf_sentinel : nodes l !! 0 = Some sentinel;
  wf_id : forall i a, nodes l !! i = Some a -> id a = i;
  wf_key : forall i a, nodes l !! i = Some a -> 0 < i -> key a <> None;
  wf_height : forall i a, nodes l !! i = Some a -> 0 < i -> height a < maxHeight;
  wf_next : forall i a h, nodes l !! i = Some a -> pget h (next a) < length (nodes l);
  wf_head : forall h, pget h (head l) < length (nodes l);
  wf_next_level : forall i a h b, nodes l !! i = Some a -> h < maxHeight ->
      nodes l !! pget h (next a) = Some b -> h <= height b;
  wf_head_level : forall h b, h < maxHeight ->
      nodes l !! pget h (head l) = Some b -> h <= height b;
  wf_count : (Z.of_nat (length (nodes l)) - 1 <= maxCount)%Z
}.

(** A stored node: any node of the arena but the sentinel. *)
Definition realAt (l : List) (i : nodeId) (a : skipNode) : Prop :=
  0 < i /\ nodes l !! i = Some a.

(** Where a descent for [k] stands at level [h]: at the head vector, or
    at the [next] array of a stored node of that level below [k]. *)
Inductive trail (l : List) (k : bytes) (h : nat) : skipNode -> skipPointer -> Prop :=
| trail_head : trail l k h zeroNode (head l)
| trail_node i a :
    realAt l i a -> h <= height a -> (cmp l k (key a) > 0)%Z ->
    trail l k h a (next a).

(** What the descent for [k] leaves in [breadcrumbs[h]]. *)
Inductive crumb (l : List) (k : bytes) (h : nat) (p : nodeId) : Prop :=
| crumb_intro prevNd nextp currNd :
    trail l k h prevNd nextp -> id prevNd = p ->
    nodes l !! pget h nextp = Some currNd ->
    (cmpKeys (cmp l) k (key currNd) < 0)%Z ->
    crumb l k h p.

(** The comparator orders the keys: a total preorder, read off the sign. *)
Record total_order (c : ValueCmp) : Prop := {
  cmp_antisym : forall a b, Z.sgn (c b a) = (- Z.sgn (c a b))%Z;
  cmp_trans : forall a b d, (c a b <= 0)%Z -> (c b d <= 0)%Z -> (c a d <= 0)%Z
}.

(** A key is above a bound; [None] is the bound below every key. *)
Definition above (c : ValueCmp) (lo : option bytes) (x : bytes) : Prop :=
  match lo with
  | None => True
  | Some y => (c y x < 0)%Z
  end.

(** [s] is the first node of level [h] above the bound, or the sentinel
    when no node of the level is above it. *)
Definition follows (c : ValueCmp) (ns : list skipNode) (h : nat)
    (lo : option bytes) (s : nodeId) : Prop :=
  (s <> 0 -> exists sn, ns !! s = Some sn /\ h <= height sn /\ above c lo (key sn)) /\
  (forall j b, 0 < j -> ns !! j = Some b -> h <= height b -> above c lo (key b) ->
     exists sn, s <> 0 /\ ns !! s = Some sn /\ (c (key sn) (key b) <= 0)%Z).

(** Every level is the ascending chain of its nodes, and keys are stored
    once. *)
Record ordered (l : List) : Prop := {
  ord_total : total_order (cmp l);
  ord_distinct : forall i j a b, realAt l i a -> realAt l j b ->
      cmp l (key a) (key b) = 0%Z -> i = j;
  ord_head : forall h, h < maxHeight ->
      follows (cmp l) (nodes l) h None (pget h (head l));
  ord_next : forall h i a, h < maxHeight -> realAt l i a -> h <= height a ->
      follows (cmp l) (nodes l) h (Some (key a)) (pget h (next a))
}.

(** The bound a descent has passed: the key of its previous node, and
    no bound at the head. *)
Definition bound (prevNd : skipNode) : option bytes :=
  match key prevNd with
  | None => None
  | Some _ => Some (key prevNd)
  end.

(** The arena [ns'] is the arena [ns0] with the node [ins] added: the
    keys and heights of the old nodes are kept. *)
Definition grown (ns0 ns' : list skipNode) (ins : skipNode) : Prop :=
  (forall j a, ns0 !! j = Some a ->
     exists a', ns' !! j = Some a' /\ key a' = key a /\ height a' = height a) /\
  (forall j x, ns' !! j = Some x ->
     (j = length ns0 /\ x = ins) \/
     exists a, ns0 !! j = Some a /\ key x = key a /\ height x = height a).

(** The number of nodes above a node: it falls along every chain. *)
Definition rank (l : List) (a : skipNode) : nat :=
  length (filter (fun b => (cmpKeys (cmp l) (key a) (key b) < 0)%Z) (nodes l)).

(** No stored key equals [k]. *)
Definition absent (l : List) (k : bytes) : Prop :=
  forall i a, realAt l i a -> cmp l k (key a) <> 0%Z.

(** What [Put] does to a list when it updates node [i] in place. *)
Definition updated (l : List) (i : nodeId) (a : skipNode) (v : bytes) : List :=
  {| head := head l; nodes := <[i := setVal v a]> (nodes l); cmp := cmp l; src := src l |}.

(** The test of the splice loop at level [h], on the list before the call. *)
Definition headCase (l : List) (k : bytes) (h : nat) : bool :=
  match nodes l !! pget h (head l) with
  | Some hn => (cmpKeys (cmp l) k (key hn) <? 0)%Z
  | None => false
  end.

Definition nextAt (l : List) (h : nat) (i : nodeId) : nodeId :=
  match nodes l !! i with
  | Some a => pget h (next a)
  | None => nullID
  end.

(** The state of the splice loop of [Put k v] on [l0] when the levels
    below [d] are done: [st] is the list and [ins] the local copy of the
    new node. *)
Record spliced (l0 : List) (k v : bytes) (bc : skipPointer) (d : nat)
    (st : List) (ins : skipNode) : Prop := {
  sp_cmp : cmp st = cmp l0;
  sp_src : src st = snd (rollHeight (src l0));
  sp_len : length (nodes st) = S (length (nodes l0));
  sp_head : forall h, h < maxHeight ->
      pget h (head st) =
        if decide (h < d /\ headCase l0 k h = true)
        then length (nodes l0) else pget h (head l0);
  sp_old : forall i a, nodes l0 !! i = Some a ->
      exists a', nodes st !! i = Some a' /\
        id a' = id a /\ key a' = key a /\ val a' = val a /\ height a' = height a /\
        forall h, h < maxHeight ->
          pget h (next a') =
            if decide (h < d /\ headCase l0 k h = false /\ i = pget h bc)
            then length (nodes l0) else pget h (next a);
  sp_new_id : id ins = length (nodes l0);
  sp_new_key : key ins = k;
  sp_new_val : val ins = v;
  sp_new_height : height ins = fst (rollHeight (src l0));
  sp_new_next : forall h, h < maxHeight ->
      pget h (next ins) =
        if decide (h < d)
        then (if headCase l0 k h then pget h (head l0) else nextAt l0 h (pget h bc))
        else 0
}.

(** A link of level [h] of a list: the sentinel, the head of the level or
    the [next] of a node. *)
Definition linkOf (l0 : List) (h e : nat) : Prop :=
  e = 0 \/ e = pget h (head l0) \/ exists i a, nodes l0 !! i = Some a /\ e = pget h (next a).

(** The keys of a sequence of calls in the order they first occur, a key
    equal by the comparator to an earlier one left out. *)
Definition addKey (c : ValueCmp) (ks : list bytes) (k : bytes) : list bytes :=
  if existsb (fun k' => (c k k' =? 0)%Z) ks then ks else ks ++ [k].

Definition firstKeys (c : ValueCmp) (ops : list (bytes * bytes)) : list bytes :=
  fold_left (addKey c) ops.*1 [].

(** The draws [0, ..., n-1]. *)
Definition drawsBelow (n : nat) : list Z := Z.of_nat <$> seq 0 n.

(** ** The height generator, in the words of its description *)

(** The low [n] bits of the draw are all 1s. *)
Definition lowOnes (n : nat) (draw : Z) : bool :=
  forallb (fun i => Z.testbit draw (Z.of_nat i)) (seq 0 n).

(** Runs of 3, 6, 9 and 12 bits in this order: the height is the number of
    runs matched before the first that is not. *)
Definition heightOfDraw (draw : Z) : nat :=
  if negb (lowOnes 3 draw) then 0
  else if negb (lowOnes 6 draw) then 1
  else if negb (lowOnes 9 draw) then 2
  else if negb (lowOnes 12 draw) then 3
  else 4.

End WithSource.

Arguments List Source : clear implicits.
Arguments M Source A : clear implicits.
Arguments result Source A : clear implicits.
Arguments Ok {Source A} a l.
Arguments Panic {Source A} msg l.
Arguments Diverge {Source A}.

End skip.

(** ** A comparator and a source to run the list on *)

(** Bytes in lexicographic order, as [bytes.Compare] has it; a nil slice
    compares as the empty one. *)
Fixpoint lexCompare (a b : list byte) : Z :=
  match a, b with
  | [], [] => 0
  | [], _ :: _ => -1
  | _ :: _, [] => 1
  | x :: a', y :: b' =>
      match (Byte.to_N x ?= Byte.to_N y)%N with
      | Lt => -1
      | Gt => 1
      | Eq => lexCompare a' b'
      end
  end%Z.

Definition bytesCompare : skip.ValueCmp :=
  fun a b => lexCompare (default [] a) (default [] b).

(** A source that replays a fixed script of draws, whatever the seed, and
    draws 0 when the script is over. *)
Definition script : list Z := [0; 7; 63; 0; 4095; 7; 0; 511]%Z.

#[export] Instance scripted : Rand (list Z) := {|
  NewSource := fun _ => script;
  Int63 := fun r => match r with [] => (0%Z, []) | d :: r' => (d, r') end
|}.

Definition str (s : string) : bytes := Some (String.list_byte_of_string s).


(** Lists to run the operations on. *)
Definition fresh : skip.List (list Z) := skip.NewSkipList bytesCompare.

Definition after (ops : list (bytes * bytes)) : skip.List (list Z) :=
  match skip.puts ops fresh with
  | skip.Ok _ l => l
  | _ => fresh
  end.

Definition ops3 : list (bytes * bytes) :=
  [(str "b", str "2"); (str "a", str "1"); (str "c", str "3")].

Definition opsx : list (bytes * bytes) := [(str "x", str "1"); (str "x", str "2")].

(** A list with 2^32 - 2 stored nodes, as many as a list holds. *)
Definition fullList : skip.List (list Z) :=
  {| skip.head := skip.zeroPointer;
     skip.nodes := repeat skip.sentinel (Z.to_nat 4294967295);
     skip.cmp := bytesCompare;
     skip.src := [] |}.

(** A comparator that takes keys of the same length for equal. *)
Definition lengthCompare : skip.ValueCmp :=
  fun a b => (Z.of_nat (length (default [] a)) - Z.of_nat (length (default [] b)))%Z.

Definition afterLength (ops : list (bytes * bytes)) : skip.List (list Z) :=
  match skip.puts ops (skip.NewSkipList lengthCompare) with
  | skip.Ok _ l => l
  | _ => skip.NewSkipList lengthCompare
  end.

(** The calls of [ops3] in the order of their keys. *)
Definition ops3sorted : list (bytes * bytes) :=
  [(str "a", str "1"); (str "b", str "2"); (str "c", str "3")].

(** Calls whose first and last keys have the same length. *)
Definition opsLength : list (bytes * bytes) :=
  [(str "b", str "1"); (str "aa", str "2"); (str "c", str "3")].

(** The calls of [ops3] and an update of ["a"]. *)
Definition ops3a : list (bytes * bytes) := ops3 ++ [(str "a", str "9")].

Import skip.

(** * Verification *)

(** ** Arrays of node identifiers *)

Lemma pget_pset_eq h x p : h < maxHeight -> pget h (pset h x p) = x.
Proof.
  intros Hh. do 5 (destruct h as [|h]; [reflexivity|]).
  unfold maxHeight in Hh. lia.
Qed.

Lemma pget_pset_ne h h' x p : h <> h' -> pget h' (pset h x p) = pget h' p.
Proof.
  intros Hne.
  destruct h as [|[|[|[|[|h]]]]], h' as [|[|[|[|[|h']]]]];
    try reflexivity; congruence.
Qed.

Lemma pget_pset h h' x p :
  h < maxHeight -> pget h' (pset h x p) = if decide (h' = h) then x else pget h' p.
Proof.
  intros Hh. case_decide as E.
  - subst. by apply pget_pset_eq.
  - apply pget_pset_ne. congruence.
Qed.

Lemma pget_zero h : pget h zeroPointer = 0.
Proof. do 5 (destruct h as [|h]; [reflexivity|]). reflexivity. Qed.

Lemma pointer_ext p q : (forall h, h < maxHeight -> pget h p = pget h q) -> p = q.
Proof.
  intros E. destruct p, q.
  pose proof (E 0) as E0. pose proof (E 1) as E1. pose proof (E 2) as E2.
  pose proof (E 3) as E3. pose proof (E 4) as E4.
  unfold maxHeight in *. simpl in *. f_equal; auto with lia.
Qed.

(** ** The order of the keys *)

Section Order.

Context (c : ValueCmp) (Hc : total_order c).

Lemma cmp_refl a : c a a = 0%Z.
Proof. pose proof (cmp_antisym _ Hc a a). lia. Qed.

Lemma cmp_gt_lt a b : (c a b > 0)%Z -> (c b a < 0)%Z.
Proof. pose proof (cmp_antisym _ Hc a b). lia. Qed.

Lemma cmp_lt_gt a b : (c a b < 0)%Z -> (c b a > 0)%Z.
Proof. pose proof (cmp_antisym _ Hc a b). lia. Qed.

Lemma cmp_ge_le a b : (c a b >= 0)%Z -> (c b a <= 0)%Z.
Proof. pose proof (cmp_antisym _ Hc a b). lia. Qed.

Lemma cmp_le_ge a b : (c a b <= 0)%Z -> (c b a >= 0)%Z.
Proof. pose proof (cmp_antisym _ Hc a b). lia. Qed.

Lemma cmp_eq_le a b : c a b = 0%Z -> (c a b <= 0)%Z /\ (c b a <= 0)%Z.
Proof. pose proof (cmp_antisym _ Hc a b). lia. Qed.

Lemma cmp_le_trans a b d : (c a b <= 0)%Z -> (c b d <= 0)%Z -> (c a d <= 0)%Z.
Proof. apply (cmp_trans _ Hc). Qed.

Lemma cmp_le_lt_trans a b d : (c a b <= 0)%Z -> (c b d < 0)%Z -> (c a d < 0)%Z.
Proof.
  intros H1 H2.
  destruct (Z_lt_ge_dec (c a d) 0) as [|H3]; [done|].
  apply cmp_ge_le in H3. pose proof (cmp_trans _ Hc _ _ _ H3 H1) as H4.
  apply cmp_lt_gt in H2. lia.
Qed.

Lemma cmp_lt_le_trans a b d : (c a b < 0)%Z -> (c b d <= 0)%Z -> (c a d < 0)%Z.
Proof.
  intros H1 H2.
  destruct (Z_lt_ge_dec (c a d) 0) as [|H3]; [done|].
  apply cmp_ge_le in H3. pose proof (cmp_trans _ Hc _ _ _ H2 H3) as H4.
  apply cmp_lt_gt in H1. lia.
Qed.

Lemma cmp_lt_trans a b d : (c a b < 0)%Z -> (c b d < 0)%Z -> (c a d < 0)%Z.
Proof. intros H1 H2. apply (cmp_lt_le_trans a b d); [done | lia]. Qed.

Lemma cmp_le_ne_lt a b : (c a b <= 0)%Z -> c a b <> 0%Z -> (c a b < 0)%Z.
Proof. lia. Qed.

Lemma cmp_le_ne_lt' a b : (c a b <= 0)%Z -> c b a <> 0%Z -> (c a b < 0)%Z.
Proof. pose proof (cmp_antisym _ Hc a b). lia. Qed.

End Order.

Ltac add_fact pf :=
  let P := type of pf in
  lazymatch goal with
  | _ : P |- _ => fail
  | _ => pose proof pf
  end.

(** Facts about one comparator: the hypotheses are closed under the laws
    of the order, then arithmetic decides. *)
Ltac order Hc :=
  lazymatch type of Hc with
  | total_order ?c =>
      unfold above in *;
      repeat match goal with
      | H : (c ?x ?y > 0)%Z |- _ => add_fact (cmp_gt_lt c Hc x y H)
      | H : (c ?x ?y >= 0)%Z |- _ => add_fact (cmp_ge_le c Hc x y H)
      | H : (0 < c ?x ?y)%Z |- _ => add_fact (cmp_gt_lt c Hc x y (Z.lt_gt _ _ H))
      | H : (0 <= c ?x ?y)%Z |- _ => add_fact (cmp_ge_le c Hc x y (Z.le_ge _ _ H))
      | H : c ?x ?y = 0%Z |- _ => add_fact (proj1 (cmp_eq_le c Hc x y H))
      | H : c ?x ?y = 0%Z |- _ => add_fact (proj2 (cmp_eq_le c Hc x y H))
      | H : ~ (c ?x ?y < 0)%Z |- _ => add_fact (cmp_ge_le c Hc x y (Z.le_ge _ _ (proj1 (Z.nlt_ge _ _) H)))
      | H : ~ (c ?x ?y <= 0)%Z |- _ => add_fact (cmp_gt_lt c Hc x y (Z.lt_gt _ _ (proj1 (Z.nle_gt _ _) H)))
      end;
      repeat match goal with
      | H1 : (c ?x ?y < 0)%Z, H2 : (c ?y ?z < 0)%Z |- _ =>
          add_fact (cmp_lt_trans c Hc x y z H1 H2)
      | H1 : (c ?x ?y <= 0)%Z, H2 : (c ?y ?z < 0)%Z |- _ =>
          add_fact (cmp_le_lt_trans c Hc x y z H1 H2)
      | H1 : (c ?x ?y < 0)%Z, H2 : (c ?y ?z <= 0)%Z |- _ =>
          add_fact (cmp_lt_le_trans c Hc x y z H1 H2)
      | H1 : (c ?x ?y <= 0)%Z, H2 : (c ?y ?z <= 0)%Z |- _ =>
          add_fact (cmp_le_trans c Hc x y z H1 H2)
      | H1 : (c ?x ?y <= 0)%Z, H2 : c ?x ?y <> 0%Z |- _ =>
          add_fact (cmp_le_ne_lt c x y H1 H2)
      | H1 : (c ?x ?y <= 0)%Z, H2 : c ?y ?x <> 0%Z |- _ =>
          add_fact (cmp_le_ne_lt' c Hc x y H1 H2)
      end;
      repeat match goal with
      | H : (c ?x ?y < 0)%Z |- _ => add_fact (cmp_lt_gt c Hc x y H)
      | H : (c ?x ?y <= 0)%Z |- _ => add_fact (cmp_le_ge c Hc x y H)
      | |- context [c ?x ?x] => add_fact (cmp_refl c Hc x)
      | _ : context [c ?x ?x] |- _ => add_fact (cmp_refl c Hc x)
      end;
      lia
  end.


(** ** The arena stays well formed *)

Section Descent.

Context {Source : Type} `{Rand Source}.
Implicit Types (l : List Source) (k v : bytes) (a b : skipNode).

Lemma cmpKeys_some c k x : x <> None -> cmpKeys c k x = c k x.
Proof. by destruct x. Qed.

Lemma cmpKeys_nonneg c k x : (0 <= cmpKeys c k x)%Z -> x <> None /\ cmpKeys c k x = c k x.
Proof. destruct x; simpl; [done | lia]. Qed.

Lemma wf_new c : wf (NewSkipList c : List Source).
Proof.
  split; unfold NewSkipList; cbn [nodes head].
  - done.
  - intros i a [-> <-]%list_lookup_singleton_Some. done.
  - intros i a [-> <-]%list_lookup_singleton_Some. lia.
  - intros i a [-> <-]%list_lookup_singleton_Some. lia.
  - intros i a h [-> <-]%list_lookup_singleton_Some. simpl. rewrite pget_zero. lia.
  - intros h. rewrite pget_zero. simpl. lia.
  - intros i a h b [-> <-]%list_lookup_singleton_Some Hh. cbn [next].
    rewrite pget_zero. intros [_ <-]%list_lookup_singleton_Some.
    simpl. unfold maxHeight in *. lia.
  - intros h b Hh. rewrite pget_zero. intros [_ <-]%list_lookup_singleton_Some.
    simpl. unfold maxHeight in *. lia.
  - unfold maxCount. simpl. lia.
Qed.

Lemma wf_nonzero l i a : wf l -> nodes l !! i = Some a -> key a <> None -> 0 < i.
Proof.
  intros Hwf E Hk. destruct i; [|lia].
  rewrite (wf_sentinel _ Hwf) in E. inversion E; subst. done.
Qed.

Lemma wf_lookup_next l i a h : wf l -> nodes l !! i = Some a ->
  exists b, nodes l !! pget h (next a) = Some b.
Proof.
  intros Hwf E. apply lookup_lt_is_Some_2. eapply wf_next; eauto.
Qed.

Lemma wf_lookup_head l h : wf l -> exists b, nodes l !! pget h (head l) = Some b.
Proof. intros Hwf. apply lookup_lt_is_Some_2. by apply wf_head. Qed.

Lemma trail_level l k h prevNd nextp b :
  wf l -> h < maxHeight -> trail l k h prevNd nextp ->
  nodes l !! pget h nextp = Some b -> h <= height b.
Proof.
  intros Hwf Hh [|i a [_ E] _ _] Eb.
  - exact (wf_head_level _ Hwf h b Hh Eb).
  - exact (wf_next_level _ Hwf i a h b E Hh Eb).
Qed.

Lemma trail_down l k h h' prevNd nextp :
  h' <= h -> trail l k h prevNd nextp -> trail l k h' prevNd nextp.
Proof.
  intros Hle [|i a ? ? ?]; [constructor | econstructor; eauto; lia].
Qed.

Lemma trail_lookup l k h h' prevNd nextp :
  wf l -> trail l k h prevNd nextp -> exists b, nodes l !! pget h' nextp = Some b.
Proof.
  intros Hwf [|i a [_ E] _ _].
  - by apply wf_lookup_head.
  - eapply wf_lookup_next; eauto.
Qed.

Lemma trail_id l k h prevNd nextp :
  wf l -> trail l k h prevNd nextp -> nodes l !! id prevNd = Some prevNd \/ prevNd = zeroNode.
Proof.
  intros Hwf [|i a [_ E] _ _]; [by right|left].
  by rewrite (wf_id _ Hwf _ _ E).
Qed.

Lemma sat_bind {A B} (m : M Source A) (f : A -> M Source B) l P Q :
  sat (m l) P -> (forall x l', P x l' -> sat (f x l') Q) -> sat (bind m f l) Q.
Proof. unfold bind. destruct (m l); simpl; auto. Qed.

Lemma sat_weaken {A} (r : result Source A) (P Q : A -> List Source -> Prop) :
  sat r P -> (forall x l', P x l' -> Q x l') -> sat r Q.
Proof. destruct r; simpl; auto. Qed.

Lemma sat_getNode l i a :
  nodes l !! i = Some a -> sat (getNode i l) (fun a' l' => a' = a /\ l' = l).
Proof. intros E. unfold getNode. by rewrite E. Qed.

(** The walk along a level of [Put] stops at the first node that is not
    below the key. *)
Lemma putSeek_spec l k h fuel prevNd nextp currNd :
  wf l -> h < maxHeight -> trail l k h prevNd nextp ->
  nodes l !! pget h nextp = Some currNd ->
  sat (putSeek fuel h k prevNd nextp currNd l) (fun '(prevNd', nextp', currNd') l' =>
    l' = l /\ trail l k h prevNd' nextp' /\
    nodes l !! pget h nextp' = Some currNd' /\
    (cmpKeys (cmp l) k (key currNd') <= 0)%Z).
Proof.
  intros Hwf Hh. revert prevNd nextp currNd.
  induction fuel as [|fuel IH]; intros prevNd nextp currNd Ht Ec; [done|].
  cbn [putSeek]. unfold bind at 1, compareKeys, gets.
  destruct (Z.gtb_spec (cmpKeys (cmp l) k (key currNd)) 0) as [Hgt|Hle]; [|done].
  destruct (cmpKeys_nonneg (cmp l) k (key currNd)) as [Hk Ek]; [lia|].
  destruct (wf_lookup_next l _ currNd h Hwf Ec) as [b Eb].
  unfold bind, getNode. rewrite Eb.
  apply IH; [|done].
  econstructor; [split; [|done]|..].
  - eapply wf_nonzero; eauto.
  - eapply trail_level; eauto.
  - lia.
Qed.

(** The walk of [Get] is the walk of [Put] without the previous node. *)
Lemma getSeek_putSeek l k h fuel prevNd nextp currNd :
  getSeek fuel h k nextp currNd l =
  match putSeek fuel h k prevNd nextp currNd l with
  | Ok (_, p, a) l' => Ok (p, a) l'
  | Panic msg l' => Panic msg l'
  | Diverge => Diverge
  end.
Proof.
  revert prevNd nextp currNd.
  induction fuel as [|fuel IH]; intros prevNd nextp currNd; [done|].
  cbn [putSeek getSeek]. unfold bind at 1 3, compareKeys, gets.
  destruct (_ >? _)%Z; [|done].
  unfold bind, getNode. destruct (nodes l !! _); [|done].
  apply IH.
Qed.

(** The descent of [Put] updates a node with the key in place, or leaves
    the breadcrumbs of every level. *)
Lemma putLevels_spec l k v n prevNd nextp bc :
  wf l -> n <= maxHeight -> trail l k (n - 1) prevNd nextp ->
  sat (putLevels n k v prevNd nextp bc l) (fun r l' =>
    match r with
    | None => exists i a, realAt l i a /\ cmp l k (key a) = 0%Z /\ l' = updated l i a v
    | Some bc' => l' = l /\
        (forall h, h < n -> crumb l k h (pget h bc')) /\
        (forall h, n <= h -> pget h bc' = pget h bc)
    end).
Proof.
  intros Hwf. revert prevNd nextp bc.
  induction n as [|h IH]; intros prevNd nextp bc Hn Ht.
  { simpl. split; [done|]. split; [lia|done]. }
  replace (S h - 1) with h in Ht by lia.
  cbn [putLevels].
  destruct (trail_lookup l k h h _ _ Hwf Ht) as [currNd Ec].
  eapply sat_bind; [exact (sat_getNode _ _ _ Ec)|].
  intros ? ? [-> ->]. unfold bind at 1, walkFuel, gets.
  eapply sat_bind; [by apply putSeek_spec|].
  intros [[prevNd' nextp'] currNd'] ? (-> & Ht' & Ec' & Hle).
  unfold bind at 1, compareKeys, gets.
  destruct (Z.eqb_spec (cmpKeys (cmp l) k (key currNd')) 0) as [E0|Hne].
  - destruct (cmpKeys_nonneg (cmp l) k (key currNd')) as [Hk Ek]; [lia|].
    pose proof (wf_id _ Hwf _ _ Ec') as Eid.
    unfold bind, updateNode. simpl. rewrite Eid.
    rewrite decide_True by (eapply lookup_lt_Some; eauto). simpl.
    exists (pget h nextp'), currNd'. split; [split; [|done]|split; [lia|done]].
    eapply wf_nonzero; eauto.
  - eapply sat_weaken; [apply (IH prevNd' nextp' (pset h (id prevNd') bc))|];
      [lia | eapply trail_down; [|exact Ht']; lia |].
    intros [bc'|] l'; [|done]. intros (-> & Hlow & Hhigh).
    split; [done|]. split.
    + intros h' Hh'. destruct (decide (h' = h)) as [->|Hneq]; [|apply Hlow; lia].
      rewrite Hhigh by lia. rewrite pget_pset_eq by lia.
      econstructor; eauto. lia.
    + intros h' Hh'. rewrite Hhigh by lia. apply pget_pset_ne. lia.
Qed.

(** The descent of [Get] ends at level 0 on the first node that is not
    below the key. *)
Lemma getLevels_spec l k n prevNd nextp a0 :
  wf l -> n < maxHeight -> trail l k n prevNd nextp ->
  sat (getLevels (S n) k nextp a0 l) (fun a l' =>
    l' = l /\ exists prevNd' nextp',
      trail l k 0 prevNd' nextp' /\
      nodes l !! pget 0 nextp' = Some a /\
      (cmpKeys (cmp l) k (key a) <= 0)%Z).
Proof.
  intros Hwf. revert prevNd nextp a0.
  induction n as [|h IH]; intros prevNd nextp a0 Hn Ht.
  - cbn [getLevels].
    destruct (trail_lookup l k 0 0 _ _ Hwf Ht) as [a Ea].
    eapply sat_bind; [exact (sat_getNode _ _ _ Ea)|].
    intros ? ? [-> ->]. unfold bind at 1, walkFuel, gets. unfold bind at 1.
    rewrite (getSeek_putSeek l k 0 _ prevNd).
    pose proof (putSeek_spec l k 0 (S (length (nodes l))) _ _ _ Hwf Hn Ht Ea) as Hs.
    destruct (putSeek _ _ _ _ _ _ _) as [[[prevNd' nextp'] a'] l'| |]; [|done..].
    destruct Hs as (-> & Ht' & Ea' & Hle). simpl. eauto 6.
  - cbn [getLevels].
    destruct (trail_lookup l k (S h) (S h) _ _ Hwf Ht) as [a Ea].
    eapply sat_bind; [exact (sat_getNode _ _ _ Ea)|].
    intros ? ? [-> ->]. unfold bind at 1, walkFuel, gets. unfold bind at 1.
    rewrite (getSeek_putSeek l k (S h) _ prevNd).
    pose proof (putSeek_spec l k (S h) (S (length (nodes l))) _ _ _ Hwf Hn Ht Ea) as Hs.
    destruct (putSeek _ _ _ _ _ _ _) as [[[prevNd' nextp'] a'] l'| |]; [|done..].
    destruct Hs as (-> & Ht' & Ea' & Hle).
    apply (IH prevNd' nextp' a'); [lia|]. eapply trail_down; [|exact Ht']. lia.
Qed.

End Descent.

(** ** The splice loop of [Put] *)

Section Splice.

Context {Source : Type} `{Rand Source}.
Implicit Types (l st : List Source) (k v : bytes) (a b ins : skipNode).

Lemma toNodeId_length l : wf l -> toNodeId (Z.of_nat (length (nodes l))) = length (nodes l).
Proof.
  intros Hwf. pose proof (wf_count _ Hwf) as Hc. unfold maxCount in Hc.
  unfold toNodeId, uint32. rewrite Z.mod_small by lia. apply Nat2Z.id.
Qed.

Lemma crumb_lt l k h p : wf l -> crumb l k h p -> p < length (nodes l).
Proof.
  intros Hwf [prevNd nextp currNd Ht <- _ _].
  destruct (trail_id l k h _ _ Hwf Ht) as [E| ->].
  - eapply lookup_lt_Some; eauto.
  - simpl. pose proof (wf_sentinel _ Hwf) as E. apply lookup_lt_Some in E. lia.
Qed.

(** After [makeNode] no level is done. *)
Lemma spliced_start l k v bc :
  wf l ->
  exists st ins, makeNode k v l = Ok ins st /\ spliced l k v bc 0 st ins.
Proof.
  intros Hwf. unfold makeNode.
  destruct (rollHeight (src l)) as [ht r] eqn:Er.
  eexists _, _. split; [reflexivity|].
  split; cbn [cmp src nodes head id key val height next]; try done.
  - by rewrite Er.
  - rewrite length_app. simpl. lia.
  - intros i a E. exists a. split; [by apply lookup_app_l_Some|].
    do 4 (split; [done|]). intros h Hh. rewrite decide_False by lia. done.
  - by apply toNodeId_length.
  - by rewrite Er.
  - intros h Hh. rewrite decide_False by lia. apply pget_zero.
Qed.

Ltac level_cases h d :=
  repeat case_decide; try done; exfalso;
  repeat match goal with H : _ /\ _ |- _ => destruct H end;
  (destruct (decide (h = d)); [subst h; try congruence; try lia|]);
  try (match goal with
       | H : ~ _ |- _ => apply H; repeat split; first [lia | congruence | done]
       end);
  try congruence; try lia.

(** One turn of the loop does level [d]. *)
Lemma putSplice_step l0 k v bc d st ins n :
  wf l0 -> spliced l0 k v bc d st ins -> d < maxHeight ->
  pget d bc < length (nodes l0) ->
  exists st' ins',
    putSplice (S n) d bc ins st = putSplice n (S d) bc ins' st' /\
    spliced l0 k v bc (S d) st' ins'.
Proof.
  intros Hwf Hsp Hd Hbc.
  destruct Hsp as [Ecmp Esrc Elen Ehead Eold Eid Ekey Eval Eht Enext].
  cbn [putSplice]. rewrite decide_False by lia.
  unfold bind at 1, gets. unfold bind at 1, getNode.
  pose proof (Ehead d Hd) as Ehd. rewrite decide_False in Ehd by lia.
  destruct (wf_lookup_head l0 d Hwf) as [a0 Ea0].
  destruct (Eold _ _ Ea0) as (a0' & Ea0' & Eid0 & Ekey0 & _).
  rewrite Ehd, Ea0'.
  unfold bind at 1, compare, compareKeys, gets. rewrite Ecmp, Ekey, Ekey0.
  assert (headCase l0 k d = (cmpKeys (cmp l0) k (key a0) <? 0)%Z) as Ehc.
  { unfold headCase. by rewrite Ea0. }
  rewrite <- Ehc.
  destruct (headCase l0 k d) eqn:Hhc.
  - (* the new node becomes the first of the level *)
    unfold bind at 1, setHead, modify.
    eexists _, _. split; [reflexivity|].
    split; cbn [cmp src nodes head id key val height next setNext]; try done.
    + intros h Hh. rewrite pget_pset by done. rewrite Eid.
      case_decide as E1; [subst h; rewrite decide_True by (split; [lia|done]); done|].
      rewrite (Ehead h Hh). level_cases h d.
    + intros i a E. destruct (Eold i a E) as (a' & Ea' & ? & ? & ? & ? & En).
      exists a'. do 5 (split; [done|]). intros h Hh. rewrite (En h Hh).
      level_cases h d.
    + intros h Hh. rewrite pget_pset by done.
      case_decide as E1.
      * subst h. rewrite decide_True by lia. rewrite Hhc.
        rewrite Eid0. apply (wf_id _ Hwf _ _ Ea0).
      * rewrite (Enext h Hh). level_cases h d.
  - (* the new node goes after the breadcrumb *)
    destruct (lookup_lt_is_Some_2 _ _ Hbc) as [ap Eap].
    destruct (Eold _ _ Eap) as (ap' & Eap' & Eidp & Ekeyp & Evalp & Ehtp & Enp).
    unfold bind at 1, getNode. rewrite Eap'.
    unfold bind at 1, updateNode. cbn [id setNext].
    pose proof (wf_id _ Hwf _ _ Eap) as Eip.
    rewrite Eidp, Eip. rewrite decide_True by lia.
    eexists _, _. split; [reflexivity|].
    split; cbn [cmp src nodes head id key val height next setNext]; try done.
    + rewrite length_insert. done.
    + intros h Hh. rewrite (Ehead h Hh). level_cases h d.
    + intros i a E. destruct (decide (i = pget d bc)) as [->|Hne].
      * rewrite list_lookup_insert_eq by lia.
        assert (a = ap) as -> by congruence.
        eexists. split; [reflexivity|]. cbn [id key val height next setNext].
        do 4 (split; [done|]). intros h Hh. rewrite pget_pset by done.
        case_decide as E1.
        -- subst h. rewrite decide_True by (repeat split; [lia|done..]). done.
        -- rewrite (Enp h Hh). level_cases h d.
      * rewrite list_lookup_insert_ne by done.
        destruct (Eold i a E) as (a' & Ea' & ? & ? & ? & ? & En).
        exists a'. do 5 (split; [done|]). intros h Hh. rewrite (En h Hh).
        level_cases h d.
    + intros h Hh. rewrite pget_pset by done.
      case_decide as E1.
      * subst h. rewrite decide_True by lia. rewrite Hhc.
        rewrite (Enp d Hd). rewrite decide_False by lia.
        unfold nextAt. by rewrite Eap.
      * rewrite (Enext h Hh). level_cases h d.
Qed.

(** The loop does the levels up to the height of the new node. *)
Lemma putSplice_spec l0 k v bc n d st ins :
  wf l0 -> spliced l0 k v bc d st ins -> d + n <= maxHeight ->
  (forall h, h < maxHeight -> pget h bc < length (nodes l0)) ->
  exists st' ins',
    putSplice n d bc ins st = Ok ins' st' /\ spliced l0 k v bc (d + n) st' ins'.
Proof.
  intros Hwf. revert d st ins.
  induction n as [|n IH]; intros d st ins Hsp Hdn Hbc.
  - exists st, ins. split; [done|]. by rewrite Nat.add_0_r.
  - destruct (putSplice_step l0 k v bc d st ins n Hwf Hsp) as (st' & ins' & -> & Hsp');
      [lia | apply Hbc; lia |].
    destruct (IH (S d) st' ins' Hsp') as (st'' & ins'' & -> & Hsp''); [lia | done |].
    exists st'', ins''. split; [done|]. by replace (d + S n) with (S d + n) by lia.
Qed.

End Splice.

(** ** [Put] keeps the arena well formed *)

Section PutWf.

Context {Source : Type} `{Rand Source}.
Implicit Types (l st : List Source) (k v : bytes) (a b ins : skipNode).

Lemma rollPatterns_bound roll : rollPatterns roll patterns 0 < maxHeight.
Proof.
  unfold patterns. cbn [rollPatterns].
  repeat (destruct (_ =? _)%Z; [|cbv; lia]). cbv. lia.
Qed.

Lemma rollHeight_bound (r : Source) : (rollHeight r).1 < maxHeight.
Proof.
  unfold rollHeight. destruct (Int63 r) as [roll r']. apply rollPatterns_bound.
Qed.

Lemma node_ext a b :
  id a = id b -> key a = key b -> val a = val b -> height a = height b ->
  (forall h, h < maxHeight -> pget h (next a) = pget h (next b)) -> a = b.
Proof.
  destruct a, b; simpl. intros -> -> -> -> E. f_equal. by apply pointer_ext.
Qed.

Lemma pget_ge h p : maxHeight <= h -> pget h p = 0.
Proof.
  intros Hh. unfold maxHeight in Hh.
  do 5 (destruct h as [|h]; [lia|]). reflexivity.
Qed.

(** A breadcrumb on the sentinel means that the key is below the head of
    the level. *)
Lemma crumb_zero l k h : wf l -> crumb l k h 0 -> headCase l k h = true.
Proof.
  intros Hwf [prevNd nextp currNd Ht Eid Ec Hlt].
  destruct Ht as [|i a [Hi Ea] _ _].
  - unfold headCase. rewrite Ec. by apply Z.ltb_lt.
  - rewrite (wf_id _ Hwf _ _ Ea) in Eid. lia.
Qed.

Lemma updated_lookup l i a v j x :
  nodes l !! i = Some a -> nodes (updated l i a v) !! j = Some x ->
  exists y, nodes l !! j = Some y /\ id x = id y /\ key x = key y /\
            height x = height y /\ next x = next y /\ (j <> i -> x = y).
Proof.
  intros Ea. pose proof (lookup_lt_Some _ _ _ Ea) as Hlt.
  unfold updated. cbn [nodes].
  destruct (decide (j = i)) as [->|Hne].
  - rewrite list_lookup_insert_eq by done. intros [= <-]. exists a. done.
  - rewrite list_lookup_insert_ne by done. intros E. exists x. done.
Qed.

Lemma updated_wf l i a v : wf l -> realAt l i a -> wf (updated l i a v).
Proof.
  intros Hwf [Hi Ea].
  assert (length (nodes (updated l i a v)) = length (nodes l)) as Elen.
  { unfold updated. cbn [nodes]. apply length_insert. }
  split.
  - unfold updated. cbn [nodes]. rewrite list_lookup_insert_ne by lia.
    apply (wf_sentinel _ Hwf).
  - intros j x E. destruct (updated_lookup _ _ _ _ _ _ Ea E) as (y & Ey & -> & _).
    apply (wf_id _ Hwf _ _ Ey).
  - intros j x E Hj. destruct (updated_lookup _ _ _ _ _ _ Ea E) as (y & Ey & _ & -> & _).
    apply (wf_key _ Hwf _ _ Ey Hj).
  - intros j x E Hj.
    destruct (updated_lookup _ _ _ _ _ _ Ea E) as (y & Ey & _ & _ & -> & _).
    apply (wf_height _ Hwf _ _ Ey Hj).
  - intros j x h E.
    destruct (updated_lookup _ _ _ _ _ _ Ea E) as (y & Ey & _ & _ & _ & -> & _).
    rewrite Elen. apply (wf_next _ Hwf _ _ h Ey).
  - intros h. rewrite Elen. apply (wf_head _ Hwf).
  - intros j x h b E Hh Eb.
    destruct (updated_lookup _ _ _ _ _ _ Ea E) as (y & Ey & _ & _ & _ & En & _).
    rewrite En in Eb.
    destruct (updated_lookup _ _ _ _ _ _ Ea Eb) as (b0 & Eb0 & _ & _ & -> & _).
    apply (wf_next_level _ Hwf _ _ _ _ Ey Hh Eb0).
  - intros h b Hh Eb. change (head (updated l i a v)) with (head l) in Eb.
    destruct (updated_lookup _ _ _ _ _ _ Ea Eb) as (b0 & Eb0 & _ & _ & -> & _).
    apply (wf_head_level _ Hwf _ _ Hh Eb0).
  - rewrite Elen. apply (wf_count _ Hwf).
Qed.

(** The nodes of the list after the splice loop and the last
    [updateNode]. *)
Lemma spliced_lookup l0 k v bc d l' ins i x :
  spliced l0 k v bc d l' ins -> nodes l' !! length (nodes l0) = Some ins ->
  nodes l' !! i = Some x ->
  (i = length (nodes l0) /\ x = ins) \/
  (exists a, nodes l0 !! i = Some a /\
     id x = id a /\ key x = key a /\ val x = val a /\ height x = height a /\
     forall h, h < maxHeight ->
       pget h (next x) =
         if decide (h < d /\ headCase l0 k h = false /\ i = pget h bc)
         then length (nodes l0) else pget h (next a)).
Proof.
  intros Hsp Eins Ex.
  pose proof (lookup_lt_Some _ _ _ Ex) as Hlt. rewrite (sp_len _ _ _ _ _ _ _ Hsp) in Hlt.
  destruct (decide (i = length (nodes l0))) as [->|Hne].
  - left. split; [done|]. congruence.
  - right. destruct (lookup_lt_is_Some_2 (nodes l0) i) as [a Ea]; [lia|].
    destruct (sp_old _ _ _ _ _ _ _ Hsp _ _ Ea) as (a' & Ea' & Hrest).
    exists a. split; [done|]. assert (x = a') as -> by congruence. done.
Qed.

Lemma linkOf_lookup l0 h e :
  wf l0 -> h < maxHeight -> linkOf l0 h e ->
  exists b, nodes l0 !! e = Some b /\ h <= height b.
Proof.
  intros Hwf Hh [->|[->|(i & a & Ea & ->)]].
  - exists sentinel. split; [apply (wf_sentinel _ Hwf)|]. simpl. lia.
  - destruct (wf_lookup_head l0 h Hwf) as [b Eb]. exists b. split; [done|].
    apply (wf_head_level _ Hwf _ _ Hh Eb).
  - destruct (wf_lookup_next l0 i a h Hwf Ea) as [b Eb]. exists b. split; [done|].
    apply (wf_next_level _ Hwf _ _ _ _ Ea Hh Eb).
Qed.

Lemma spliced_links l0 k v bc d l' ins :
  wf l0 -> spliced l0 k v bc d l' ins -> nodes l' !! length (nodes l0) = Some ins ->
  d <= S (height ins) ->
  forall h, h < maxHeight ->
    (forall e, e = pget h (head l') \/ (exists i x, nodes l' !! i = Some x /\ e = pget h (next x)) ->
       (e = length (nodes l0) /\ h <= height ins) \/ linkOf l0 h e).
Proof.
  intros Hwf Hsp Eins Hd h Hh e [->|(i & x & Ex & ->)].
  - rewrite (sp_head _ _ _ _ _ _ _ Hsp h Hh). case_decide as E.
    + left. split; [done|]. lia.
    + right. right. by left.
  - destruct (spliced_lookup _ _ _ _ _ _ _ _ _ Hsp Eins Ex)
      as [[-> ->]|(a & Ea & _ & _ & _ & _ & En)].
    + rewrite (sp_new_next _ _ _ _ _ _ _ Hsp h Hh). right.
      case_decide; [|by left]. destruct (headCase l0 k h); [right; by left|].
      unfold nextAt. destruct (nodes l0 !! pget h bc) as [ap|] eqn:Eap; [|by left].
      right. right. eauto.
    + rewrite (En h Hh). case_decide as E.
      * left. split; [done|]. lia.
      * right. right. right. eauto.
Qed.

Lemma inserted_wf l0 k v bc l' ins :
  wf l0 -> k <> None ->
  (Z.of_nat (length (nodes l0)) - 1 < maxCount)%Z ->
  (forall h, h < maxHeight -> crumb l0 k h (pget h bc)) ->
  spliced l0 k v bc (S (rollHeight (src l0)).1) l' ins ->
  nodes l' !! length (nodes l0) = Some ins ->
  wf l'.
Proof.
  intros Hwf Hk Hcap Hbc Hsp Eins.
  pose proof (sp_len _ _ _ _ _ _ _ Hsp) as Elen.
  pose proof (rollHeight_bound (src l0)) as Hht.
  pose proof (sp_new_height _ _ _ _ _ _ _ Hsp) as Eht.
  pose proof (lookup_lt_Some _ _ _ (wf_sentinel _ Hwf)) as Hpos.
  assert (forall h e, h < maxHeight ->
            (e = length (nodes l0) /\ h <= height ins) \/ linkOf l0 h e ->
            e < length (nodes l') /\
            forall b, nodes l' !! e = Some b -> h <= height b) as Hlink.
  { intros h e Hh [[-> Hle]|Hl].
    - split; [lia|]. intros b Eb. congruence.
    - destruct (linkOf_lookup l0 h e Hwf Hh Hl) as (b0 & Eb0 & Hb0).
      pose proof (lookup_lt_Some _ _ _ Eb0). split; [lia|]. intros b Eb.
      destruct (sp_old _ _ _ _ _ _ _ Hsp _ _ Eb0) as (b' & Eb' & _ & _ & _ & Ehb & _).
      assert (b = b') as -> by congruence. lia. }
  pose proof (spliced_links l0 k v bc _ l' ins Hwf Hsp Eins) as Hlinks.
  assert (S (rollHeight (src l0)).1 <= S (height ins)) as Hd by lia.
  specialize (Hlinks Hd).
  split.
  - destruct (sp_old _ _ _ _ _ _ _ Hsp _ _ (wf_sentinel _ Hwf))
      as (a' & Ea' & E1 & E2 & E3 & E4 & En).
    rewrite Ea'. f_equal. apply node_ext; try done.
    intros h Hh. rewrite (En h Hh). rewrite decide_False; [done|].
    intros (_ & Hhc & E0). specialize (Hbc h Hh). rewrite <- E0 in Hbc.
    apply crumb_zero in Hbc; [congruence | done].
  - intros i x Ex.
    destruct (spliced_lookup _ _ _ _ _ _ _ _ _ Hsp Eins Ex)
      as [[-> ->]|(a & Ea & -> & _)].
    + apply (sp_new_id _ _ _ _ _ _ _ Hsp).
    + apply (wf_id _ Hwf _ _ Ea).
  - intros i x Ex Hi.
    destruct (spliced_lookup _ _ _ _ _ _ _ _ _ Hsp Eins Ex)
      as [[-> ->]|(a & Ea & _ & -> & _)].
    + by rewrite (sp_new_key _ _ _ _ _ _ _ Hsp).
    + apply (wf_key _ Hwf _ _ Ea Hi).
  - intros i x Ex Hi.
    destruct (spliced_lookup _ _ _ _ _ _ _ _ _ Hsp Eins Ex)
      as [[-> ->]|(a & Ea & _ & _ & _ & -> & _)].
    + by rewrite Eht.
    + apply (wf_height _ Hwf _ _ Ea Hi).
  - intros i x h Ex. destruct (decide (h < maxHeight)) as [Hh|Hh].
    + apply (Hlink h _ Hh). apply (Hlinks h Hh). right. eauto.
    + rewrite pget_ge by lia. lia.
  - intros h. destruct (decide (h < maxHeight)) as [Hh|Hh].
    + apply (Hlink h _ Hh). apply (Hlinks h Hh). by left.
    + rewrite pget_ge by lia. lia.
  - intros i x h b Ex Hh Eb.
    refine (proj2 (Hlink h _ Hh _) b Eb). apply (Hlinks h Hh). right. eauto.
  - intros h b Hh Eb.
    refine (proj2 (Hlink h _ Hh _) b Eb). apply (Hlinks h Hh). by left.
  - rewrite Elen. lia.
Qed.

End PutWf.

(** ** [Put] and [Get] on a well-formed list *)

Section PutGet.

Context {Source : Type} `{Rand Source}.
Implicit Types (l st : List Source) (k v : bytes) (a b ins : skipNode).

Lemma Full_eq l :
  Full l = Ok (Z.of_nat (length (nodes l)) - 1 >=? maxCount)%Z l.
Proof. reflexivity. Qed.

Lemma Put_nil v l : Put None v l = Panic "key must be non-nil" l.
Proof. reflexivity. Qed.

Lemma Put_full k v l :
  (Z.of_nat (length (nodes l)) - 1 >=? maxCount)%Z = true ->
  Put k v l = Panic (match k with
                     | Some _ => "list has no capacity"
                     | None => "key must be non-nil"
                     end) l.
Proof.
  intros E. destruct k as [kb|]; [|done].
  unfold Put. unfold bind at 1. rewrite Full_eq, E. done.
Qed.

Lemma spliced_update l0 k v bc d st ins :
  spliced l0 k v bc d st ins ->
  spliced l0 k v bc d
    {| head := head st; nodes := <[length (nodes l0) := ins]> (nodes st);
       cmp := cmp st; src := src st |} ins.
Proof.
  intros [Ecmp Esrc Elen Ehead Eold Eid Ekey Eval Eht Enext].
  split; cbn [cmp src nodes head]; try done.
  - by rewrite length_insert.
  - intros i a E. pose proof (lookup_lt_Some _ _ _ E).
    rewrite list_lookup_insert_ne by lia. by apply Eold.
Qed.

(** What a call of [Put] with a key and room left does: an update in
    place, or the splice of a new node along the breadcrumbs. *)
Lemma Put_spec l k v :
  wf l -> k <> None -> (Z.of_nat (length (nodes l)) - 1 < maxCount)%Z ->
  sat (Put k v l) (fun _ l' =>
    (exists i a, realAt l i a /\ cmp l k (key a) = 0%Z /\ l' = updated l i a v) \/
    (exists bc ins,
       (forall h, h < maxHeight -> crumb l k h (pget h bc)) /\
       spliced l k v bc (S (rollHeight (src l)).1) l' ins /\
       nodes l' !! length (nodes l) = Some ins)).
Proof.
  intros Hwf Hk Hcap. destruct k as [kb|]; [|done].
  unfold Put. unfold bind at 1. rewrite Full_eq.
  destruct (Z.geb_spec (Z.of_nat (length (nodes l)) - 1) maxCount) as [|_]; [lia|].
  unfold bind at 1, gets.
  eapply sat_bind.
  { apply putLevels_spec; [done | unfold highest, maxHeight; lia | constructor]. }
  intros [bc|] l'.
  - intros (-> & Hbc & _).
    destruct (spliced_start l (Some kb) v bc Hwf) as (st & ins & Emk & Hsp).
    unfold bind at 1. rewrite Emk.
    pose proof (rollHeight_bound (src l)) as Hht.
    assert (height ins = (rollHeight (src l)).1) as Eht
      by apply (sp_new_height _ _ _ _ _ _ _ Hsp).
    assert (0 + S (height ins) <= maxHeight) as Hn by (rewrite Eht; lia).
    assert (forall h, h < maxHeight -> pget h bc < length (nodes l)) as Hlt.
    { intros h Hh. eapply crumb_lt; [done|]. apply Hbc. exact Hh. }
    destruct (putSplice_spec l (Some kb) v bc (S (height ins)) 0 st ins Hwf Hsp Hn Hlt)
      as (st' & ins' & Eloop & Hsp').
    unfold bind. rewrite Eloop. unfold updateNode.
    rewrite (sp_new_id _ _ _ _ _ _ _ Hsp'), (sp_len _ _ _ _ _ _ _ Hsp').
    rewrite decide_True by lia. simpl. right. exists bc, ins'.
    split; [intros h Hh; apply Hbc; exact Hh|].
    rewrite Eht in Hsp'. split; [by apply spliced_update|].
    cbn [nodes]. apply list_lookup_insert_eq. rewrite (sp_len _ _ _ _ _ _ _ Hsp'). lia.
  - intros Hup. simpl. by left.
Qed.

Lemma Put_wf l k v l' : wf l -> stateOf (Put k v l) = Some l' -> wf l'.
Proof.
  intros Hwf E. destruct k as [kb|]; [|by inversion E; subst].
  destruct (Z.geb_spec (Z.of_nat (length (nodes l)) - 1) maxCount) as [Hge|Hlt].
  - rewrite Put_full in E by (by apply Z.geb_le). by inversion E; subst.
  - pose proof (Put_spec l (Some kb) v Hwf ltac:(done) Hlt) as Hs.
    destruct (Put _ _ _) as [[] l1| |]; simpl in *; [|done..].
    inversion E; subst l1.
    destruct Hs as [(i & a & Hr & _ & ->)|(bc & ins & Hbc & Hsp & Eins)].
    + by apply updated_wf.
    + exact (inserted_wf l (Some kb) v bc l' ins Hwf ltac:(done) Hlt Hbc Hsp Eins).
Qed.

(** The comparator of a list never changes. *)
Lemma Put_cmp l k v l' : wf l -> stateOf (Put k v l) = Some l' -> cmp l' = cmp l.
Proof.
  intros Hwf E. destruct k as [kb|]; [|by inversion E; subst].
  destruct (Z.geb_spec (Z.of_nat (length (nodes l)) - 1) maxCount) as [Hge|Hlt].
  - rewrite Put_full in E by (by apply Z.geb_le). by inversion E; subst.
  - pose proof (Put_spec l (Some kb) v Hwf ltac:(done) Hlt) as Hs.
    destruct (Put _ _ _) as [[] l1| |]; simpl in *; [|done..].
    inversion E; subst l1.
    destruct Hs as [(i & a & Hr & _ & ->)|(bc & ins & Hbc & Hsp & Eins)]; [done|].
    apply (sp_cmp _ _ _ _ _ _ _ Hsp).
Qed.

(** [Get] ends on the first node of level 0 that is not below the key. *)
Lemma Get_spec l k :
  wf l ->
  sat (Get k l) (fun r l' =>
    l' = l /\ exists prevNd nextp a,
      trail l k 0 prevNd nextp /\
      nodes l !! pget 0 nextp = Some a /\
      (cmpKeys (cmp l) k (key a) <= 0)%Z /\
      r = if (cmpKeys (cmp l) k (key a) =? 0)%Z then (val a, true) else (None, false)).
Proof.
  intros Hwf. unfold Get. unfold bind at 1, gets.
  eapply sat_bind.
  { apply (getLevels_spec l k highest zeroNode); [done | unfold highest, maxHeight; lia|].
    constructor. }
  intros a l' (-> & prevNd & nextp & Ht & Ea & Hle).
  unfold bind, compareKeys, gets.
  destruct (_ =? _)%Z eqn:E; simpl; (split; [done|]); exists prevNd, nextp, a;
    rewrite E; done.
Qed.

Lemma Get_state l k l' : wf l -> stateOf (Get k l) = Some l' -> l' = l.
Proof.
  intros Hwf E. pose proof (Get_spec l k Hwf) as Hs.
  destruct (Get k l) as [r l1| |]; simpl in *; [|done..].
  destruct Hs as [-> _]. congruence.
Qed.

Lemma reachable_wf c l : reachable c l -> wf l /\ cmp l = c.
Proof.
  induction 1 as [|l k v l' _ [IH1 IH2] E|l k l' _ [IH1 IH2] E].
  - split; [apply wf_new | done].
  - split; [by eapply Put_wf|]. rewrite <- IH2. by eapply Put_cmp.
  - apply Get_state in E; [|done]. by subst.
Qed.

End PutGet.

(** ** Ordered levels *)

Section Follows.

Context (c : ValueCmp) (Hc : total_order c).
Implicit Types (ns : list skipNode) (k : bytes) (a b ins : skipNode).

(** [follows] looks at the keys and heights of the nodes only. *)
Lemma follows_ext ns ns' h lo s :
  (forall j a, ns !! j = Some a ->
     exists a', ns' !! j = Some a' /\ key a' = key a /\ height a' = height a) ->
  (forall j a', ns' !! j = Some a' ->
     exists a, ns !! j = Some a /\ key a' = key a /\ height a' = height a) ->
  follows c ns h lo s -> follows c ns' h lo s.
Proof.
  intros H1 H2 [F1 F2]. split.
  - intros Hs. destruct (F1 Hs) as (sn & Es & Hh & Ha).
    destruct (H1 _ _ Es) as (sn' & Es' & Ek & Eh).
    exists sn'. rewrite Ek, Eh. done.
  - intros j b' Hj Eb' Hh Ha.
    destruct (H2 _ _ Eb') as (b & Eb & Ek & Eh). rewrite Ek, Eh in *.
    destruct (F2 j b Hj Eb Hh Ha) as (sn & Hs & Es & Hle).
    destruct (H1 _ _ Es) as (sn' & Es' & Ek' & Eh').
    exists sn'. rewrite Ek'. done.
Qed.

(** The new node is not of the level, or not above the bound. *)
Lemma follows_grown_skip ns0 ns' ins h lo s :
  grown ns0 ns' ins -> follows c ns0 h lo s ->
  ~ (h <= height ins /\ above c lo (key ins)) ->
  follows c ns' h lo s.
Proof.
  intros [G1 G2] [F1 F2] Hno. split.
  - intros Hs. destruct (F1 Hs) as (sn & Es & Hh & Ha).
    destruct (G1 _ _ Es) as (sn' & Es' & Ek & Eh).
    exists sn'. rewrite Ek, Eh. done.
  - intros j b' Hj Eb' Hh Ha.
    destruct (G2 _ _ Eb') as [[-> ->]|(b & Eb & Ek & Eh)]; [by destruct Hno|].
    rewrite Ek, Eh in *.
    destruct (F2 j b Hj Eb Hh Ha) as (sn & Hs & Es & Hle).
    destruct (G1 _ _ Es) as (sn' & Es' & Ek' & Eh').
    exists sn'. rewrite Ek'. done.
Qed.

(** The new node comes after the first node above the bound. *)
Lemma follows_grown_after ns0 ns' ins h lo s sn :
  grown ns0 ns' ins -> follows c ns0 h lo s ->
  s <> 0 -> ns0 !! s = Some sn -> (c (key sn) (key ins) <= 0)%Z ->
  follows c ns' h lo s.
Proof.
  intros [G1 G2] [F1 F2] Hs Es Hle. split.
  - intros _. destruct (F1 Hs) as (sn0 & Es0 & Hh & Ha).
    destruct (G1 _ _ Es0) as (sn' & Es' & Ek & Eh).
    exists sn'. rewrite Ek, Eh. done.
  - intros j b' Hj Eb' Hh Ha.
    destruct (G1 _ _ Es) as (sn' & Es' & Ek' & Eh').
    destruct (G2 _ _ Eb') as [[-> ->]|(b & Eb & Ek & Eh)].
    + exists sn'. rewrite Ek'. done.
    + rewrite Ek, Eh in *.
      destruct (F2 j b Hj Eb Hh Ha) as (sn0 & _ & Es0 & Hle0).
      assert (sn0 = sn) as -> by congruence.
      exists sn'. rewrite Ek'. done.
Qed.

(** The new node is the first above the bound. *)
Lemma follows_grown_first ns0 ns' ins h lo s :
  grown ns0 ns' ins -> follows c ns0 h lo s ->
  0 < length ns0 -> ns' !! length ns0 = Some ins ->
  h <= height ins -> above c lo (key ins) ->
  (s = 0 \/ exists sn, ns0 !! s = Some sn /\ (c (key ins) (key sn) <= 0)%Z) ->
  follows c ns' h lo (length ns0).
Proof.
  intros [G1 G2] [F1 F2] Hpos Eins Hh Ha Hs. split.
  - intros _. exists ins. done.
  - intros j b' Hj Eb' Hhb Hab. exists ins. split; [lia|]. split; [done|].
    destruct (G2 _ _ Eb') as [[-> ->]|(b & Eb & Ek & Eh)].
    + rewrite (cmp_refl c Hc). lia.
    + rewrite Ek, Eh in *.
      destruct (F2 j b Hj Eb Hhb Hab) as (sn0 & Hs0 & Es0 & Hle0).
      destruct Hs as [->|(sn & Es & Hle)]; [done|].
      assert (sn0 = sn) as -> by congruence.
      order Hc.
Qed.

(** What follows the new node is what followed the bound before. *)
Lemma follows_grown_new ns0 ns' ins h lo s :
  grown ns0 ns' ins -> follows c ns0 h lo s ->
  above c lo (key ins) ->
  (s = 0 \/ exists sn, ns0 !! s = Some sn /\ (c (key ins) (key sn) < 0)%Z) ->
  follows c ns' h (Some (key ins)) s.
Proof.
  intros [G1 G2] [F1 F2] Ha Hs. split.
  - intros Hs0. destruct (F1 Hs0) as (sn0 & Es0 & Hh & _).
    destruct (G1 _ _ Es0) as (sn' & Es' & Ek & Eh).
    exists sn'. rewrite Ek, Eh. split; [done|]. split; [done|].
    destruct Hs as [->|(sn & Es & Hlt)]; [done|].
    assert (sn0 = sn) as -> by congruence. done.
  - intros j b' Hj Eb' Hhb Hab. simpl in Hab.
    destruct (G2 _ _ Eb') as [[-> ->]|(b & Eb & Ek & Eh)].
    + rewrite (cmp_refl c Hc) in Hab. lia.
    + rewrite Ek, Eh in *.
      assert (above c lo (key b)) as Hab0.
      { destruct lo as [x|]; [|done]. simpl in *. order Hc. }
      destruct (F2 j b Hj Eb Hhb Hab0) as (sn0 & Hs0 & Es0 & Hle0).
      destruct (G1 _ _ Es0) as (sn' & Es' & Ek' & Eh').
      exists sn'. rewrite Ek'. done.
Qed.

End Follows.

(** ** [Put] keeps the levels ordered *)

Section PutOrdered.

Context {Source : Type} `{Rand Source}.
Implicit Types (l st : List Source) (k v : bytes) (a b ins : skipNode).

Lemma bound_zero : bound zeroNode = None.
Proof. reflexivity. Qed.

Lemma bound_real l i a : wf l -> realAt l i a -> bound a = Some (key a).
Proof.
  intros Hwf [Hi Ea]. pose proof (wf_key _ Hwf _ _ Ea Hi).
  unfold bound. by destruct (key a).
Qed.

(** A descent stands on the chain of its level, past the nodes below its
    key only. *)
Lemma trail_follows l k h prevNd nextp :
  wf l -> ordered l -> h < maxHeight -> trail l k h prevNd nextp ->
  follows (cmp l) (nodes l) h (bound prevNd) (pget h nextp) /\
  above (cmp l) (bound prevNd) k.
Proof.
  intros Hwf Ho Hh [|i a Hr Hle Hgt].
  - split; [|done]. by apply (ord_head _ Ho).
  - rewrite (bound_real l i a Hwf Hr). split.
    + by apply (ord_next _ Ho h i).
    + simpl. pose proof (ord_total _ Ho) as Hc. order Hc.
Qed.

Lemma cmpKeys_neg_cases l k s sn :
  wf l -> nodes l !! s = Some sn -> (cmpKeys (cmp l) k (key sn) < 0)%Z ->
  s = 0 \/ (cmp l k (key sn) < 0)%Z.
Proof.
  intros Hwf Es Hlt. destruct s as [|s]; [by left|right].
  rewrite cmpKeys_some in Hlt; [done|]. eapply wf_key; eauto. lia.
Qed.

(** No node of the level lies between the breadcrumb and the key. *)
Lemma crumb_gap l k h p j b :
  wf l -> ordered l -> h < maxHeight -> crumb l k h p ->
  realAt l j b -> h <= height b -> (cmp l (key b) k <= 0)%Z ->
  exists a, realAt l p a /\ (cmp l (key b) (key a) <= 0)%Z.
Proof.
  intros Hwf Ho Hh [prevNd nextp currNd Ht Eid Ec Hlt] [Hj Eb] Hhb Hle.
  pose proof (ord_total _ Ho) as Hc.
  destruct (trail_follows l k h _ _ Hwf Ho Hh Ht) as [[F1 F2] Ha].
  destruct (cmpKeys_neg_cases l k _ _ Hwf Ec Hlt) as [E0|Hlt'].
  - (* nothing follows the breadcrumb *)
    destruct Ht as [|i a Hr Hia Hgt].
    + destruct (F2 j b Hj Eb Hhb I) as (sn & Hs & _). done.
    + exists a. rewrite (wf_id _ Hwf _ _ (proj2 Hr)) in Eid. subst i. split; [done|].
      rewrite (bound_real l _ a Hwf Hr) in F2.
      destruct (Z_le_gt_dec (cmp l (key b) (key a)) 0) as [|Hgt']; [done|].
      destruct (F2 j b Hj Eb Hhb) as (sn & Hs & _); [simpl; order Hc | done].
  - destruct Ht as [|i a Hr Hia Hgt].
    + destruct (F2 j b Hj Eb Hhb I) as (sn & Hs & Es & Hle').
      assert (sn = currNd) as -> by congruence. exfalso. order Hc.
    + exists a. rewrite (wf_id _ Hwf _ _ (proj2 Hr)) in Eid. subst i. split; [done|].
      rewrite (bound_real l _ a Hwf Hr) in F2.
      destruct (Z_le_gt_dec (cmp l (key b) (key a)) 0) as [|Hgt']; [done|].
      destruct (F2 j b Hj Eb Hhb) as (sn & Hs & Es & Hle'); [simpl; order Hc|].
      assert (sn = currNd) as -> by congruence. exfalso. order Hc.
Qed.

(** The breadcrumb of level 0 shows that the key is not stored. *)
Lemma crumb_absent l k p :
  wf l -> ordered l -> crumb l k 0 p -> absent l k.
Proof.
  intros Hwf Ho Hcr j b Hr E0.
  pose proof (ord_total _ Ho) as Hc.
  destruct (crumb_gap l k 0 p j b Hwf Ho) as (a & Ha & Hle);
    [unfold maxHeight; lia | done | done | lia | order Hc |].
  destruct Hcr as [prevNd nextp currNd Ht Eid Ec Hlt].
  destruct Ht as [|i a' Hr' Hia Hgt].
  - destruct Ha as [Hp _]. simpl in Eid. lia.
  - rewrite (wf_id _ Hwf _ _ (proj2 Hr')) in Eid. subst i.
    assert (a' = a) as -> by (destruct Hr', Ha; congruence).
    order Hc.
Qed.

Lemma headCase_true l k h :
  wf l -> headCase l k h = true ->
  pget h (head l) = 0 \/
  exists hn, nodes l !! pget h (head l) = Some hn /\ (cmp l k (key hn) < 0)%Z.
Proof.
  intros Hwf. unfold headCase.
  destruct (nodes l !! pget h (head l)) as [hn|] eqn:E; [|done].
  intros Hlt%Z.ltb_lt.
  destruct (cmpKeys_neg_cases l k _ _ Hwf E Hlt); [by left|right; eauto].
Qed.

Lemma headCase_false l k h :
  wf l -> headCase l k h = false ->
  pget h (head l) <> 0 /\
  exists hn, nodes l !! pget h (head l) = Some hn /\ (cmp l k (key hn) >= 0)%Z.
Proof.
  intros Hwf. unfold headCase.
  destruct (wf_lookup_head l h Hwf) as [hn E]. rewrite E.
  intros Hge%Z.ltb_ge.
  destruct (cmpKeys_nonneg (cmp l) k (key hn) Hge) as [Hk Ek].
  split; [|exists hn; split; [done|lia]].
  intros E0. rewrite E0, (wf_sentinel _ Hwf) in E. by inversion E; subst.
Qed.

(** A breadcrumb on a node: the node is of the level and below the key,
    and what follows it is not. *)
Lemma crumb_node l k h p :
  wf l -> crumb l k h p -> p <> 0 ->
  exists a, realAt l p a /\ h <= height a /\ (cmp l k (key a) > 0)%Z /\
    (pget h (next a) = 0 \/
     exists sn, nodes l !! pget h (next a) = Some sn /\ (cmp l k (key sn) < 0)%Z).
Proof.
  intros Hwf [prevNd nextp currNd Ht Eid Ec Hlt] Hp.
  destruct Ht as [|i a Hr Hia Hgt]; [done|].
  rewrite (wf_id _ Hwf _ _ (proj2 Hr)) in Eid. subst i.
  exists a. do 3 (split; [done|]).
  destruct (cmpKeys_neg_cases l k _ _ Hwf Ec Hlt); [by left|right; eauto].
Qed.

Lemma updated_ordered l i a v :
  wf l -> ordered l -> realAt l i a -> ordered (updated l i a v).
Proof.
  intros Hwf Ho [Hi Ea].
  assert (forall j x, nodes (updated l i a v) !! j = Some x ->
            exists y, nodes l !! j = Some y /\ key x = key y /\
                      height x = height y /\ next x = next y) as Hinv.
  { intros j x E. destruct (updated_lookup _ _ _ _ _ _ Ea E) as (y & ? & ? & ? & ? & ? & _).
    eauto 6. }
  assert (forall h lo s, follows (cmp l) (nodes l) h lo s ->
            follows (cmp l) (nodes (updated l i a v)) h lo s) as Hf.
  { intros h lo s. apply follows_ext.
    - intros j x Ex. unfold updated. cbn [nodes].
      destruct (decide (j = i)) as [->|Hne].
      + rewrite list_lookup_insert_eq by (eapply lookup_lt_Some; eauto).
        assert (x = a) as -> by congruence. eexists. split; [done|]. done.
      + rewrite list_lookup_insert_ne by done. eauto.
    - intros j x Ex. destruct (Hinv j x Ex) as (y & ? & ? & ? & _). eauto. }
  split.
  - apply (ord_total _ Ho).
  - intros j1 j2 x1 x2 [Hj1 E1] [Hj2 E2].
    destruct (Hinv _ _ E1) as (y1 & Ey1 & -> & _).
    destruct (Hinv _ _ E2) as (y2 & Ey2 & -> & _).
    by apply (ord_distinct _ Ho).
  - intros h Hh. apply Hf. by apply (ord_head _ Ho).
  - intros h j x Hh [Hj Ex] Hhx.
    destruct (Hinv _ _ Ex) as (y & Ey & Ek & Eh & En). rewrite Ek, En.
    apply Hf. apply (ord_next _ Ho h j y Hh); [done | lia].
Qed.

End PutOrdered.

Section InsertOrdered.

Context {Source : Type} `{Rand Source}.
Implicit Types (l st : List Source) (k v : bytes) (a b ins : skipNode).

Lemma spliced_grown l0 k v bc d l' ins :
  spliced l0 k v bc d l' ins -> nodes l' !! length (nodes l0) = Some ins ->
  grown (nodes l0) (nodes l') ins.
Proof.
  intros Hsp Eins. split.
  - intros j a Ea. destruct (sp_old _ _ _ _ _ _ _ Hsp _ _ Ea) as (a' & ? & _ & ? & _ & ? & _).
    eauto.
  - intros j x Ex.
    destruct (spliced_lookup _ _ _ _ _ _ _ _ _ Hsp Eins Ex)
      as [?|(a & ? & _ & ? & _ & ? & _)]; [by left|right; eauto].
Qed.

(** The list with the new node spliced in is ordered. *)
Lemma inserted_ordered l0 k v bc l' ins :
  wf l0 -> ordered l0 -> k <> None ->
  (forall h, h < maxHeight -> crumb l0 k h (pget h bc)) ->
  spliced l0 k v bc (S (rollHeight (src l0)).1) l' ins ->
  nodes l' !! length (nodes l0) = Some ins ->
  ordered l'.
Proof.
  intros Hwf Ho Hk Hbc Hsp Eins.
  pose proof (ord_total _ Ho) as Hc.
  pose proof (sp_cmp _ _ _ _ _ _ _ Hsp) as Ecmp.
  pose proof (sp_new_key _ _ _ _ _ _ _ Hsp) as Ekey.
  pose proof (sp_new_height _ _ _ _ _ _ _ Hsp) as Eht.
  pose proof (spliced_grown _ _ _ _ _ _ _ Hsp Eins) as Hg.
  pose proof (lookup_lt_Some _ _ _ (wf_sentinel _ Hwf)) as Hpos.
  assert (absent l0 k) as Habs.
  { eapply crumb_absent; eauto. apply Hbc. unfold maxHeight. lia. }
  split; rewrite ?Ecmp.
  - done.
  - intros i j x y [Hi Ex] [Hj Ey] E0.
    destruct (spliced_lookup _ _ _ _ _ _ _ _ _ Hsp Eins Ex)
      as [[-> ->]|(a & Ea & _ & Eka & _)];
    destruct (spliced_lookup _ _ _ _ _ _ _ _ _ Hsp Eins Ey)
      as [[-> ->]|(b & Eb & _ & Ekb & _)]; [done|..].
    + exfalso. rewrite Ekey, Ekb in E0. by apply (Habs j b).
    + exfalso. rewrite Ekey, Eka in E0. apply (Habs i a); [done|]. order Hc.
    + rewrite Eka, Ekb in E0. by apply (ord_distinct _ Ho i j a b).
  - (* the head of the level *)
    intros h Hh. pose proof (ord_head _ Ho h Hh) as F.
    rewrite (sp_head _ _ _ _ _ _ _ Hsp h Hh). case_decide as Hd.
    + destruct Hd as [Hlt Hhc].
      apply (follows_grown_first _ Hc (nodes l0) (nodes l') ins h None (pget h (head l0)));
        [done | done | done | done | lia | done |].
      rewrite Ekey.
      destruct (headCase_true l0 k h Hwf Hhc) as [?|(hn & ? & ?)]; [by left|right].
      exists hn. split; [done|lia].
    + destruct (decide (h <= height ins)) as [Hle|Hgt].
      * destruct (headCase l0 k h) eqn:Hhc; [exfalso; apply Hd; split; [lia|done]|].
        destruct (headCase_false l0 k h Hwf Hhc) as (Hn0 & hn & Ehn & Hge).
        apply (follows_grown_after (cmp l0) (nodes l0) (nodes l') ins h None _ hn); [done..|].
        rewrite Ekey. order Hc.
      * apply (follows_grown_skip (cmp l0) (nodes l0) (nodes l') ins h None); [done..|]. intros [? _]. lia.
  - (* what follows each node *)
    intros h i x Hh [Hi Ex] Hhx.
    destruct (spliced_lookup _ _ _ _ _ _ _ _ _ Hsp Eins Ex)
      as [[-> ->]|(a & Ea & _ & Eka & _ & Eha & En)].
    + (* the new node *)
      rewrite (sp_new_next _ _ _ _ _ _ _ Hsp h Hh). rewrite decide_True by lia.
      destruct (headCase l0 k h) eqn:Hhc.
      * apply (follows_grown_new _ Hc (nodes l0) (nodes l') ins h None); [done | by apply (ord_head _ Ho) | done |].
        rewrite Ekey. by apply headCase_true.
      * assert (pget h bc <> 0) as Hp.
        { intros E0. pose proof (Hbc h Hh) as Hcr. rewrite E0 in Hcr.
          apply crumb_zero in Hcr; [congruence|done]. }
        destruct (crumb_node l0 k h _ Hwf (Hbc h Hh) Hp) as (ap & Hrp & Hhp & Hgt & Hs).
        unfold nextAt. rewrite (proj2 Hrp).
        apply (follows_grown_new _ Hc (nodes l0) (nodes l') ins h (Some (key ap)));
          [done | by apply (ord_next _ Ho h (pget h bc)) | rewrite Ekey; simpl; order Hc |].
        by rewrite Ekey.
    + (* a node of the list before *)
      rewrite Eka, Eha in *. rewrite (En h Hh).
      pose proof (ord_next _ Ho h i a Hh (conj Hi Ea) Hhx) as F.
      case_decide as Hd.
      * destruct Hd as (Hlt & Hhc & ->).
        destruct (crumb_node l0 k h _ Hwf (Hbc h Hh)) as (ap & Hrp & Hhp & Hgt & Hs); [lia|].
        assert (ap = a) as -> by (destruct Hrp; congruence).
        apply (follows_grown_first _ Hc (nodes l0) (nodes l') ins h (Some (key a)) (pget h (next a)));
          [done | done | done | done | lia | rewrite Ekey; simpl; order Hc |].
        rewrite Ekey. destruct Hs as [?|(sn & ? & ?)]; [by left|right].
        exists sn. split; [done|lia].
      * destruct (decide (h <= height ins /\ (cmp l0 (key a) k < 0)%Z)) as [[Hle Hak]|Hno].
        -- (* the node is below the key: so is what follows it *)
           destruct (crumb_gap l0 k h _ i a Hwf Ho Hh (Hbc h Hh)) as (ap & Hrp & Hap);
             [done | done | lia |].
           destruct (crumb_node l0 k h _ Hwf (Hbc h Hh)) as (ap' & Hrp' & Hhp & Hgt & Hs);
             [destruct Hrp; lia|].
           assert (ap' = ap) as -> by (destruct Hrp, Hrp'; congruence).
           destruct (decide (i = pget h bc)) as [Ei|Hne].
           ++ exfalso. destruct (headCase l0 k h) eqn:Hhc;
                [|apply Hd; repeat split; [lia|done..]].
              destruct (ord_head _ Ho h Hh) as [_ F2].
              destruct (F2 i a Hi Ea Hhx I) as (hn & Hn0 & Ehn & Hle').
              destruct (headCase_true l0 k h Hwf Hhc) as [?|(hn' & Ehn' & Hlt')]; [done|].
              assert (hn' = hn) as -> by congruence. order Hc.
           ++ assert (cmp l0 (key a) (key ap) <> 0%Z) as Hneq.
              { intros E0. apply Hne. by apply (ord_distinct _ Ho i _ a ap). }
              destruct F as [_ F2].
              destruct (F2 _ ap (proj1 Hrp) (proj2 Hrp) Hhp) as (sn & Hn0 & Esn & Hle');
                [simpl; order Hc|].
              apply (follows_grown_after (cmp l0) (nodes l0) (nodes l') ins h _ _ sn); [done | | done..|].
              { by apply (ord_next _ Ho h i a). }
              rewrite Ekey. order Hc.
        -- apply (follows_grown_skip (cmp l0) (nodes l0) (nodes l') ins h _); [done | done |].
           intros [Hle Hab]. apply Hno. split; [done|]. rewrite Ekey in Hab. exact Hab.
Qed.

(** [Put] keeps a well-formed, ordered list ordered. *)
Lemma Put_ordered l k v l' :
  wf l -> ordered l -> stateOf (Put k v l) = Some l' -> ordered l'.
Proof.
  intros Hwf Ho E. destruct k as [kb|]; [|by inversion E; subst].
  destruct (Z.geb_spec (Z.of_nat (length (nodes l)) - 1) maxCount) as [Hge|Hlt].
  - rewrite Put_full in E by (by apply Z.geb_le). by inversion E; subst.
  - pose proof (Put_spec l (Some kb) v Hwf ltac:(done) Hlt) as Hs.
    destruct (Put _ _ _) as [[] l1| |]; simpl in *; [|done..].
    inversion E; subst l1.
    destruct Hs as [(i & a & Hr & _ & ->)|(bc & ins & Hbc & Hsp & Eins)].
    + by apply updated_ordered.
    + exact (inserted_ordered l (Some kb) v bc l' ins Hwf Ho ltac:(done) Hbc Hsp Eins).
Qed.

End InsertOrdered.

(** ** The walks end *)

Lemma filter_length_le {A} (P Q : A -> Prop)
    `{!forall x, Decision (P x)} `{!forall x, Decision (Q x)} (xs : list A) :
  (forall x, x ∈ xs -> P x -> Q x) -> length (filter P xs) <= length (filter Q xs).
Proof.
  induction xs as [|y xs IH]; intros Himp; [done|].
  rewrite !filter_cons.
  assert (length (filter P xs) <= length (filter Q xs)) as Hle.
  { apply IH. intros x Hx. apply Himp. by right. }
  destruct (decide (P y)) as [HP|HP]; destruct (decide (Q y)) as [HQ|HQ]; simpl; try lia.
  exfalso. apply HQ, Himp; [by left | done].
Qed.

Lemma filter_length_lt {A} (P Q : A -> Prop)
    `{!forall x, Decision (P x)} `{!forall x, Decision (Q x)} (xs : list A) (z : A) :
  (forall x, x ∈ xs -> P x -> Q x) -> z ∈ xs -> Q z -> ~ P z ->
  length (filter P xs) < length (filter Q xs).
Proof.
  induction xs as [|y xs IH]; intros Himp Hz HQ HP; [by apply elem_of_nil in Hz|].
  rewrite !filter_cons.
  assert (length (filter P xs) <= length (filter Q xs)) as Hle.
  { apply filter_length_le. intros x Hx. apply Himp. by right. }
  apply elem_of_cons in Hz as [->|Hz].
  - rewrite decide_False by done. rewrite decide_True by done. simpl. lia.
  - assert (length (filter P xs) < length (filter Q xs)) as Hlt.
    { apply IH; try done. intros x Hx. apply Himp. by right. }
    destruct (decide (P y)) as [Hy|Hy]; destruct (decide (Q y)) as [Hy'|Hy'];
      simpl; try lia.
    exfalso. apply Hy', Himp; [by left | done].
Qed.

Section Termination.

Context {Source : Type} `{Rand Source}.
Implicit Types (l st : List Source) (k v : bytes) (a b ins : skipNode).

Lemma rank_lt_length l a : rank l a < S (length (nodes l)).
Proof. unfold rank. pose proof (length_filter (fun b => (cmpKeys (cmp l) (key a) (key b) < 0)%Z) (nodes l)). lia. Qed.

(** The rank falls from a node to a node above it. *)
Lemma rank_above l a i b :
  total_order (cmp l) -> nodes l !! i = Some b -> key b <> None ->
  (cmp l (key a) (key b) < 0)%Z -> rank l b < rank l a.
Proof.
  intros Hc Eb Hkb Hlt. unfold rank.
  apply (filter_length_lt _ _ _ b).
  - intros x _. unfold cmpKeys. destruct (key x) as [kx|]; [|done].
    intros Hx. order Hc.
  - eapply list_elem_of_lookup_2; eauto.
  - by rewrite cmpKeys_some.
  - rewrite cmpKeys_some by done. rewrite (cmp_refl _ Hc). lia.
Qed.

Lemma returns_bind {A B} (m : M Source A) (f : A -> M Source B) l x l' :
  m l = Ok x l' -> returns (f x l') -> returns (bind m f l).
Proof. unfold bind. by intros ->. Qed.

(** On an ordered list the walk along a level ends. *)
Lemma putSeek_returns l k h fuel prevNd nextp currNd i :
  wf l -> ordered l -> h < maxHeight ->
  nodes l !! i = Some currNd -> (i <> 0 -> h <= height currNd) ->
  (key currNd = None /\ 0 < fuel) \/ rank l currNd < fuel ->
  returns (putSeek fuel h k prevNd nextp currNd l).
Proof.
  intros Hwf Ho Hh. pose proof (ord_total _ Ho) as Hc.
  revert prevNd nextp currNd i.
  induction fuel as [|fuel IH]; intros prevNd nextp currNd i Ec Hlev Hfuel; [lia|].
  cbn [putSeek]. unfold bind at 1, compareKeys, gets.
  destruct (Z.gtb_spec (cmpKeys (cmp l) k (key currNd)) 0) as [Hgt|Hle]; [|done].
  destruct (cmpKeys_nonneg (cmp l) k (key currNd)) as [Hk Ek]; [lia|].
  destruct Hfuel as [[? _]|Hrank]; [done|].
  pose proof (wf_nonzero l i currNd Hwf Ec Hk) as Hi.
  destruct (wf_lookup_next l _ currNd h Hwf Ec) as [b Eb].
  unfold bind, getNode. rewrite Eb.
  destruct (ord_next _ Ho h i currNd Hh (conj Hi Ec) (Hlev ltac:(lia))) as [F1 _].
  apply (IH _ _ _ (pget h (next currNd))); [done|..].
  - intros Hs. destruct (F1 Hs) as (sn & Es & Hhs & _). congruence.
  - destruct (decide (pget h (next currNd) = 0)) as [E0|Hs].
    + left. rewrite E0, (wf_sentinel _ Hwf) in Eb. inversion Eb; subst b.
      split; [done|].
      assert (0 < rank l currNd); [|lia].
      unfold rank. pose proof (wf_sentinel _ Hwf) as E.
      apply list_elem_of_lookup_2 in E.
      assert (sentinel ∈ filter (fun b => (cmpKeys (cmp l) (key currNd) (key b) < 0)%Z)
                (nodes l)) as E'.
      { apply list_elem_of_filter. split; [simpl; lia | done]. }
      destruct (filter _ _); [by apply elem_of_nil in E' | simpl; lia].
    + right. destruct (F1 Hs) as (sn & Es & _ & Ha).
      assert (sn = b) as -> by congruence. simpl in Ha.
      assert (rank l b < rank l currNd); [|lia].
      eapply rank_above; eauto. eapply wf_key; eauto. lia.
Qed.

Lemma sat_returns {A} (r : result Source A) (P : A -> List Source -> Prop) :
  returns r -> sat r P -> exists x l', r = Ok x l' /\ P x l'.
Proof. destruct r; simpl; [eauto | done..]. Qed.

Lemma putLevels_returns l k v n prevNd nextp bc :
  wf l -> ordered l -> n <= maxHeight -> trail l k (n - 1) prevNd nextp ->
  returns (putLevels n k v prevNd nextp bc l).
Proof.
  intros Hwf Ho. revert prevNd nextp bc.
  induction n as [|h IH]; intros prevNd nextp bc Hn Ht; [done|].
  replace (S h - 1) with h in Ht by lia.
  cbn [putLevels]. unfold bind at 1, getNode.
  destruct (trail_lookup l k h h _ _ Hwf Ht) as [currNd Ec]. rewrite Ec.
  unfold bind at 1, walkFuel, gets. unfold bind at 1.
  pose proof (putSeek_spec l k h (S (length (nodes l))) _ _ _ Hwf Hn Ht Ec) as Hs.
  pose proof (putSeek_returns l k h (S (length (nodes l))) prevNd nextp currNd _
                Hwf Ho Hn Ec) as Hr.
  destruct (sat_returns _ _ (Hr (fun _ => trail_level l k h _ _ _ Hwf Hn Ht Ec)
                               (or_intror (rank_lt_length l currNd))) Hs)
    as ([[prevNd' nextp'] currNd'] & l1 & -> & -> & Ht' & Ec' & Hle).
  unfold bind at 1, compareKeys, gets.
  destruct (_ =? _)%Z.
  - unfold bind, updateNode. simpl. rewrite (wf_id _ Hwf _ _ Ec').
    rewrite decide_True by (eapply lookup_lt_Some; eauto). done.
  - apply IH; [lia|]. eapply trail_down; [|exact Ht']. lia.
Qed.

Lemma getLevels_returns l k n prevNd nextp a0 :
  wf l -> ordered l -> n < maxHeight -> trail l k n prevNd nextp ->
  returns (getLevels (S n) k nextp a0 l).
Proof.
  intros Hwf Ho. revert prevNd nextp a0.
  induction n as [|h IH]; intros prevNd nextp a0 Hn Ht.
  - cbn [getLevels]. unfold bind at 1, getNode.
    destruct (trail_lookup l k 0 0 _ _ Hwf Ht) as [a Ea]. rewrite Ea.
    unfold bind at 1, walkFuel, gets. unfold bind at 1.
    rewrite (getSeek_putSeek l k 0 _ prevNd).
    pose proof (putSeek_returns l k 0 (S (length (nodes l))) prevNd nextp a _
                  Hwf Ho Hn Ea (fun _ => trail_level l k 0 _ _ _ Hwf Hn Ht Ea)
                  (or_intror (rank_lt_length l a))) as Hr.
    pose proof (putSeek_spec l k 0 (S (length (nodes l))) _ _ _ Hwf Hn Ht Ea) as Hs.
    destruct (sat_returns _ _ Hr Hs) as ([[prevNd' nextp'] a'] & l1 & -> & _). done.
  - cbn [getLevels]. unfold bind at 1, getNode.
    destruct (trail_lookup l k (S h) (S h) _ _ Hwf Ht) as [a Ea]. rewrite Ea.
    unfold bind at 1, walkFuel, gets. unfold bind at 1.
    rewrite (getSeek_putSeek l k (S h) _ prevNd).
    pose proof (putSeek_returns l k (S h) (S (length (nodes l))) prevNd nextp a _
                  Hwf Ho Hn Ea (fun _ => trail_level l k (S h) _ _ _ Hwf Hn Ht Ea)
                  (or_intror (rank_lt_length l a))) as Hr.
    pose proof (putSeek_spec l k (S h) (S (length (nodes l))) _ _ _ Hwf Hn Ht Ea) as Hs.
    destruct (sat_returns _ _ Hr Hs)
      as ([[prevNd' nextp'] a'] & l1 & -> & -> & Ht' & Ea' & Hle).
    apply (IH prevNd' nextp' a'); [lia|]. eapply trail_down; [|exact Ht']. lia.
Qed.

(** On an ordered list [Get] returns. *)
Lemma Get_returns l k : wf l -> ordered l -> returns (Get k l).
Proof.
  intros Hwf Ho. unfold Get. unfold bind at 1, gets.
  pose proof (getLevels_returns l k highest zeroNode (head l) zeroNode Hwf Ho) as Hr.
  pose proof (getLevels_spec l k highest zeroNode (head l) zeroNode Hwf) as Hs.
  destruct (sat_returns _ _ (Hr ltac:(unfold highest, maxHeight; lia) (trail_head _ _ _))
              (Hs ltac:(unfold highest, maxHeight; lia) (trail_head _ _ _)))
    as (a & l1 & E & -> & _).
  unfold bind at 1. rewrite E. unfold bind, compareKeys, gets.
  by destruct (_ =? _)%Z.
Qed.

(** On an ordered list with room left [Put] of a key returns. *)
Lemma Put_returns l k v :
  wf l -> ordered l -> k <> None ->
  (Z.of_nat (length (nodes l)) - 1 < maxCount)%Z ->
  returns (Put k v l).
Proof.
  intros Hwf Ho Hk Hcap. destruct k as [kb|]; [|done].
  unfold Put. unfold bind at 1. rewrite Full_eq.
  destruct (Z.geb_spec (Z.of_nat (length (nodes l)) - 1) maxCount) as [|_]; [lia|].
  unfold bind at 1, gets.
  pose proof (putLevels_returns l (Some kb) v (S highest) zeroNode (head l) zeroPointer
                Hwf Ho ltac:(unfold highest, maxHeight; lia) (trail_head _ _ _)) as Hr.
  pose proof (putLevels_spec l (Some kb) v (S highest) zeroNode (head l) zeroPointer
                Hwf ltac:(unfold highest, maxHeight; lia) (trail_head _ _ _)) as Hs.
  destruct (sat_returns _ _ Hr Hs) as ([bc|] & l1 & E & Hpost).
  - destruct Hpost as (-> & Hbc & _).
    unfold bind at 1. rewrite E.
    destruct (spliced_start l (Some kb) v bc Hwf) as (st & ins & Emk & Hsp).
    unfold bind at 1. rewrite Emk.
    pose proof (rollHeight_bound (src l)) as Hht.
    assert (height ins = (rollHeight (src l)).1) as Eht
      by apply (sp_new_height _ _ _ _ _ _ _ Hsp).
    assert (0 + S (height ins) <= maxHeight) as Hn by (rewrite Eht; lia).
    assert (forall h, h < maxHeight -> pget h bc < length (nodes l)) as Hlt.
    { intros h Hh. eapply crumb_lt; [done|]. apply Hbc. exact Hh. }
    destruct (putSplice_spec l (Some kb) v bc (S (height ins)) 0 st ins Hwf Hsp Hn Hlt)
      as (st' & ins' & Eloop & Hsp').
    unfold bind. rewrite Eloop. unfold updateNode.
    rewrite (sp_new_id _ _ _ _ _ _ _ Hsp'), (sp_len _ _ _ _ _ _ _ Hsp').
    rewrite decide_True by lia. done.
  - unfold bind. rewrite E. done.
Qed.

Lemma ordered_new c : total_order c -> ordered (NewSkipList c : List Source).
Proof.
  intros Hc.
  assert (forall j b, 0 < j -> nodes (NewSkipList c : List Source) !! j = Some b -> False)
    as Hnone.
  { intros j b Hj [-> _]%list_lookup_singleton_Some. lia. }
  split.
  - done.
  - intros i j a b [Hi Ea]. destruct (Hnone _ _ Hi Ea).
  - intros h Hh. cbn [head NewSkipList]. rewrite pget_zero. split; [done|].
    intros j b Hj Eb. destruct (Hnone _ _ Hj Eb).
  - intros h i a Hh [Hi Ea]. destruct (Hnone _ _ Hi Ea).
Qed.

(** The invariants of the reachable states. *)
Lemma reachable_ordered c l : total_order c -> reachable c l -> ordered l.
Proof.
  intros Hc. induction 1 as [|l k v l' Hr IH E|l k l' Hr IH E].
  - by apply ordered_new.
  - destruct (reachable_wf _ _ Hr) as [Hwf _]. by eapply Put_ordered.
  - destruct (reachable_wf _ _ Hr) as [Hwf _]. apply Get_state in E; [|done]. by subst.
Qed.

End Termination.

(** ** What [Get] and [Put] compute *)

Section Functional.

Context {Source : Type} `{Rand Source}.
Implicit Types (l st : List Source) (k v : bytes) (a b ins : skipNode).

(** [Get] finds the node that stores the key, if there is one. *)
Lemma Get_cases l k :
  wf l -> ordered l ->
  (exists i a, realAt l i a /\ cmp l k (key a) = 0%Z /\ Get k l = Ok (val a, true) l) \/
  (absent l k /\ Get k l = Ok (None, false) l).
Proof.
  intros Hwf Ho. pose proof (ord_total _ Ho) as Hc.
  destruct (sat_returns _ _ (Get_returns l k Hwf Ho) (Get_spec l k Hwf))
    as (r & l' & E & -> & prevNd & nextp & a & Ht & Ea & Hle & ->).
  destruct (Z.eqb_spec (cmpKeys (cmp l) k (key a)) 0) as [E0|Hne].
  - left. destruct (cmpKeys_nonneg (cmp l) k (key a)) as [Hk Ek]; [lia|].
    exists (pget 0 nextp), a. split; [split; [|done]|split; [lia|done]].
    eapply wf_nonzero; eauto.
  - right. split; [|done].
    apply (crumb_absent l k (id prevNd) Hwf Ho).
    econstructor; eauto. lia.
Qed.

Lemma Get_found l k i a :
  wf l -> ordered l -> realAt l i a -> cmp l k (key a) = 0%Z ->
  Get k l = Ok (val a, true) l.
Proof.
  intros Hwf Ho Hr E0. pose proof (ord_total _ Ho) as Hc.
  destruct (Get_cases l k Hwf Ho) as [(j & b & Hrb & Eb & ->)|[Habs _]].
  - assert (j = i) as -> by (apply (ord_distinct _ Ho j i b a); [done..|order Hc]).
    assert (b = a) as -> by (destruct Hr, Hrb; congruence). done.
  - by destruct (Habs i a Hr).
Qed.

Lemma Get_absent l k :
  wf l -> ordered l -> absent l k -> Get k l = Ok (None, false) l.
Proof.
  intros Hwf Ho Habs.
  destruct (Get_cases l k Hwf Ho) as [(j & b & Hrb & Eb & _)|[_ ->]]; [|done].
  by destruct (Habs j b Hrb).
Qed.

(** [Put] updates the node that stores the key, if there is one, and
    splices in a new node if not. *)
Lemma Put_cases l k v :
  wf l -> ordered l -> k <> None ->
  (Z.of_nat (length (nodes l)) - 1 < maxCount)%Z ->
  (exists i a, realAt l i a /\ cmp l k (key a) = 0%Z /\ Put k v l = Ok tt (updated l i a v)) \/
  (exists l' bc ins, absent l k /\ Put k v l = Ok tt l' /\
     (forall h, h < maxHeight -> crumb l k h (pget h bc)) /\
     spliced l k v bc (S (rollHeight (src l)).1) l' ins /\
     nodes l' !! length (nodes l) = Some ins).
Proof.
  intros Hwf Ho Hk Hcap.
  destruct (sat_returns _ _ (Put_returns l k v Hwf Ho Hk Hcap) (Put_spec l k v Hwf Hk Hcap))
    as ([] & l' & E & [(i & a & Hr & E0 & ->)|(bc & ins & Hbc & Hsp & Eins)]).
  - left. eauto.
  - right. exists l', bc, ins. split; [|done].
    apply (crumb_absent l k (pget 0 bc) Hwf Ho). apply Hbc. unfold maxHeight. lia.
Qed.

(** A call of [Put] that returns had a key and room. *)
Lemma Put_ok_inv l k v l' :
  Put k v l = Ok tt l' -> k <> None /\ (Z.of_nat (length (nodes l)) - 1 < maxCount)%Z.
Proof.
  intros E. destruct k as [kb|]; [|done]. split; [done|].
  destruct (Z.geb_spec (Z.of_nat (length (nodes l)) - 1) maxCount) as [Hge|Hlt]; [|done].
  rewrite Put_full in E by (by apply Z.geb_le). done.
Qed.

Lemma spliced_fmap {B} (f : skipNode -> B) l0 k v bc d l' ins :
  (forall a a', id a' = id a -> key a' = key a -> val a' = val a ->
     height a' = height a -> f a' = f a) ->
  spliced l0 k v bc d l' ins -> nodes l' !! length (nodes l0) = Some ins ->
  f <$> nodes l' = (f <$> nodes l0) ++ [f ins].
Proof.
  intros Hf Hsp Eins. apply list_eq. intros i.
  rewrite list_lookup_fmap.
  destruct (decide (i < length (nodes l0))) as [Hlt|Hge].
  - rewrite lookup_app_l by (by rewrite length_fmap).
    rewrite list_lookup_fmap.
    destruct (lookup_lt_is_Some_2 _ _ Hlt) as [a Ea].
    destruct (sp_old _ _ _ _ _ _ _ Hsp _ _ Ea) as (a' & Ea' & ? & ? & ? & ? & _).
    rewrite Ea, Ea'. simpl. f_equal. by apply Hf.
  - destruct (decide (i = length (nodes l0))) as [->|Hne].
    + rewrite Eins. simpl.
      rewrite lookup_app_r by (by rewrite length_fmap).
      rewrite length_fmap, Nat.sub_diag. done.
    + rewrite (lookup_ge_None_2 (nodes l')) by (rewrite (sp_len _ _ _ _ _ _ _ Hsp); lia).
      symmetry. apply lookup_ge_None_2. rewrite length_app, length_fmap. simpl. lia.
Qed.

Lemma updated_fmap {B} (f : skipNode -> B) l i a v :
  nodes l !! i = Some a -> f (setVal v a) = f a ->
  f <$> nodes (updated l i a v) = f <$> nodes l.
Proof.
  intros Ea Ef. unfold updated. cbn [nodes].
  rewrite list_fmap_insert, Ef. apply list_insert_id.
  by rewrite list_lookup_fmap, Ea.
Qed.

Lemma tail_app_singleton {A} (xs : list A) (x : A) :
  0 < length xs -> tail (xs ++ [x]) = tail xs ++ [x].
Proof. destruct xs; simpl; [lia | done]. Qed.

Lemma realAt_storedKeys l i a : realAt l i a -> key a ∈ storedKeys l.
Proof.
  intros [Hi Ea]. unfold storedKeys. apply list_elem_of_fmap. exists a. split; [done|].
  destruct i as [|i]; [lia|]. destruct (nodes l) as [|x xs]; [done|].
  simpl in *. eapply list_elem_of_lookup_2; eauto.
Qed.

Lemma storedKeys_realAt l k' : k' ∈ storedKeys l -> exists i a, realAt l i a /\ key a = k'.
Proof.
  unfold storedKeys. intros (a & -> & Ha)%list_elem_of_fmap.
  apply list_elem_of_lookup in Ha as [i Ei].
  exists (S i), a. split; [|done]. split; [lia|].
  destruct (nodes l) as [|x xs]; [done|]. done.
Qed.

(** The stored keys after a call of [Put] that returns. *)
Lemma Put_storedKeys l k v l' :
  wf l -> ordered l -> Put k v l = Ok tt l' ->
  (storedKeys l' = storedKeys l /\ length (nodes l') = length (nodes l) /\
   exists k', k' ∈ storedKeys l /\ cmp l k k' = 0%Z) \/
  (storedKeys l' = storedKeys l ++ [k] /\ length (nodes l') = S (length (nodes l)) /\
   absent l k).
Proof.
  intros Hwf Ho E. destruct (Put_ok_inv _ _ _ _ E) as [Hk Hcap].
  pose proof (lookup_lt_Some _ _ _ (wf_sentinel _ Hwf)) as Hpos.
  destruct (Put_cases l k v Hwf Ho Hk Hcap)
    as [(i & a & Hr & E0 & E')|(l1 & bc & ins & Habs & E' & _ & Hsp & Eins)];
    rewrite E' in E; inversion E; subst l'.
  - left. split; [|split].
    + unfold storedKeys. rewrite !fmap_tail. f_equal.
      by apply updated_fmap; [apply Hr|].
    + unfold updated. cbn [nodes]. apply length_insert.
    + exists (key a). split; [by eapply realAt_storedKeys|done].
  - right. split; [|split; [apply (sp_len _ _ _ _ _ _ _ Hsp) | done]].
    unfold storedKeys. rewrite !fmap_tail.
    rewrite (spliced_fmap key _ _ _ _ _ _ _ ltac:(done) Hsp Eins).
    rewrite tail_app_singleton by (by rewrite length_fmap).
    by rewrite (sp_new_key _ _ _ _ _ _ _ Hsp).
Qed.

End Functional.

(** ** The history of the calls *)

Section History.

Context {Source : Type} `{Rand Source}.
Implicit Types (l st : List Source) (k v : bytes) (a b ins : skipNode).

Lemma puts_cons k v ops l :
  puts ((k, v) :: ops) l =
  match Put k v l with
  | Ok _ l' => puts ops l'
  | Panic msg l' => Panic msg l'
  | Diverge => Diverge
  end.
Proof. reflexivity. Qed.

Lemma puts_cons_inv k v ops l l' :
  puts ((k, v) :: ops) l = Ok tt l' ->
  exists l1, Put k v l = Ok tt l1 /\ puts ops l1 = Ok tt l'.
Proof.
  rewrite puts_cons. destruct (Put k v l) as [[] l1| |]; [|done..]. eauto.
Qed.

Lemma Put_reachable c l k v l' :
  reachable c l -> Put k v l = Ok tt l' -> reachable c l'.
Proof. intros Hr E. apply (reach_put c l k v l' Hr). by rewrite E. Qed.

Lemma puts_reachable c ops l l' :
  reachable c l -> puts ops l = Ok tt l' -> reachable c l'.
Proof.
  revert l. induction ops as [|[k v] ops IH]; intros l Hr E.
  - by inversion E; subst.
  - apply puts_cons_inv in E as (l1 & E1 & E2).
    apply (IH l1); [|done]. by eapply Put_reachable.
Qed.

Lemma getVal_Get l k :
  wf l -> ordered l ->
  Get k l = Ok (match getVal l k with Some v => (v, true) | None => (None, false) end) l.
Proof.
  intros Hwf Ho. unfold getVal.
  destruct (Get_cases l k Hwf Ho) as [(i & a & _ & _ & ->)|[_ ->]]; done.
Qed.

(** What [Get] finds after one more call of [Put]. *)
Lemma Put_getVal l k0 v0 l1 k :
  wf l -> ordered l -> Put k0 v0 l = Ok tt l1 ->
  getVal l1 k = if (cmp l k k0 =? 0)%Z then Some v0 else getVal l k.
Proof.
  intros Hwf Ho E. pose proof (ord_total _ Ho) as Hc.
  assert (stateOf (Put k0 v0 l) = Some l1) as Est by (by rewrite E).
  pose proof (Put_wf _ _ _ _ Hwf Est) as Hwf1.
  pose proof (Put_ordered _ _ _ _ Hwf Ho Est) as Ho1.
  pose proof (Put_cmp _ _ _ _ Hwf Est) as Ecmp.
  destruct (Put_ok_inv _ _ _ _ E) as [Hk Hcap].
  destruct (Put_cases l k0 v0 Hwf Ho Hk Hcap)
    as [(i & a & Hr & E0 & E')|(l' & bc & ins & Habs & E' & _ & Hsp & Eins)];
    rewrite E' in E; inversion E; subst l1; clear E.
  - (* an update in place *)
    assert (realAt (updated l i a v0) i (setVal v0 a)) as Hr1.
    { destruct Hr as [Hi Ea]. split; [done|]. unfold updated. cbn [nodes].
      apply list_lookup_insert_eq. eapply lookup_lt_Some; eauto. }
    destruct (Z.eqb_spec (cmp l k k0) 0) as [Ek|Hne].
    + unfold getVal. rewrite (Get_found _ k i (setVal v0 a) Hwf1 Ho1 Hr1); [done|].
      rewrite Ecmp. simpl. order Hc.
    + destruct (Get_cases l k Hwf Ho) as [(j & b & Hrb & Eb & Eg)|[Habs Eg]].
      * assert (j <> i) as Hji.
        { intros ->. assert (b = a) as -> by (destruct Hr, Hrb; congruence). order Hc. }
        assert (realAt (updated l i a v0) j b) as Hrb1.
        { destruct Hrb as [Hj Eb']. split; [done|]. unfold updated. cbn [nodes].
          by rewrite list_lookup_insert_ne. }
        unfold getVal. rewrite Eg.
        rewrite (Get_found _ k j b Hwf1 Ho1 Hrb1); [done|]. by rewrite Ecmp.
      * unfold getVal. rewrite Eg. rewrite Get_absent; [done..|].
        intros j x [Hj Ex]. rewrite Ecmp.
        destruct (updated_lookup _ _ _ _ _ _ (proj2 Hr) Ex) as (y & Ey & _ & -> & _).
        by apply (Habs j y).
  - (* a new node *)
    assert (realAt l' (length (nodes l)) ins) as Hr1.
    { split; [|done]. pose proof (lookup_lt_Some _ _ _ (wf_sentinel _ Hwf)). lia. }
    destruct (Z.eqb_spec (cmp l k k0) 0) as [Ek|Hne].
    + unfold getVal. rewrite (Get_found _ k _ ins Hwf1 Ho1 Hr1).
      * by rewrite (sp_new_val _ _ _ _ _ _ _ Hsp).
      * by rewrite Ecmp, (sp_new_key _ _ _ _ _ _ _ Hsp).
    + destruct (Get_cases l k Hwf Ho) as [(j & b & Hrb & Eb & Eg)|[Habsk Eg]].
      * destruct (sp_old _ _ _ _ _ _ _ Hsp _ _ (proj2 Hrb)) as (b' & Eb' & _ & Ekb & Evb & _).
        unfold getVal. rewrite Eg.
        rewrite (Get_found _ k j b' Hwf1 Ho1); [by rewrite Evb | by split; [apply Hrb|] |].
        by rewrite Ecmp, Ekb.
      * unfold getVal. rewrite Eg. rewrite Get_absent; [done..|].
        intros j x [Hj Ex]. rewrite Ecmp.
        destruct (spliced_lookup _ _ _ _ _ _ _ _ _ Hsp Eins Ex)
          as [[-> ->]|(y & Ey & _ & -> & _)].
        -- by rewrite (sp_new_key _ _ _ _ _ _ _ Hsp).
        -- by apply (Habsk j y).
Qed.

Lemma puts_invariants ops l l' :
  wf l -> ordered l -> puts ops l = Ok tt l' -> wf l' /\ ordered l' /\ cmp l' = cmp l.
Proof.
  revert l. induction ops as [|[k v] ops IH]; intros l Hwf Ho E.
  - by inversion E; subst.
  - apply puts_cons_inv in E as (l1 & E1 & E2).
    assert (stateOf (Put k v l) = Some l1) as Est by (by rewrite E1).
    destruct (IH l1) as (? & ? & Ec); [by eapply Put_wf | by eapply Put_ordered | done |].
    split; [done|]. split; [done|]. rewrite Ec. by eapply Put_cmp.
Qed.

(** What [Get] finds after the calls of [ops]. *)
Lemma puts_getVal ops l l' k :
  wf l -> ordered l -> puts ops l = Ok tt l' ->
  getVal l' k = match lastPut (cmp l) ops k with Some v => Some v | None => getVal l k end.
Proof.
  revert l. induction ops as [|[k0 v0] ops IH]; intros l Hwf Ho E.
  - by inversion E; subst.
  - apply puts_cons_inv in E as (l1 & E1 & E2).
    assert (stateOf (Put k0 v0 l) = Some l1) as Est by (by rewrite E1).
    rewrite (IH l1); [|by eapply Put_wf | by eapply Put_ordered | done].
    rewrite (Put_cmp _ _ _ _ Hwf Est). cbn [lastPut].
    destruct (lastPut (cmp l) ops k); [done|].
    rewrite (Put_getVal l k0 v0 l1 k Hwf Ho E1).
    by destruct (_ =? _)%Z.
Qed.

Lemma lastPut_none c ops k :
  (forall k' v', (k', v') ∈ ops -> c k k' <> 0%Z) -> lastPut c ops k = None.
Proof.
  induction ops as [|[k0 v0] ops IH]; intros Hno; [done|].
  cbn [lastPut]. rewrite IH by (intros k' v' Hin; apply (Hno k' v'); by right).
  destruct (Z.eqb_spec (c k k0) 0) as [E|_]; [|done].
  destruct (Hno k0 v0); [by left | done].
Qed.

Lemma lastPut_last c ops1 k v ops2 :
  total_order c ->
  (forall k' v', (k', v') ∈ ops2 -> c k k' <> 0%Z) ->
  lastPut c (ops1 ++ (k, v) :: ops2) k = Some v.
Proof.
  intros Hc Hno. induction ops1 as [|[k0 v0] ops1 IH].
  - cbn [app lastPut]. rewrite (lastPut_none c ops2 k Hno).
    by rewrite (cmp_refl c Hc).
  - cbn [app lastPut]. by rewrite IH.
Qed.

End History.

(** ** The iteration *)

Section Iteration.

Context {Source : Type} `{Rand Source}.
Implicit Types (l st : List Source) (k v : bytes) (a b ins : skipNode).

(** The loop of [IterAll] from a node of level 0 on: it records the nodes
    from there in ascending order, and misses none. *)
Lemma iterLoop_spec l fuel s a b acc :
  wf l -> ordered l ->
  nodes l !! s = Some a -> nodes l !! pget 0 (next a) = Some b ->
  key a = None \/ rank l a < fuel ->
  exists out,
    iterLoop fuel record (key a) (val a) {| curr := b |} acc l = Ok (acc ++ out) l /\
    StronglySorted (fun x y => (cmp l x y < 0)%Z) out.*1 /\
    (forall p, p ∈ out ->
       (cmp l (key a) p.1 <= 0)%Z /\ exists j x, realAt l j x /\ p = (key x, val x)) /\
    (forall j x, realAt l j x -> s <> 0 -> (cmp l (key a) (key x) <= 0)%Z ->
       (key x, val x) ∈ out) /\
    (s = 0 -> out = []).
Proof.
  intros Hwf Ho. pose proof (ord_total _ Ho) as Hc.
  revert s a b acc.
  induction fuel as [|fuel IH]; intros s a b acc Ea Eb Hfuel.
  - (* no fuel: the node is the sentinel *)
    destruct Hfuel as [Hk|?]; [|lia]. exists []. cbn [iterLoop]. rewrite Hk.
    rewrite app_nil_r. split; [done|]. split; [constructor|].
    split; [by intros p ?%elem_of_nil|]. split; [|done].
    intros j x _ Hs. destruct (wf_key _ Hwf _ _ Ea); [lia|done].
  - destruct (key a) as [ka|] eqn:Hka.
    2:{ exists []. cbn [iterLoop]. rewrite app_nil_r.
        split; [done|]. split; [constructor|].
        split; [by intros p ?%elem_of_nil|]. split; [|done].
        intros j x _ Hs. destruct (wf_key _ Hwf _ _ Ea); [lia|done]. }
    assert (0 < s) as Hs by (eapply wf_nonzero; eauto; congruence).
    destruct Hfuel as [?|Hrank]; [done|].
    destruct (wf_lookup_next l _ b 0 Hwf Eb) as [b2 Eb2].
    pose proof (ord_next _ Ho 0 s a ltac:(unfold maxHeight; lia) (conj Hs Ea) ltac:(lia))
      as [F1 F2].
    rewrite Hka in F1, F2.
    assert (pget 0 (next a) <> 0 -> (cmp l (Some ka) (key b) < 0)%Z /\ key b <> None) as Hb.
    { intros Hn. destruct (F1 Hn) as (sn & Es & _ & Ha).
      assert (sn = b) as -> by congruence. split; [done|].
      eapply wf_key; eauto. lia. }
    destruct (IH (pget 0 (next a)) b b2 (acc ++ [(Some ka, val a)]) Eb Eb2)
      as (out & Eloop & Hsorted & Hin & Hall & Hnil).
    { destruct (decide (pget 0 (next a) = 0)) as [E0|Hn].
      - left. rewrite E0, (wf_sentinel _ Hwf) in Eb. by inversion Eb.
      - right. destruct (Hb Hn) as [Hlt Hkb].
        assert (rank l b < rank l a); [|lia].
        eapply rank_above; eauto. by rewrite Hka. }
    exists ((Some ka, val a) :: out).
    split; [|split; [|split; [|split]]].
    + cbn [iterLoop]. unfold bind at 1, Next, getNode. cbn [curr].
      unfold bind at 1. rewrite Eb2. unfold ret at 1.
      change (record (Some ka) (val a) acc) with (acc ++ [(Some ka, val a)]).
      rewrite Eloop. by rewrite <- app_assoc.
    + cbn [fmap list_fmap fst]. apply StronglySorted_cons. split; [|done].
      apply Forall_forall. intros y (p & -> & Hp)%list_elem_of_fmap.
      destruct (Hin p Hp) as [Hle _].
      destruct (decide (pget 0 (next a) = 0)) as [E0|Hn].
      * rewrite (Hnil E0) in Hp. by apply elem_of_nil in Hp.
      * destruct (Hb Hn) as [Hlt _]. order Hc.
    + intros p [->|Hp]%elem_of_cons.
      * split; [simpl; rewrite (cmp_refl _ Hc); lia|].
        exists s, a. rewrite Hka. done.
      * destruct (Hin p Hp) as [Hle Hx]. split; [|done].
        destruct (decide (pget 0 (next a) = 0)) as [E0|Hn].
        -- rewrite (Hnil E0) in Hp. by apply elem_of_nil in Hp.
        -- destruct (Hb Hn) as [Hlt _]. order Hc.
    + intros j x Hrx _ Hle.
      destruct (Z.eq_dec (cmp l (Some ka) (key x)) 0%Z) as [E0|Hne].
      * assert (s = j) as ->.
        { apply (ord_distinct _ Ho s j a x); [done | done | by rewrite Hka]. }
        assert (x = a) as -> by (destruct Hrx; congruence).
        rewrite Hka. by left.
      * right. destruct Hrx as [Hj Ex].
        destruct (F2 j x Hj Ex ltac:(lia)) as (sn & Hn & Es & Hle'); [simpl; lia|].
        assert (sn = b) as -> by congruence.
        by apply (Hall j x).
    + lia.
Qed.

Lemma StronglySorted_irrefl_NoDup {A} (R : A -> A -> Prop) (xs : list A) :
  (forall x, ~ R x x) -> StronglySorted R xs -> NoDup xs.
Proof.
  intros Hirr. induction 1 as [|x xs Hs IH Hall]; constructor; [|done].
  intros Hin. rewrite Forall_forall in Hall. by apply (Hirr x), Hall.
Qed.

Lemma storedKeys_NoDup l : wf l -> ordered l -> NoDup (storedKeys l).
Proof.
  intros Hwf Ho. pose proof (ord_total _ Ho) as Hc.
  apply NoDup_alt. intros i j x. unfold storedKeys. rewrite !list_lookup_fmap.
  destruct (tail (nodes l) !! i) as [a|] eqn:Ea; [|done].
  destruct (tail (nodes l) !! j) as [b|] eqn:Eb; [|done].
  simpl. intros [= <-] [= E].
  assert (S i = S j); [|lia].
  apply (ord_distinct _ Ho (S i) (S j) a b).
  - split; [lia|]. destruct (nodes l); done.
  - split; [lia|]. destruct (nodes l); done.
  - rewrite E. apply (cmp_refl _ Hc).
Qed.

(** [IterAll] records every stored node once, in ascending order of the
    keys. *)
Lemma IterAll_spec l :
  wf l -> ordered l ->
  exists kvs,
    IterAll record [] l = Ok kvs l /\
    StronglySorted (fun x y => (cmp l x y < 0)%Z) kvs.*1 /\
    NoDup kvs.*1 /\
    kvs.*1 ≡ₚ storedKeys l /\
    (forall k v, (k, v) ∈ kvs <-> exists i a, realAt l i a /\ k = key a /\ v = val a).
Proof.
  intros Hwf Ho. pose proof (ord_total _ Ho) as Hc.
  destruct (wf_lookup_head l 0 Hwf) as [a Ea].
  destruct (wf_lookup_next l _ a 0 Hwf Ea) as [b Eb].
  destruct (iterLoop_spec l (S (length (nodes l))) _ a b [] Hwf Ho Ea Eb)
    as (out & Eloop & Hsorted & Hin & Hall & Hnil).
  { right. apply rank_lt_length. }
  assert (forall i x, realAt l i x -> (key x, val x) ∈ out) as Hall'.
  { intros i x Hr. destruct (ord_head _ Ho 0) as [_ F2]; [unfold maxHeight; lia|].
    destruct (F2 i x (proj1 Hr) (proj2 Hr)) as (sn & Hn & Es & Hle); [lia | done |].
    assert (sn = a) as -> by congruence. by apply (Hall i x). }
  assert (NoDup out.*1) as Hnd.
  { eapply StronglySorted_irrefl_NoDup; [|exact Hsorted].
    intros x. simpl. rewrite (cmp_refl _ Hc). lia. }
  exists out. split; [|split; [done|split; [done|split]]].
  - unfold IterAll. unfold bind at 1, Iter. unfold bind at 1, firstNode.
    unfold bind at 1, gets. unfold getNode at 1. rewrite Ea.
    unfold ret at 1. unfold bind at 1, Next. cbn [curr]. unfold bind at 1, getNode.
    rewrite Eb. unfold ret at 1. unfold bind, walkFuel, gets. exact Eloop.
  - apply NoDup_Permutation; [done | by apply storedKeys_NoDup |].
    intros x. split.
    + intros (p & -> & Hp)%list_elem_of_fmap.
      destruct (Hin p Hp) as [_ (j & y & Hr & ->)]. by eapply realAt_storedKeys.
    + intros (i & y & Hr & <-)%storedKeys_realAt.
      apply list_elem_of_fmap. exists (key y, val y). split; [done|]. by eapply Hall'.
  - intros k v. split.
    + intros Hp. destruct (Hin _ Hp) as [_ (j & y & Hr & [= -> ->])]. eauto.
    + intros (i & y & Hr & -> & ->). by eapply Hall'.
Qed.

(** The keys stored after the calls of [ops]. *)
Lemma puts_storedKeys ops l l' :
  wf l -> ordered l -> puts ops l = Ok tt l' ->
  (forall k, k ∈ ops.*1 -> exists k', k' ∈ storedKeys l' /\ cmp l k k' = 0%Z) /\
  (forall k', k' ∈ storedKeys l' -> k' ∈ storedKeys l \/ k' ∈ ops.*1) /\
  (forall k k', k' ∈ storedKeys l -> cmp l k k' = 0%Z ->
     exists k'', k'' ∈ storedKeys l' /\ cmp l k k'' = 0%Z).
Proof.
  revert l. induction ops as [|[k0 v0] ops IH]; intros l Hwf Ho E.
  - inversion E; subst. split; [by intros k ?%elem_of_nil|]. split; [by left|eauto].
  - apply puts_cons_inv in E as (l1 & E1 & E2).
    pose proof (ord_total _ Ho) as Hc.
    assert (stateOf (Put k0 v0 l) = Some l1) as Est by (by rewrite E1).
    pose proof (Put_cmp _ _ _ _ Hwf Est) as Ecmp.
    destruct (IH l1) as (IH1 & IH2 & IH3); [by eapply Put_wf | by eapply Put_ordered | done |].
    rewrite Ecmp in IH1, IH3.
    assert (forall k k', k' ∈ storedKeys l -> cmp l k k' = 0%Z ->
              exists k'', k'' ∈ storedKeys l' /\ cmp l k k'' = 0%Z) as Hkeep.
    { intros k k' Hin E0. apply (IH3 k k'); [|done].
      destruct (Put_storedKeys l k0 v0 l1 Hwf Ho E1) as [(-> & _)|(-> & _)]; [done|].
      apply elem_of_app. by left. }
    split; [|split; [|done]].
    + intros k [->|Hin]%elem_of_cons.
      * destruct (Put_storedKeys l k0 v0 l1 Hwf Ho E1)
          as [(_ & _ & k' & Hk' & E0)|(Es & _)].
        -- by apply (Hkeep k0 k').
        -- apply (IH3 k0 k0); [rewrite Es; apply elem_of_app; right; by left|].
           apply (cmp_refl _ Hc).
      * by apply IH1.
    + intros k' Hin. destruct (IH2 k' Hin) as [Hin1|Hin1]; [|right; by right].
      destruct (Put_storedKeys l k0 v0 l1 Hwf Ho E1) as [(Es & _)|(Es & _)];
        rewrite Es in Hin1; [by left|].
      apply elem_of_app in Hin1 as [?|Hk0%list_elem_of_singleton]; [by left|].
      subst k'. right. by left.
Qed.

End Iteration.

(** ** The height generator *)

Lemma land_ones_forallb (n : nat) (x : Z) :
  (Z.land x (Z.ones (Z.of_nat n)) =? Z.ones (Z.of_nat n))%Z =
  forallb (fun i => Z.testbit x (Z.of_nat i)) (seq 0 n).
Proof.
  apply eq_true_iff_eq. rewrite Z.eqb_eq, forallb_forall. split.
  - intros E i Hi%in_seq.
    assert (Z.testbit (Z.land x (Z.ones (Z.of_nat n))) (Z.of_nat i) = true) as Hb.
    { rewrite E. apply Z.ones_spec_low. lia. }
    rewrite Z.land_spec in Hb. by apply andb_true_iff in Hb as [? _].
  - intros Hall. apply Z.bits_inj'. intros i Hi.
    rewrite Z.land_spec. destruct (Z_lt_ge_dec i (Z.of_nat n)) as [Hlt|Hge].
    + rewrite Z.ones_spec_low by lia.
      rewrite <- (Z2Nat.id i Hi). rewrite Hall; [done|]. apply in_seq. lia.
    + rewrite Z.ones_spec_high by lia. apply andb_false_r.
Qed.

Lemma lowOnes_uint64 (n : nat) (x : Z) : n <= 64 -> lowOnes n (uint64 x) = lowOnes n x.
Proof.
  intros Hn. unfold lowOnes.
  assert (forall m, m <= n ->
            forallb (fun i => Z.testbit (uint64 x) (Z.of_nat i)) (seq 0 m) =
            forallb (fun i => Z.testbit x (Z.of_nat i)) (seq 0 m)) as Hm; [|by apply Hm].
  induction m as [|m IH]; intros Hle; [done|].
  rewrite seq_S, !forallb_app, IH by lia. simpl. f_equal. f_equal.
  unfold uint64. apply Z.mod_pow2_bits_low. lia.
Qed.

Section Claims.

Context {Source : Type} `{Rand Source}.
Implicit Types (l st : List Source) (k v : bytes) (a b ins : skipNode).

Lemma heightOfRoll_masks roll : heightOfRoll roll = heightOfDraw roll.
Proof.
  unfold heightOfRoll, heightOfDraw, patterns. cbn [rollPatterns].
  change pattern1 with (Z.ones (Z.of_nat 3)). change pattern2 with (Z.ones (Z.of_nat 6)).
  change pattern3 with (Z.ones (Z.of_nat 9)). change pattern4 with (Z.ones (Z.of_nat 12)).
  rewrite !land_ones_forallb.
  change (forallb (fun i => Z.testbit (uint64 roll) (Z.of_nat i)) (seq 0 3))
    with (lowOnes 3 (uint64 roll)).
  change (forallb (fun i => Z.testbit (uint64 roll) (Z.of_nat i)) (seq 0 6))
    with (lowOnes 6 (uint64 roll)).
  change (forallb (fun i => Z.testbit (uint64 roll) (Z.of_nat i)) (seq 0 9))
    with (lowOnes 9 (uint64 roll)).
  change (forallb (fun i => Z.testbit (uint64 roll) (Z.of_nat i)) (seq 0 12))
    with (lowOnes 12 (uint64 roll)).
  rewrite !lowOnes_uint64 by lia.
  destruct (lowOnes 3 roll); [|done]. destruct (lowOnes 6 roll); [|done].
  destruct (lowOnes 9 roll); [|done]. by destruct (lowOnes 12 roll).
Qed.

(** C5.  For every draw of the source, [rollHeight] returns a height in
    [0, maxHeight-1]: the number of the masks of 3, 6, 9 and 12 low bits,
    taken in this order, that the draw matches in full before the first
    one it does not.  It draws once. *)
Theorem rollHeight_masks (r : Source) :
  (rollHeight r).1 < maxHeight /\
  (rollHeight r).1 = heightOfDraw (Int63 r).1 /\
  (rollHeight r).2 = (Int63 r).2.
Proof.
  split; [apply rollHeight_bound|].
  unfold rollHeight. destruct (Int63 r) as [roll r']. cbn [fst snd].
  split; [apply heightOfRoll_masks | done].
Qed.

(** C7, as the code has it.  [Put] with an absent (nil) key is a fatal
    usage error that leaves the list as it was. *)
Theorem put_nil_key_panics (l : List Source) (v : bytes) :
  Put None v l = Panic "key must be non-nil" l.
Proof. reflexivity. Qed.

Lemma Count_eq l : Count l = Ok (Z.of_nat (length (nodes l)) - 1)%Z l.
Proof. reflexivity. Qed.

(** C8.  [Put] on a list whose capacity is exhausted panics and leaves
    the list as it was, so that no reachable list has more than 2^32 - 2
    stored nodes. *)
Theorem put_full_panics_count_bounded :
  (forall (l : List Source) k v,
     Full l = Ok true l ->
     Put k v l = Panic (match k with
                        | Some _ => "list has no capacity"
                        | None => "key must be non-nil"
                        end) l) /\
  (forall c (l : List Source),
     reachable c l -> exists n, Count l = Ok n l /\ (n <= 2 ^ 32 - 2)%Z).
Proof.
  split.
  - intros l k v E. rewrite Full_eq in E. apply Put_full. by inversion E.
  - intros c l [Hwf _]%reachable_wf. eexists. split; [apply Count_eq|].
    pose proof (wf_count _ Hwf) as Hc. unfold maxCount in Hc. lia.
Qed.

Lemma iterLoop_sat {A} (cb : bytes -> bytes -> A -> A) l fuel k v it x i :
  wf l -> nodes l !! i = Some (curr it) ->
  sat (iterLoop fuel cb k v it x l) (fun _ l' => l' = l).
Proof.
  intros Hwf. revert k v it x i.
  induction fuel as [|fuel IH]; intros k v it x i Ei; cbn [iterLoop];
    (destruct k as [kb|]; [|done]); [done|].
  destruct (wf_lookup_next l _ _ 0 Hwf Ei) as [b Eb].
  unfold bind at 1, Next, getNode. unfold bind at 1. rewrite Eb. unfold ret at 1.
  by apply (IH _ _ _ _ (pget 0 (next (curr it)))).
Qed.

Lemma IterAll_sat {A} (cb : bytes -> bytes -> A -> A) l x :
  wf l -> sat (IterAll cb x l) (fun _ l' => l' = l).
Proof.
  intros Hwf.
  destruct (wf_lookup_head l 0 Hwf) as [a Ea].
  destruct (wf_lookup_next l _ a 0 Hwf Ea) as [b Eb].
  unfold IterAll. unfold bind at 1, Iter. unfold bind at 1, firstNode.
  unfold bind at 1, gets. unfold getNode at 1. rewrite Ea.
  unfold ret at 1. unfold bind at 1, Next. cbn [curr]. unfold bind at 1, getNode.
  rewrite Eb. unfold ret at 1. unfold bind, walkFuel, gets.
  by apply (iterLoop_sat cb l _ _ _ _ _ (pget 0 (next a))).
Qed.

(** C10.  In every state reachable from [NewSkipList] by calls of [Put]
    and [Get], every entry of the head vector and every entry of the
    [next] array of every node is an index below the length of the arena,
    and no operation panics on an index out of range. *)
Theorem links_in_bounds (c : ValueCmp) (l : List Source) :
  reachable c l ->
  (forall h, pget h (head l) < length (nodes l)) /\
  (forall i a h, nodes l !! i = Some a -> pget h (next a) < length (nodes l)) /\
  (forall k v l', Put k v l <> Panic indexOutOfRange l') /\
  (forall k l', Get k l <> Panic indexOutOfRange l') /\
  (forall l', IterAll record [] l <> Panic indexOutOfRange l').
Proof.
  intros [Hwf _]%reachable_wf.
  split; [apply (wf_head _ Hwf)|]. split; [apply (wf_next _ Hwf)|].
  split; [|split].
  - intros k v l' E. destruct k as [kb|]; [|by rewrite Put_nil in E].
    destruct (Z.geb_spec (Z.of_nat (length (nodes l)) - 1) maxCount) as [Hge|Hlt].
    + rewrite Put_full in E by (by apply Z.geb_le). done.
    + pose proof (Put_spec l (Some kb) v Hwf ltac:(done) Hlt) as Hs.
      by rewrite E in Hs.
  - intros k l' E. pose proof (Get_spec l k Hwf) as Hs. by rewrite E in Hs.
  - intros l' E. pose proof (IterAll_sat record l [] Hwf) as Hs. by rewrite E in Hs.
Qed.

Lemma iterOf_lookup l it : wf l -> iterOf l it -> exists i, nodes l !! i = Some (curr it).
Proof.
  intros Hwf. induction 1 as [it E|it k v it' _ [i Ei] E].
  - unfold Iter, firstNode in E. unfold bind at 1 in E. unfold bind at 1, gets in E.
    unfold getNode in E.
    destruct (nodes l !! pget 0 (head l)) as [a|] eqn:Ea; [|done].
    inversion E; subst. eauto.
  - unfold Next, bind, getNode in E.
    destruct (nodes l !! pget 0 (next (curr it))) as [b|] eqn:Eb; [|done].
    inversion E; subst. eauto.
Qed.

Lemma nexts_sentinel l n :
  wf l -> nexts n {| curr := sentinel |} l = Ok (repeat (None, None) n) l.
Proof.
  intros Hwf. induction n as [|n IH]; [done|].
  cbn [nexts]. unfold bind at 1, Next. cbn [curr sentinel next key val].
  unfold bind at 1, getNode. rewrite pget_zero, (wf_sentinel _ Hwf).
  unfold ret at 1. unfold bind. rewrite IH. done.
Qed.

(** C9.  Once [Next] has returned a nil key, every later call of [Next]
    on the iterator returns [(nil, nil)] again and does not fail: the
    iterator stands on the sentinel, whose [next[0]] is the sentinel's own
    identifier. *)
Theorem next_after_end (c : ValueCmp) (l : List Source) (it : ListIter) v it' :
  reachable c l -> iterOf l it -> Next it l = Ok (None, v, it') l ->
  v = None /\ forall n, nexts n it' l = Ok (repeat (None, None) n) l.
Proof.
  intros [Hwf _]%reachable_wf Hit E.
  destruct (iterOf_lookup l it Hwf Hit) as [i Ei].
  unfold Next, bind, getNode in E.
  destruct (nodes l !! pget 0 (next (curr it))) as [b|] eqn:Eb; [|done].
  inversion E as [[Hk Hv Hit']]. clear E.
  assert (i = 0) as ->.
  { destruct i as [|i]; [done|]. destruct (wf_key _ Hwf _ _ Ei); [lia|done]. }
  rewrite (wf_sentinel _ Hwf) in Ei. inversion Ei as [Ec]. rewrite <- Ec in *.
  split; [done|]. intros n.
  cbn [sentinel next] in Eb. rewrite pget_zero, (wf_sentinel _ Hwf) in Eb.
  inversion Eb; subst b. by apply nexts_sentinel.
Qed.

End Claims.

Section ClaimsOrdered.

Context {Source : Type} `{Rand Source}.
Implicit Types (l st : List Source) (k v : bytes) (a b ins : skipNode).

Lemma absent_new c k : absent (NewSkipList c : List Source) k.
Proof. intros i a [Hi [-> _]%list_lookup_singleton_Some]. lia. Qed.

Lemma puts_new_invariants c ops l :
  total_order c -> puts ops (NewSkipList c) = Ok tt l ->
  wf l /\ ordered l /\ cmp l = c.
Proof.
  intros Hc E.
  apply (puts_invariants ops (NewSkipList c) l); [apply wf_new | by apply ordered_new | done].
Qed.

(** C1.  For every comparator that is a total order and every sequence of
    calls of [Put] on a list made by [NewSkipList], a full iteration
    afterwards yields the stored keys, each once, in strictly ascending
    order of the comparator: they are the keys that were put, up to the
    equality of the comparator. *)
Theorem iteration_ascending (c : ValueCmp) (ops : list (bytes * bytes)) (l : List Source) :
  total_order c -> puts ops (NewSkipList c) = Ok tt l ->
  exists kvs,
    IterAll record [] l = Ok kvs l /\
    StronglySorted (fun x y => (c x y < 0)%Z) kvs.*1 /\
    NoDup kvs.*1 /\
    kvs.*1 ≡ₚ storedKeys l /\
    (forall k, k ∈ ops.*1 -> exists k', k' ∈ kvs.*1 /\ c k k' = 0%Z) /\
    (forall k', k' ∈ kvs.*1 -> k' ∈ ops.*1).
Proof.
  intros Hc E. destruct (puts_new_invariants c ops l Hc E) as (Hwf & Ho & Ecmp).
  destruct (IterAll_spec l Hwf Ho) as (kvs & Eit & Hsorted & Hnd & Hperm & _).
  rewrite Ecmp in Hsorted.
  destruct (puts_storedKeys ops (NewSkipList c) l (wf_new c) (ordered_new c Hc) E)
    as (Hput & Hstored & _).
  exists kvs. do 4 (split; [done|]). split.
  - intros k Hk. destruct (Hput k Hk) as (k' & Hin & E0).
    exists k'. split; [by rewrite Hperm | done].
  - intros k' Hin. rewrite Hperm in Hin. destruct (Hstored k' Hin) as [Hn|?]; [|done].
    by apply elem_of_nil in Hn.
Qed.

(** C2.  For every comparator that is a total order and every sequence of
    calls of [Put]: after a call [Put(k, v)] that no later call
    overwrote, [Get(k)] returns [(v, true)]; and for a key that was never
    put, up to the equality of the comparator, [Get] returns
    [found = false]. *)
Theorem get_after_puts (c : ValueCmp) (ops : list (bytes * bytes)) (l : List Source) :
  total_order c -> puts ops (NewSkipList c) = Ok tt l ->
  (forall ops1 k v ops2,
     ops = ops1 ++ (k, v) :: ops2 ->
     (forall k' v', (k', v') ∈ ops2 -> c k k' <> 0%Z) ->
     Get k l = Ok (v, true) l) /\
  (forall k,
     (forall k' v', (k', v') ∈ ops -> c k k' <> 0%Z) ->
     exists v, Get k l = Ok (v, false) l).
Proof.
  intros Hc E. destruct (puts_new_invariants c ops l Hc E) as (Hwf & Ho & Ecmp).
  assert (forall k, getVal l k = lastPut c ops k) as Hval.
  { intros k.
    rewrite (puts_getVal ops (NewSkipList c) l k (wf_new c) (ordered_new c Hc) E).
    cbn [cmp NewSkipList]. destruct (lastPut c ops k); [done|].
    unfold getVal. by rewrite (Get_absent _ k (wf_new c) (ordered_new c Hc) (absent_new c k)). }
  split.
  - intros ops1 k v ops2 -> Hno.
    rewrite (getVal_Get l k Hwf Ho), Hval, (lastPut_last c ops1 k v ops2 Hc Hno). done.
  - intros k Hno. exists None.
    rewrite (getVal_Get l k Hwf Ho), Hval, (lastPut_none c ops k Hno). done.
Qed.

(** After a call of [Put] that returns the key is stored. *)
Lemma Put_present l k v l' :
  wf l -> ordered l -> Put k v l = Ok tt l' ->
  exists i a, realAt l' i a /\ cmp l' k (key a) = 0%Z.
Proof.
  intros Hwf Ho E. pose proof (ord_total _ Ho) as Hc.
  assert (stateOf (Put k v l) = Some l') as Est by (by rewrite E).
  pose proof (Put_wf _ _ _ _ Hwf Est) as Hwf'.
  pose proof (Put_ordered _ _ _ _ Hwf Ho Est) as Ho'.
  pose proof (Put_getVal l k v l' k Hwf Ho E) as Hv.
  rewrite (cmp_refl _ Hc) in Hv. simpl in Hv.
  destruct (Get_cases l' k Hwf' Ho') as [(i & a & Hr & E0 & _)|[_ Eg]]; [eauto|].
  unfold getVal in Hv. by rewrite Eg in Hv.
Qed.

(** C3.  After [Put(k, v1)], a call [Put(k, v2)] on a list that is not
    full updates the value in place: [Get(k)] returns [v2], [Count()] is
    what it was before the second call, and neither the head vector nor
    the identifier, key, height or links of any node change; no node is
    made. *)
Theorem put_twice (c : ValueCmp) (l l1 : List Source) k v1 v2 :
  total_order c -> reachable c l ->
  Put k v1 l = Ok tt l1 -> Full l1 = Ok false l1 ->
  exists l2,
    Put k v2 l1 = Ok tt l2 /\
    Get k l2 = Ok (v2, true) l2 /\
    (exists n, Count l1 = Ok n l1 /\ Count l2 = Ok n l2) /\
    head l2 = head l1 /\
    shape <$> nodes l2 = shape <$> nodes l1.
Proof.
  intros Hc Hr E1 Efull.
  destruct (reachable_wf _ _ Hr) as [Hwf Ecmp].
  assert (ordered l) as Ho by (by eapply reachable_ordered).
  assert (stateOf (Put k v1 l) = Some l1) as Est by (by rewrite E1).
  pose proof (Put_wf _ _ _ _ Hwf Est) as Hwf1.
  pose proof (Put_ordered _ _ _ _ Hwf Ho Est) as Ho1.
  pose proof (ord_total _ Ho1) as Hc1.
  destruct (Put_ok_inv _ _ _ _ E1) as [Hk _].
  destruct (Put_present l k v1 l1 Hwf Ho E1) as (i & a & Hra & E0).
  rewrite Full_eq in Efull. inversion Efull as [Hcap].
  rewrite Z.geb_leb in Hcap. apply Z.leb_gt in Hcap.
  destruct (Put_cases l1 k v2 Hwf1 Ho1 Hk ltac:(lia))
    as [(j & b & Hrb & Eb & E2)|(l' & bc & ins & Habs & _)]; [|by destruct (Habs i a Hra)].
  exists (updated l1 j b v2). split; [done|].
  assert (stateOf (Put k v2 l1) = Some (updated l1 j b v2)) as Est2 by (by rewrite E2).
  split; [|split; [|split]].
  - apply (Get_found _ k j (setVal v2 b)).
    + by eapply Put_wf.
    + by eapply Put_ordered.
    + destruct Hrb as [Hj Ej]. split; [done|]. unfold updated. cbn [nodes].
      apply list_lookup_insert_eq. eapply lookup_lt_Some; eauto.
    + done.
  - eexists. split; [apply Count_eq|]. rewrite Count_eq.
    unfold updated. cbn [nodes]. by rewrite length_insert.
  - done.
  - apply updated_fmap; [apply Hrb | done].
Qed.

(** C4.  A call of [Put] that returns adds exactly 1 to [Count()] when no
    stored key equals its key by the comparator, and nothing when one
    does. *)
Theorem count_after_put (c : ValueCmp) (l l' : List Source) k v :
  total_order c -> reachable c l -> Put k v l = Ok tt l' ->
  exists n,
    Count l = Ok n l /\
    ((exists k', k' ∈ storedKeys l /\ c k k' = 0%Z) -> Count l' = Ok n l') /\
    ((forall k', k' ∈ storedKeys l -> c k k' <> 0%Z) -> Count l' = Ok (n + 1)%Z l').
Proof.
  intros Hc Hr E.
  destruct (reachable_wf _ _ Hr) as [Hwf Ecmp].
  assert (ordered l) as Ho by (by eapply reachable_ordered).
  eexists. split; [apply Count_eq|]. rewrite Count_eq.
  destruct (Put_storedKeys l k v l' Hwf Ho E)
    as [(_ & Elen & k' & Hin & E0)|(_ & Elen & Habs)]; rewrite Elen.
  - split; [done|]. intros Hno. rewrite Ecmp in E0. by destruct (Hno k' Hin).
  - split; [|intros _; do 2 f_equal; lia].
    intros (k' & Hin & E0). apply storedKeys_realAt in Hin as (i & a & Hra & <-).
    rewrite <- Ecmp in E0. by destruct (Habs i a Hra).
Qed.

Lemma rollHeight_eq (r : Source) : rollHeight r = (heightOfRoll (Int63 r).1, (Int63 r).2).
Proof. unfold rollHeight, heightOfRoll. by destruct (Int63 r). Qed.

(** The heights after a call of [Put] that returns: a new node takes the
    next draw, an update takes none. *)
Lemma Put_heights l k v l' :
  wf l -> Put k v l = Ok tt l' ->
  (height <$> nodes l' = height <$> nodes l /\ src l' = src l) \/
  (height <$> nodes l' = (height <$> nodes l) ++ [heightOfRoll (Int63 (src l)).1] /\
   src l' = (Int63 (src l)).2).
Proof.
  intros Hwf E. destruct (Put_ok_inv _ _ _ _ E) as [Hk Hcap].
  pose proof (Put_spec l k v Hwf Hk Hcap) as Hs. rewrite E in Hs.
  destruct Hs as [(i & a & Hr & _ & ->)|(bc & ins & _ & Hsp & Eins)].
  - left. split; [|done]. apply updated_fmap; [apply Hr | done].
  - right. rewrite (spliced_fmap height _ _ _ _ _ _ _ ltac:(done) Hsp Eins).
    rewrite (sp_new_height _ _ _ _ _ _ _ Hsp), (sp_src _ _ _ _ _ _ _ Hsp).
    by rewrite rollHeight_eq.
Qed.

Lemma puts_heights ops l l' :
  wf l -> puts ops l = Ok tt l' ->
  exists m,
    height <$> nodes l' = (height <$> nodes l) ++ (heightOfRoll <$> draws m (src l)) /\
    src l' = advance m (src l).
Proof.
  revert l. induction ops as [|[k v] ops IH]; intros l Hwf E.
  - inversion E; subst. exists 0. by rewrite app_nil_r.
  - apply puts_cons_inv in E as (l1 & E1 & E2).
    assert (stateOf (Put k v l) = Some l1) as Est by (by rewrite E1).
    destruct (IH l1) as (m & Eh & Es); [by eapply Put_wf | done |].
    destruct (Put_heights l k v l1 Hwf E1) as [[Eh1 Es1]|[Eh1 Es1]].
    + exists m. by rewrite Eh, Es, Eh1, Es1.
    + exists (S m). rewrite Eh, Es, Eh1, Es1. cbn [draws advance].
      destruct (Int63 (src l)) as [d r']. cbn [fst snd fmap list_fmap].
      by rewrite <- app_assoc.
Qed.

(** C6.  Two lists made by [NewSkipList], given the same calls of [Put] in
    the same order, end with the same head vector and the same nodes:
    same heights, same links.  The heights are those of the draws of the
    source seeded with 0, a draw for each node in the order they were
    made. *)
Theorem same_calls_same_structure (c : ValueCmp) (ops : list (bytes * bytes))
    (l1 l2 : List Source) :
  puts ops (NewSkipList c) = Ok tt l1 -> puts ops (NewSkipList c) = Ok tt l2 ->
  head l1 = head l2 /\ nodes l1 = nodes l2 /\
  height <$> tail (nodes l1) =
    heightOfRoll <$> draws (length (tail (nodes l1))) (NewSource 0).
Proof.
  intros E1 E2. assert (l1 = l2) as <- by congruence.
  split; [done|]. split; [done|].
  destruct (puts_heights ops (NewSkipList c) l1 (wf_new c) E1) as (m & Eh & _).
  cbn [NewSkipList nodes src fmap list_fmap app] in Eh.
  rewrite fmap_tail, Eh. cbn [tail].
  assert (length (tail (nodes l1)) = m) as ->; [|done].
  rewrite <- (length_fmap height), fmap_tail, Eh. cbn [tail].
  rewrite length_fmap. clear. generalize (NewSource 0 : Source).
  induction m as [|m IH]; intros r; [done|].
  cbn [draws]. destruct (Int63 r). simpl. by rewrite IH.
Qed.

End ClaimsOrdered.

(** ** The lists of the examples *)

Lemma lexCompare_antisym a b : Z.sgn (lexCompare b a) = (- Z.sgn (lexCompare a b))%Z.
Proof.
  revert b. induction a as [|x a IH]; intros [|y b]; simpl; try done.
  rewrite (N.compare_antisym (to_N x) (to_N y)).
  destruct (to_N x ?= to_N y)%N; simpl; [apply IH | done..].
Qed.

Lemma lexCompare_trans a b d :
  (lexCompare a b <= 0)%Z -> (lexCompare b d <= 0)%Z -> (lexCompare a d <= 0)%Z.
Proof.
  revert b d. induction a as [|x a IH]; intros [|y b] [|z d]; simpl; try lia.
  destruct (N.compare_spec (to_N x) (to_N y)) as [E1|L1|L1];
    destruct (N.compare_spec (to_N y) (to_N z)) as [E2|L2|L2];
    destruct (N.compare_spec (to_N x) (to_N z)) as [E3|L3|L3];
    try lia; eauto.
Qed.

Lemma bytesCompare_total : total_order bytesCompare.
Proof.
  split; intros; unfold bytesCompare.
  - apply lexCompare_antisym.
  - eapply lexCompare_trans; eauto.
Qed.

Lemma iterAfter_iterOf {Source : Type} `{Rand Source} (l l' : List Source) n it :
  iterAfter n l = Ok it l' -> l' = l /\ iterOf l it.
Proof.
  revert it l'. induction n as [|n IH]; intros it l' E.
  - cbn [iterAfter] in E. assert (l' = l) as ->.
    { unfold Iter, firstNode, bind, gets, getNode in E.
      destruct (nodes l !! _); by inversion E. }
    split; [done|]. by constructor.
  - cbn [iterAfter] in E. unfold bind at 1 in E.
    destruct (iterAfter n l) as [it0 l0| |] eqn:E0; [|done..].
    destruct (IH it0 l0 eq_refl) as [-> Hit0].
    unfold bind at 1 in E. destruct (Next it0 l) as [[[k0 v0] it1] l1| |] eqn:E1; [|done..].
    assert (l1 = l) as ->.
    { unfold Next, bind, getNode in E1. destruct (nodes l !! _); by inversion E1. }
    inversion E; subst. split; [done|]. by econstructor.
Qed.

(** The scenario of the description: the keys ["b", "a", "c"] come out as
    ["a", "b", "c"]. *)
Example scenario_sorted_iteration :
  IterAll record [] (after ops3) =
  Ok [(str "a", str "1"); (str "b", str "2"); (str "c", str "3")] (after ops3).
Proof. vm_compute. reflexivity. Qed.

(** The links after the same calls, with the heights 0, 1 and 2 that the
    script of draws gives to ["b"], ["a"] and ["c"]. *)
Example scenario_links :
  head (after ops3) = mkPointer 2 2 3 0 0 /\
  (fun a => (id a, height a, next a)) <$> nodes (after ops3) =
    [(0, 5, zeroPointer);
     (1, 0, mkPointer 3 0 0 0 0);
     (2, 1, mkPointer 1 3 0 0 0);
     (3, 2, zeroPointer)].
Proof. split; vm_compute; reflexivity. Qed.

Example scenario_update_in_place :
  Count (after opsx) = Ok 1%Z (after opsx) /\
  Get (str "x") (after opsx) = Ok (str "2", true) (after opsx).
Proof. split; vm_compute; reflexivity. Qed.

Example scenario_missing_key : Get (str "missing") fresh = Ok (None, false) fresh.
Proof. vm_compute. reflexivity. Qed.

Lemma iteration_ascending_witness :
  total_order bytesCompare /\
  puts ops3 fresh = Ok tt (after ops3) /\
  exists kvs,
    IterAll record [] (after ops3) = Ok kvs (after ops3) /\
    StronglySorted (fun x y => (bytesCompare x y < 0)%Z) kvs.*1 /\
    NoDup kvs.*1 /\
    kvs.*1 ≡ₚ storedKeys (after ops3) /\
    (forall k, k ∈ ops3.*1 -> exists k', k' ∈ kvs.*1 /\ bytesCompare k k' = 0%Z) /\
    (forall k', k' ∈ kvs.*1 -> k' ∈ ops3.*1).
Proof.
  split; [exact bytesCompare_total|]. split; [reflexivity|].
  apply (iteration_ascending bytesCompare ops3 (after ops3) bytesCompare_total).
  reflexivity.
Defined.

Lemma get_after_puts_witness :
  total_order bytesCompare /\
  puts opsx fresh = Ok tt (after opsx) /\
  Get (str "x") (after opsx) = Ok (str "2", true) (after opsx) /\
  exists v, Get (str "missing") (after opsx) = Ok (v, false) (after opsx).
Proof.
  assert (puts opsx fresh = Ok tt (after opsx)) as Eops by reflexivity.
  split; [exact bytesCompare_total|]. split; [exact Eops|].
  destruct (get_after_puts bytesCompare opsx (after opsx) bytesCompare_total Eops)
    as [Hlast Hnever].
  split.
  - apply (Hlast [(str "x", str "1")] (str "x") (str "2") []); [reflexivity|].
    intros k' v' Hin. by apply elem_of_nil in Hin.
  - apply Hnever. intros k' v' Hin.
    apply elem_of_cons in Hin as [E|Hin]; [by inversion E|].
    apply elem_of_cons in Hin as [E|Hin]; [by inversion E|].
    by apply elem_of_nil in Hin.
Defined.

Lemma put_twice_witness :
  total_order bytesCompare /\
  reachable bytesCompare fresh /\
  Put (str "x") (str "1") fresh = Ok tt (after [(str "x", str "1")]) /\
  Full (after [(str "x", str "1")]) = Ok false (after [(str "x", str "1")]) /\
  exists l2,
    Put (str "x") (str "2") (after [(str "x", str "1")]) = Ok tt l2 /\
    Get (str "x") l2 = Ok (str "2", true) l2 /\
    (exists n, Count (after [(str "x", str "1")]) = Ok n (after [(str "x", str "1")]) /\
               Count l2 = Ok n l2) /\
    head l2 = head (after [(str "x", str "1")]) /\
    shape <$> nodes l2 = shape <$> nodes (after [(str "x", str "1")]).
Proof.
  split; [exact bytesCompare_total|]. split; [constructor|].
  split; [reflexivity|]. split; [reflexivity|].
  apply (put_twice bytesCompare fresh (after [(str "x", str "1")]) (str "x") (str "1")
           (str "2") bytesCompare_total (reach_new _)); reflexivity.
Defined.

Lemma count_after_put_witness :
  total_order bytesCompare /\
  reachable bytesCompare fresh /\
  Put (str "x") (str "1") fresh = Ok tt (after [(str "x", str "1")]) /\
  exists n,
    Count fresh = Ok n fresh /\
    ((exists k', k' ∈ storedKeys fresh /\ bytesCompare (str "x") k' = 0%Z) ->
       Count (after [(str "x", str "1")]) = Ok n (after [(str "x", str "1")])) /\
    ((forall k', k' ∈ storedKeys fresh -> bytesCompare (str "x") k' <> 0%Z) ->
       Count (after [(str "x", str "1")]) = Ok (n + 1)%Z (after [(str "x", str "1")])).
Proof.
  split; [exact bytesCompare_total|]. split; [constructor|]. split; [reflexivity|].
  apply (count_after_put bytesCompare fresh (after [(str "x", str "1")]) (str "x") (str "1")
           bytesCompare_total (reach_new _)).
  reflexivity.
Defined.

Lemma same_calls_same_structure_witness :
  puts ops3 fresh = Ok tt (after ops3) /\
  head (after ops3) = head (after ops3) /\
  nodes (after ops3) = nodes (after ops3) /\
  height <$> tail (nodes (after ops3)) =
    heightOfRoll <$> draws (length (tail (nodes (after ops3)))) (NewSource 0).
Proof.
  split; [reflexivity|].
  apply (same_calls_same_structure bytesCompare ops3 (after ops3) (after ops3));
    reflexivity.
Defined.

Lemma Full_of_length {Source : Type} `{Rand Source} (l : List Source) :
  Z.of_nat (length (nodes l)) = 4294967295%Z -> Full l = Ok true l.
Proof. intros E. rewrite Full_eq, E. reflexivity. Qed.

Lemma fullList_length : Z.of_nat (length (nodes fullList)) = 4294967295%Z.
Proof.
  change (nodes fullList) with (repeat sentinel (Z.to_nat 4294967295)).
  rewrite repeat_length. apply Z2Nat.id. lia.
Qed.

Lemma fullList_full : Full fullList = Ok true fullList.
Proof. exact (Full_of_length fullList fullList_length). Qed.

Lemma put_full_panics_count_bounded_witness :
  Full fullList = Ok true fullList /\
  Put (str "x") (str "1") fullList = Panic "list has no capacity" fullList /\
  reachable bytesCompare (after ops3) /\
  exists n, Count (after ops3) = Ok n (after ops3) /\ (n <= 2 ^ 32 - 2)%Z.
Proof.
  destruct (@put_full_panics_count_bounded (list Z) scripted) as [Hfull Hcount].
  assert (reachable bytesCompare (after ops3)) as Hr.
  { apply (puts_reachable bytesCompare ops3 fresh); [constructor | reflexivity]. }
  split; [exact fullList_full|].
  split; [exact (Hfull fullList (str "x") (str "1") fullList_full)|].
  split; [exact Hr|]. exact (Hcount bytesCompare (after ops3) Hr).
Defined.

Lemma next_after_end_witness :
  reachable bytesCompare (after ops3) /\
  iterOf (after ops3) {| curr := sentinel |} /\
  Next {| curr := sentinel |} (after ops3) =
    Ok (None, None, {| curr := sentinel |}) (after ops3) /\
  forall n, nexts n {| curr := sentinel |} (after ops3) =
            Ok (repeat (None, None) n) (after ops3).
Proof.
  assert (reachable bytesCompare (after ops3)) as Hr.
  { apply (puts_reachable bytesCompare ops3 fresh); [constructor | reflexivity]. }
  assert (iterOf (after ops3) {| curr := sentinel |}) as Hit.
  { apply (iterAfter_iterOf (after ops3) (after ops3) 3). reflexivity. }
  split; [exact Hr|]. split; [exact Hit|]. split; [reflexivity|].
  apply (next_after_end bytesCompare (after ops3) {| curr := sentinel |} None
           {| curr := sentinel |} Hr Hit).
  reflexivity.
Defined.

Lemma links_in_bounds_witness :
  reachable bytesCompare (after ops3) /\
  (forall h, pget h (head (after ops3)) < length (nodes (after ops3))) /\
  (forall i a h, nodes (after ops3) !! i = Some a ->
     pget h (next a) < length (nodes (after ops3))) /\
  (forall k v l', Put k v (after ops3) <> Panic indexOutOfRange l') /\
  (forall k l', Get k (after ops3) <> Panic indexOutOfRange l') /\
  (forall l', IterAll record [] (after ops3) <> Panic indexOutOfRange l').
Proof.
  assert (reachable bytesCompare (after ops3)) as Hr.
  { apply (puts_reachable bytesCompare ops3 fresh); [constructor | reflexivity]. }
  split; [exact Hr|]. exact (links_in_bounds bytesCompare (after ops3) Hr).
Defined.

(** C7, as stated, fails: [Put] takes the empty key [[]byte{}], which is
    not nil, as any other key.  On a fresh list the call returns and
    [Count()] is 1 afterwards. *)
Lemma put_empty_key_accepted :
  (forall msg l', Put (Some []) (str "v") fresh <> Panic msg l') /\
  Count fresh = Ok 0%Z fresh /\
  exists l', Put (Some []) (str "v") fresh = Ok tt l' /\ Count l' = Ok 1%Z l'.
Proof.
  split; [|split].
  - intros msg l' E. vm_compute in E. discriminate E.
  - reflexivity.
  - eexists. split; vm_compute; reflexivity.
Qed.

(** ** More on the arena and the levels *)

Section Arena.

Context {Source : Type} `{Rand Source}.
Implicit Types (l st : List Source) (k v : bytes) (a b ins : skipNode).

(** X1.  In every reachable list the node at index 0 is the sentinel as
    [NewSkipList] made it, and every other node has its index as
    identifier, a key that is not nil and a height below [maxHeight]. *)
Theorem arena_invariant (c : ValueCmp) (l : List Source) :
  reachable c l ->
  nodes l !! 0 = Some sentinel /\
  forall i a, nodes l !! i = Some a ->
    id a = i /\ (0 < i -> key a <> None /\ height a < maxHeight).
Proof.
  intros [Hwf _]%reachable_wf. split; [apply (wf_sentinel _ Hwf)|].
  intros i a Ea. split; [apply (wf_id _ Hwf _ _ Ea)|]. intros Hi. split.
  - apply (wf_key _ Hwf _ _ Ea Hi).
  - apply (wf_height _ Hwf _ _ Ea Hi).
Qed.

(** X2.  A call of [Put] that returns keeps every node of the arena at
    its index with its identifier, key and height; it changes the value
    of a node only to the value put, and only of a node whose key equals
    the key put; and it adds at most one node. *)
Theorem put_keeps_nodes (c : ValueCmp) (l l' : List Source) k v :
  reachable c l -> Put k v l = Ok tt l' ->
  length (nodes l) <= length (nodes l') <= S (length (nodes l)) /\
  forall i a, nodes l !! i = Some a ->
    exists a', nodes l' !! i = Some a' /\
      id a' = id a /\ key a' = key a /\ height a' = height a /\
      (val a' = val a \/ (0 < i /\ c k (key a) = 0%Z /\ val a' = v)).
Proof.
  intros Hr E. destruct (reachable_wf _ _ Hr) as [Hwf Ecmp].
  destruct (Put_ok_inv _ _ _ _ E) as [Hk Hcap].
  pose proof (Put_spec l k v Hwf Hk Hcap) as Hs. rewrite E in Hs.
  destruct Hs as [(j & b & [Hj Eb] & E0 & ->)|(bc & ins & _ & Hsp & Eins)].
  - split; [unfold updated; cbn [nodes]; rewrite length_insert; lia|].
    intros i a Ea. unfold updated. cbn [nodes].
    destruct (decide (i = j)) as [->|Hne].
    + rewrite list_lookup_insert_eq by (eapply lookup_lt_Some; eauto).
      assert (a = b) as -> by congruence.
      eexists. split; [done|]. cbn [setVal id key height val].
      do 3 (split; [done|]). right. by rewrite <- Ecmp.
    + rewrite list_lookup_insert_ne by done. exists a. split; [done|].
      do 3 (split; [done|]). by left.
  - split; [rewrite (sp_len _ _ _ _ _ _ _ Hsp); lia|].
    intros i a Ea.
    destruct (sp_old _ _ _ _ _ _ _ Hsp _ _ Ea) as (a' & Ea' & ? & ? & ? & ? & _).
    exists a'. do 4 (split; [done|]). by left.
Qed.

Lemma Put_unlinked l k v l' :
  wf l ->
  (forall i a h, nodes l !! i = Some a -> height a < h -> pget h (next a) = 0) ->
  stateOf (Put k v l) = Some l' ->
  forall i a h, nodes l' !! i = Some a -> height a < h -> pget h (next a) = 0.
Proof.
  intros Hwf Hun E. destruct k as [kb|]; [|by inversion E; subst].
  destruct (Z.geb_spec (Z.of_nat (length (nodes l)) - 1) maxCount) as [Hge|Hlt].
  { rewrite Put_full in E by (by apply Z.geb_le). by inversion E; subst. }
  pose proof (Put_spec l (Some kb) v Hwf ltac:(done) Hlt) as Hs.
  destruct (Put _ _ _) as [[] l1| |]; simpl in *; [|done..].
  inversion E; subst l1.
  destruct Hs as [(j & b & Hrb & _ & ->)|(bc & ins & Hbc & Hsp & Eins)].
  - intros i a h Ea Hh.
    destruct (updated_lookup _ _ _ _ _ _ (proj2 Hrb) Ea) as (y & Ey & _ & _ & Ehy & -> & _).
    apply (Hun i y h Ey). lia.
  - intros i a h Ea Hh.
    destruct (decide (h < maxHeight)) as [Hm|Hm]; [|apply pget_ge; lia].
    destruct (spliced_lookup _ _ _ _ _ _ _ _ _ Hsp Eins Ea)
      as [[-> ->]|(y & Ey & _ & _ & _ & Ehy & En)].
    + rewrite (sp_new_next _ _ _ _ _ _ _ Hsp h Hm).
      rewrite (sp_new_height _ _ _ _ _ _ _ Hsp) in Hh.
      by rewrite decide_False by lia.
    + rewrite (En h Hm). rewrite decide_False; [apply (Hun i y h Ey); lia|].
      intros (_ & Hhc & Ei). pose proof (Hbc h Hm) as Hcr. rewrite <- Ei in Hcr.
      destruct (decide (i = 0)) as [->|Hi].
      * apply crumb_zero in Hcr; [congruence|done].
      * destruct (crumb_node l (Some kb) h i Hwf Hcr Hi) as (y' & [_ Ey'] & Hle & _).
        assert (y' = y) as -> by congruence. lia.
Qed.

Lemma reachable_unlinked c l :
  reachable c l ->
  forall i a h, nodes l !! i = Some a -> height a < h -> pget h (next a) = 0.
Proof.
  induction 1 as [|l k v l' Hr IH E|l k l' Hr IH E].
  - intros i a h [-> <-]%list_lookup_singleton_Some _. apply pget_zero.
  - destruct (reachable_wf _ _ Hr) as [Hwf _]. by eapply Put_unlinked.
  - destruct (reachable_wf _ _ Hr) as [Hwf _]. apply Get_state in E; [|done]. by subst.
Qed.

(** X3.  In every reachable list a link of level [h], of the head vector
    or of a node, leads to the sentinel or to a node of height [h] at
    least, and a node has no link at a level above its height. *)
Theorem links_respect_height (c : ValueCmp) (l : List Source) :
  reachable c l ->
  (forall h b, h < maxHeight -> nodes l !! pget h (head l) = Some b -> h <= height b) /\
  (forall i a h b, nodes l !! i = Some a -> h < maxHeight ->
     nodes l !! pget h (next a) = Some b -> h <= height b) /\
  (forall i a h, nodes l !! i = Some a -> height a < h -> pget h (next a) = nullID).
Proof.
  intros Hr. destruct (reachable_wf _ _ Hr) as [Hwf _].
  split; [apply (wf_head_level _ Hwf)|]. split; [apply (wf_next_level _ Hwf)|].
  by apply (reachable_unlinked c).
Qed.

(** What [follows] says, spelled out. *)
Lemma follows_spelled c ns h lo s :
  total_order c -> follows c ns h lo s ->
  (s = 0 -> forall j b, 0 < j -> ns !! j = Some b -> h <= height b -> ~ above c lo (key b)) /\
  (s <> 0 -> exists sn, ns !! s = Some sn /\ h <= height sn /\ above c lo (key sn) /\
     forall j b, 0 < j -> ns !! j = Some b -> h <= height b -> above c lo (key b) ->
       (c (key sn) (key b) <= 0)%Z).
Proof.
  intros Hc [F1 F2]. split.
  - intros -> j b Hj Eb Hh Ha. destruct (F2 j b Hj Eb Hh Ha) as (sn & Hs & _). done.
  - intros Hs. destruct (F1 Hs) as (sn & Es & Hh & Ha). exists sn.
    do 3 (split; [done|]). intros j b Hj Eb Hhb Hab.
    destruct (F2 j b Hj Eb Hhb Hab) as (sn' & _ & Es' & Hle).
    by assert (sn' = sn) as -> by congruence.
Qed.

(** X4.  On a list reached with a total order every level is an ascending
    chain of the stored nodes of that height or more: the head of level
    [h] is the node of the level with the least key, the [next[h]] of a
    node of the level is the node of the level with the least key above
    its own, and either is the sentinel when there is no such node. *)
Theorem levels_sorted (c : ValueCmp) (l : List Source) :
  total_order c -> reachable c l ->
  forall h, h < maxHeight ->
    (pget h (head l) = 0 ->
       forall j b, realAt l j b -> ~ h <= height b) /\
    (pget h (head l) <> 0 ->
       exists b, realAt l (pget h (head l)) b /\ h <= height b /\
         forall j x, realAt l j x -> h <= height x -> (c (key b) (key x) <= 0)%Z) /\
    (forall i a, realAt l i a -> h <= height a ->
       (pget h (next a) = 0 ->
          forall j x, realAt l j x -> h <= height x -> (c (key x) (key a) <= 0)%Z) /\
       (pget h (next a) <> 0 ->
          exists b, realAt l (pget h (next a)) b /\ h <= height b /\
            (c (key a) (key b) < 0)%Z /\
            forall j x, realAt l j x -> h <= height x ->
              (c (key a) (key x) < 0)%Z -> (c (key b) (key x) <= 0)%Z)).
Proof.
  intros Hc Hr h Hh. destruct (reachable_wf _ _ Hr) as [Hwf Ecmp].
  pose proof (reachable_ordered c l Hc Hr) as Ho. rewrite <- Ecmp in *.
  destruct (follows_spelled _ _ _ _ _ Hc (ord_head _ Ho h Hh)) as [Hh0 Hh1].
  split; [|split].
  - intros E0 j b [Hj Eb] Hle. by apply (Hh0 E0 j b Hj Eb Hle).
  - intros Hn. destruct (Hh1 Hn) as (b & Eb & Hle & _ & Hmin).
    exists b. split; [split; [lia|done]|]. split; [done|].
    intros j x [Hj Ex] Hx. by apply (Hmin j x).
  - intros i a Hra Hia.
    destruct (follows_spelled _ _ _ _ _ Hc (ord_next _ Ho h i a Hh Hra Hia)) as [Hn0 Hn1].
    split.
    + intros E0 j x [Hj Ex] Hx. pose proof (Hn0 E0 j x Hj Ex Hx) as Hno.
      simpl in Hno. order Hc.
    + intros Hn. destruct (Hn1 Hn) as (b & Eb & Hle & Hab & Hmin).
      exists b. split; [split; [lia|done]|]. do 2 (split; [done|]).
      intros j x [Hj Ex] Hx Hax. by apply (Hmin j x).
Qed.

Lemma Has_Get l k : Has k l =
  match Get k l with
  | Ok (_, ok) l' => Ok ok l'
  | Panic msg l' => Panic msg l'
  | Diverge => Diverge
  end.
Proof. unfold Has, bind. by destruct (Get k l) as [[? ?] ?| |]. Qed.

(** X5.  On a list reached with a total order the operations end and do
    not panic: [Get], [Has] and [IterAll] always, and [Put] whenever the
    key is not nil and the list is not full. *)
Theorem operations_return (c : ValueCmp) (l : List Source) :
  total_order c -> reachable c l ->
  (forall k, returns (Get k l)) /\
  (forall k, returns (Has k l)) /\
  returns (IterAll record [] l) /\
  (forall k v, k <> None -> Full l = Ok false l -> returns (Put k v l)).
Proof.
  intros Hc Hr. destruct (reachable_wf _ _ Hr) as [Hwf Ecmp].
  pose proof (reachable_ordered c l Hc Hr) as Ho.
  split; [|split; [|split]].
  - intros k. by apply Get_returns.
  - intros k. rewrite Has_Get. pose proof (Get_returns l k Hwf Ho) as Hg.
    by destruct (Get k l) as [[? ?] ?| |].
  - destruct (IterAll_spec l Hwf Ho) as (kvs & -> & _). done.
  - intros k v Hk Efull. apply Put_returns; [done..|].
    rewrite Full_eq in Efull. inversion Efull as [Hcap].
    rewrite Z.geb_leb in Hcap. by apply Z.leb_gt in Hcap.
Qed.

End Arena.

(** ** Histories and iterators, further *)

Section Histories.

Context {Source : Type} `{Rand Source}.
Implicit Types (l st : List Source) (k v : bytes) (a b ins : skipNode).

Lemma lastPut_existsb c ops k :
  lastPut c ops k = None <-> existsb (fun kv => (c k kv.1 =? 0)%Z) ops = false.
Proof.
  induction ops as [|[k0 v0] ops IH]; [done|].
  cbn [lastPut existsb fst]. rewrite orb_false_iff.
  destruct (lastPut c ops k) as [v'|].
  - split; [done|]. intros [_ E]. by apply IH in E.
  - destruct (c k k0 =? 0)%Z; split; try done.
    + by intros [? _].
    + intros _. split; [done|]. by apply IH.
Qed.

Lemma lastPut_elem c ops k v :
  lastPut c ops k = Some v -> exists k', (k', v) ∈ ops /\ c k k' = 0%Z.
Proof.
  induction ops as [|[k0 v0] ops IH]; [done|]. cbn [lastPut].
  destruct (lastPut c ops k) as [v'|].
  - intros [= ->]. destruct IH as (k' & Hin & E); [done|]. exists k'. split; [by right|done].
  - destruct (Z.eqb_spec (c k k0) 0) as [E|_]; [|done]. intros [= ->].
    exists k0. split; [by left|done].
Qed.

Lemma getVal_new c k : getVal (NewSkipList c : List Source) k = None.
Proof. reflexivity. Qed.

(** X6.  After calls of [Put] on a new list, with a total order, [Has]
    tells of a key whether one of the keys put equals it. *)
Theorem has_after_puts (c : ValueCmp) ops (l : List Source) k :
  total_order c -> puts ops (NewSkipList c) = Ok tt l ->
  Has k l = Ok (existsb (fun kv => (c k kv.1 =? 0)%Z) ops) l.
Proof.
  intros Hc E. destruct (puts_new_invariants c ops l Hc E) as (Hwf & Ho & Ecmp).
  pose proof (puts_getVal ops _ l k (wf_new c) (ordered_new c Hc) E) as Hv.
  cbn [cmp NewSkipList] in Hv. rewrite getVal_new in Hv.
  rewrite Has_Get, (getVal_Get l k Hwf Ho), Hv.
  destruct (lastPut c ops k) as [v'|] eqn:El.
  - destruct (existsb _ ops) eqn:Ee; [done|]. apply lastPut_existsb in Ee. congruence.
  - apply lastPut_existsb in El. by rewrite El.
Qed.

Lemma Next_inv l it k v it' l' :
  Next it l = Ok (k, v, it') l' ->
  l' = l /\ k = key (curr it) /\ v = val (curr it) /\
  nodes l !! pget 0 (next (curr it)) = Some (curr it').
Proof.
  unfold Next, bind, getNode. destruct (nodes l !! _) as [b|] eqn:Eb; [|done].
  unfold ret. inversion 1; subst. done.
Qed.

(** The loop of [IterAll] and the calls of [Next] one by one. *)
Lemma iterLoop_nexts l fuel it0 i k v it acc res :
  wf l -> nodes l !! i = Some (curr it0) ->
  Next it0 l = Ok (k, v, it) l ->
  iterLoop fuel record k v it acc l = Ok res l ->
  exists more, res = acc ++ more /\
    nexts (length more) it0 l = Ok more l /\
    nexts (S (length more)) it0 l = Ok (more ++ [(None, None)]) l.
Proof.
  intros Hwf. revert it0 i k v it acc.
  assert (forall fuel it0 i v it acc,
    nodes l !! i = Some (curr it0) -> Next it0 l = Ok (None, v, it) l ->
    iterLoop fuel record None v it acc l = Ok res l ->
    exists more, res = acc ++ more /\
      nexts (length more) it0 l = Ok more l /\
      nexts (S (length more)) it0 l = Ok (more ++ [(None, None)]) l) as Hnil.
  { intros fuel0 it0 i v it acc Ei En E.
    assert (res = acc) as -> by (destruct fuel0; by inversion E).
    exists []. split; [by rewrite app_nil_r|]. split; [done|].
    destruct (Next_inv _ _ _ _ _ _ En) as (_ & Ek & Ev & _).
    assert (v = None) as ->.
    { destruct (decide (i = 0)) as [->|Hi].
      - rewrite (wf_sentinel _ Hwf) in Ei. inversion Ei as [Es]. by rewrite Ev, <- Es.
      - destruct (wf_key _ Hwf _ _ Ei); [lia|done]. }
    cbn [nexts length]. unfold bind at 1. rewrite En. done. }
  induction fuel as [|fuel IH]; intros it0 i k v it acc Ei En E;
    (destruct k as [kb|]; [|by eapply Hnil]); [done|].
  cbn [iterLoop] in E. unfold bind at 1 in E.
  destruct (Next it l) as [[[k1 v1] it1] l1| |] eqn:En1; [|done..].
  destruct (Next_inv _ _ _ _ _ _ En1) as (-> & _ & _ & _).
  destruct (Next_inv _ _ _ _ _ _ En) as (_ & _ & _ & Eit).
  destruct (IH it _ k1 v1 it1 _ Eit En1 E) as (more & -> & En2 & En3).
  exists ((Some kb, v) :: more). split; [unfold record; by rewrite <- app_assoc|].
  split.
  - cbn [nexts length]. unfold bind at 1. rewrite En. unfold bind at 1. by rewrite En2.
  - change (length ((Some kb, v) :: more)) with (S (length more)).
    remember (S (length more)) as n eqn:En'. cbn [nexts]. unfold bind at 1. rewrite En.
    unfold bind at 1. by rewrite En3.
Qed.

(** X7.  On a list reached with a total order, an iterator made by [Iter]
    and stepped by hand with [Next] gives the pairs that [IterAll] hands
    to its callback, in the same order, and then a nil key; the [Count]
    of the iterator is the number of these pairs. *)
Theorem iterator_walk (c : ValueCmp) (l : List Source) :
  total_order c -> reachable c l ->
  exists it kvs,
    Iter l = Ok it l /\ IterAll record [] l = Ok kvs l /\
    IterCount it l = Ok (Z.of_nat (length kvs)) l /\
    nexts (length kvs) it l = Ok kvs l /\
    nexts (S (length kvs)) it l = Ok (kvs ++ [(None, None)]) l.
Proof.
  intros Hc Hr. destruct (reachable_wf _ _ Hr) as [Hwf Ecmp].
  pose proof (reachable_ordered c l Hc Hr) as Ho.
  destruct (IterAll_spec l Hwf Ho) as (kvs & Eall & _ & _ & Hperm & _).
  destruct (wf_lookup_head l 0 Hwf) as [a Ea].
  destruct (wf_lookup_next l _ a 0 Hwf Ea) as [b Eb].
  assert (Iter l = Ok {| curr := a |} l) as Eit.
  { unfold Iter, firstNode, bind, gets, getNode. by rewrite Ea. }
  assert (Next {| curr := a |} l = Ok (key a, val a, {| curr := b |}) l) as En.
  { unfold Next, bind, getNode. cbn [curr]. by rewrite Eb. }
  exists {| curr := a |}, kvs. do 2 (split; [done|]).
  pose proof Eall as Eloop. unfold IterAll in Eloop. unfold bind at 1 in Eloop.
  rewrite Eit in Eloop. unfold bind at 1 in Eloop. rewrite En in Eloop.
  unfold bind, walkFuel, gets in Eloop.
  destruct (iterLoop_nexts l _ {| curr := a |} _ _ _ _ [] kvs Hwf Ea En Eloop)
    as (more & -> & En1 & En2).
  cbn [app] in *. split; [|done]. unfold IterCount. rewrite Count_eq. do 2 f_equal.
  apply Permutation_length in Hperm. rewrite length_fmap in Hperm. rewrite Hperm.
  unfold storedKeys. rewrite length_fmap.
  pose proof (wf_sentinel _ Hwf) as Es. destruct (nodes l) as [|x xs]; [done|].
  simpl. lia.
Qed.

(** X8.  On a list reached with a total order, [Get] finds every pair that
    the iteration yields, and the iteration yields, with a key equal to
    the one asked for, every value that [Get] finds. *)
Theorem iteration_agrees_with_get (c : ValueCmp) (l : List Source) :
  total_order c -> reachable c l ->
  exists kvs, IterAll record [] l = Ok kvs l /\
    (forall k v, (k, v) ∈ kvs -> Get k l = Ok (v, true) l) /\
    (forall k v, Get k l = Ok (v, true) l -> exists k', (k', v) ∈ kvs /\ c k k' = 0%Z).
Proof.
  intros Hc Hr. destruct (reachable_wf _ _ Hr) as [Hwf Ecmp].
  pose proof (reachable_ordered c l Hc Hr) as Ho.
  destruct (IterAll_spec l Hwf Ho) as (kvs & Eall & _ & _ & _ & Hin).
  exists kvs. split; [done|]. split.
  - intros k v (i & a & Hra & -> & ->)%Hin.
    apply (Get_found l _ i a Hwf Ho Hra). rewrite Ecmp. apply (cmp_refl c Hc).
  - intros k v Eg.
    destruct (Get_cases l k Hwf Ho) as [(i & a & Hra & E0 & Eg')|[_ Eg']];
      rewrite Eg' in Eg; [|done].
    inversion Eg; subst. exists (key a). split; [|done]. apply Hin. eauto.
Qed.

(** X9.  A call of [Put] that returns, on a list reached with a total
    order, makes [Get] find the value put for every key equal to the key
    put, and leaves what [Get] gives for every other key as it was. *)
Theorem put_frames_get (c : ValueCmp) (l l' : List Source) k0 v0 :
  total_order c -> reachable c l -> Put k0 v0 l = Ok tt l' ->
  forall k,
    (c k k0 = 0%Z -> Get k l' = Ok (v0, true) l') /\
    (c k k0 <> 0%Z -> exists r, Get k l = Ok r l /\ Get k l' = Ok r l').
Proof.
  intros Hc Hr E k. destruct (reachable_wf _ _ Hr) as [Hwf Ecmp].
  pose proof (reachable_ordered c l Hc Hr) as Ho.
  assert (stateOf (Put k0 v0 l) = Some l') as Est by (by rewrite E).
  pose proof (Put_wf _ _ _ _ Hwf Est) as Hwf'.
  pose proof (Put_ordered _ _ _ _ Hwf Ho Est) as Ho'.
  pose proof (Put_getVal l k0 v0 l' k Hwf Ho E) as Hv. rewrite Ecmp in Hv.
  pose proof (getVal_Get l k Hwf Ho) as Eg.
  pose proof (getVal_Get l' k Hwf' Ho') as Eg'. rewrite Hv in Eg'.
  split.
  - intros E0. by rewrite E0 in Eg'.
  - intros Hne. apply Z.eqb_neq in Hne. rewrite Hne in Eg'. eauto.
Qed.

Lemma addKey_present c ks k k' :
  k' ∈ ks -> c k k' = 0%Z -> addKey c ks k = ks.
Proof.
  intros Hin E. unfold addKey.
  destruct (existsb _ ks) eqn:Ee; [done|].
  assert (existsb (fun k' => (c k k' =? 0)%Z) ks = true); [|congruence].
  apply existsb_exists. exists k'. split; [by apply list_elem_of_In | by apply Z.eqb_eq].
Qed.

Lemma addKey_absent c ks k :
  (forall k', k' ∈ ks -> c k k' <> 0%Z) -> addKey c ks k = ks ++ [k].
Proof.
  intros Hno. unfold addKey.
  destruct (existsb _ ks) eqn:Ee; [|done].
  apply existsb_exists in Ee as (k' & Hin%list_elem_of_In & E%Z.eqb_eq).
  by destruct (Hno k').
Qed.

(** The keys of the arena after the calls of [ops]. *)
Lemma puts_firstKeys c ops l0 l :
  wf l0 -> ordered l0 -> cmp l0 = c -> puts ops l0 = Ok tt l ->
  storedKeys l = fold_left (addKey c) ops.*1 (storedKeys l0).
Proof.
  revert l0. induction ops as [|[k v] ops IH]; intros l0 Hwf Ho Ecmp E.
  - by inversion E; subst.
  - apply puts_cons_inv in E as (l1 & E1 & E2).
    assert (stateOf (Put k v l0) = Some l1) as Est by (by rewrite E1).
    rewrite (IH l1); [|by eapply Put_wf | by eapply Put_ordered | | done].
    2:{ rewrite <- Ecmp. by eapply Put_cmp. }
    rewrite fmap_cons. cbn [fold_left fst]. f_equal.
    destruct (Put_storedKeys l0 k v l1 Hwf Ho E1)
      as [(-> & _ & k' & Hin & E0)|(-> & _ & Habs)].
    + symmetry. apply (addKey_present c _ k k'); [done|by rewrite <- Ecmp].
    + symmetry. apply addKey_absent. intros k' (i & a & Hra & <-)%storedKeys_realAt.
      rewrite <- Ecmp. by apply (Habs i a).
Qed.

(** What a list holds after the calls of [ops] on a new list. *)
Lemma puts_content c ops l :
  total_order c -> puts ops (NewSkipList c) = Ok tt l ->
  storedKeys l = firstKeys c ops /\
  exists kvs, IterAll record [] l = Ok kvs l /\
    StronglySorted (fun x y => (c x y < 0)%Z) kvs.*1 /\
    NoDup kvs.*1 /\
    kvs.*1 ≡ₚ firstKeys c ops /\
    forall k v, (k, v) ∈ kvs -> lastPut c ops k = Some v.
Proof.
  intros Hc E. destruct (puts_new_invariants c ops l Hc E) as (Hwf & Ho & Ecmp).
  pose proof (puts_firstKeys c ops _ l (wf_new c) (ordered_new c Hc) eq_refl E) as Ek.
  change (storedKeys l = firstKeys c ops) in Ek. split; [done|].
  destruct (IterAll_spec l Hwf Ho) as (kvs & Eall & Hs & Hnd & Hperm & Hin).
  exists kvs. rewrite Ecmp in Hs. do 3 (split; [done|]). split; [by rewrite <- Ek|].
  intros k v (i & a & Hra & -> & ->)%Hin.
  pose proof (puts_getVal ops _ l (key a) (wf_new c) (ordered_new c Hc) E) as Hv.
  cbn [cmp NewSkipList] in Hv. rewrite getVal_new in Hv.
  unfold getVal in Hv.
  rewrite (Get_found l _ i a Hwf Ho Hra) in Hv by (rewrite Ecmp; apply (cmp_refl c Hc)).
  by destruct (lastPut c ops (key a)); inversion Hv.
Qed.

(** X10.  After calls of [Put] on a new list, with a total order, the
    list holds, for every class of equal keys put, the key of the first
    call of the class and the value of the last: the arena has the first
    keys in the order of their calls, [Count] is their number, and the
    iteration yields each of them once, with the value last put for it. *)
Theorem first_key_last_value (c : ValueCmp) ops (l : List Source) :
  total_order c -> puts ops (NewSkipList c) = Ok tt l ->
  storedKeys l = firstKeys c ops /\
  Count l = Ok (Z.of_nat (length (firstKeys c ops))) l /\
  exists kvs, IterAll record [] l = Ok kvs l /\
    kvs.*1 ≡ₚ firstKeys c ops /\
    forall k v, (k, v) ∈ kvs -> lastPut c ops k = Some v.
Proof.
  intros Hc E. destruct (puts_new_invariants c ops l Hc E) as (Hwf & _).
  destruct (puts_content c ops l Hc E) as (Ek & kvs & Eall & _ & _ & Hperm & Hv).
  split; [done|]. split; [|by exists kvs].
  rewrite Count_eq, <- Ek. f_equal. unfold storedKeys. rewrite length_fmap.
  pose proof (wf_sentinel _ Hwf) as Es. destruct (nodes l) as [|x xs]; [done|].
  simpl. lia.
Qed.

Lemma StronglySorted_of_fmap {A B} (f : A -> B) (R : B -> B -> Prop) (xs : list A) :
  StronglySorted R (f <$> xs) -> StronglySorted (fun x y => R (f x) (f y)) xs.
Proof.
  induction xs as [|x xs IH]; [constructor|].
  rewrite fmap_cons. intros [Hs Hall]%StronglySorted_inv.
  constructor; [by apply IH|]. by rewrite Forall_fmap in Hall.
Qed.

(** The pairs the iteration yields when the keys put are all different. *)
Lemma puts_distinct_content c ops l :
  total_order c -> NoDup ops.*1 ->
  (forall k k', k ∈ ops.*1 -> k' ∈ ops.*1 -> c k k' = 0%Z -> k = k') ->
  puts ops (NewSkipList c) = Ok tt l ->
  exists kvs, IterAll record [] l = Ok kvs l /\
    StronglySorted (fun p q => (c p.1 q.1 < 0)%Z) kvs /\ kvs ≡ₚ ops.
Proof.
  intros Hc Hnd Hdist E.
  destruct (puts_new_invariants c ops l Hc E) as (Hwf & Ho & Ecmp).
  destruct (puts_content c ops l Hc E) as (Ek & kvs & Eall & Hs & Hndk & Hperm & Hv).
  destruct (puts_storedKeys ops _ l (wf_new c) (ordered_new c Hc) E) as (Hput & Hsub & _).
  cbn [cmp NewSkipList] in Hput.
  assert (forall k, k ∈ storedKeys l -> k ∈ ops.*1) as Hsub'.
  { intros k [Hin|Hin]%Hsub; [|done]. by apply elem_of_nil in Hin. }
  assert (forall k v1 v2, (k, v1) ∈ ops -> (k, v2) ∈ ops -> v1 = v2) as Hfun.
  { clear -Hnd. induction ops as [|[k0 v0] ops IH]; intros k v1 v2 H1 H2.
    - by apply elem_of_nil in H1.
    - rewrite fmap_cons in Hnd. apply NoDup_cons in Hnd as [Hk0 Hnd].
      apply elem_of_cons in H1 as [H1|H1]; apply elem_of_cons in H2 as [H2|H2].
      + congruence.
      + inversion H1; subst. destruct Hk0. apply list_elem_of_fmap. by exists (k0, v2).
      + inversion H2; subst. destruct Hk0. apply list_elem_of_fmap. by exists (k0, v1).
      + by apply (IH Hnd k). }
  exists kvs. split; [done|]. split.
  { by apply (StronglySorted_of_fmap fst (fun x y => (c x y < 0)%Z)). }
  apply NoDup_Permutation.
  - by apply (NoDup_fmap_1 fst).
  - by apply (NoDup_fmap_1 fst).
  - intros [k v]. split.
    + intros Hin. destruct (lastPut_elem c ops k v (Hv k v Hin)) as (k' & Hin' & E0).
      assert (k = k') as <-; [|done]. apply Hdist; [|by apply (list_elem_of_fmap_2 fst _ (k', v))|done].
      apply Hsub'. rewrite Ek, <- Hperm. by apply (list_elem_of_fmap_2 fst _ (k, v)).
    + intros Hin.
      assert (k ∈ ops.*1) as Hk by (by apply (list_elem_of_fmap_2 fst _ (k, v))).
      destruct (Hput k Hk) as (k' & Hk' & E0).
      assert (k = k') as <- by (apply Hdist; [done|by apply Hsub'|done]).
      rewrite Ek, <- Hperm in Hk'. apply list_elem_of_fmap in Hk' as ([k1 v1] & -> & Hin1).
      simpl in *. destruct (lastPut_elem c ops k1 v1 (Hv k1 v1 Hin1)) as (k2 & Hin2 & E2).
      assert (k1 = k2) as <-.
      { apply Hdist; [done|by apply (list_elem_of_fmap_2 fst _ (k2, v1))|done]. }
      by rewrite (Hfun k1 v v1 Hin Hin2).
Qed.

(** X11.  The order of the calls does not show in the iteration: when the
    keys put are all different under a total order, two sequences of
    calls of [Put] with the same pairs in different orders give lists
    whose iterations yield the same pairs in the same order, namely the
    pairs put, sorted by key. *)
Theorem iteration_order_independent (c : ValueCmp) ops1 ops2 (l1 l2 : List Source) :
  total_order c -> NoDup ops1.*1 ->
  (forall k k', k ∈ ops1.*1 -> k' ∈ ops1.*1 -> c k k' = 0%Z -> k = k') ->
  ops1 ≡ₚ ops2 ->
  puts ops1 (NewSkipList c) = Ok tt l1 -> puts ops2 (NewSkipList c) = Ok tt l2 ->
  exists kvs, IterAll record [] l1 = Ok kvs l1 /\ IterAll record [] l2 = Ok kvs l2 /\
    kvs ≡ₚ ops1 /\ StronglySorted (fun p q => (c p.1 q.1 < 0)%Z) kvs.
Proof.
  intros Hc Hnd Hdist Hp E1 E2.
  destruct (puts_distinct_content c ops1 l1 Hc Hnd Hdist E1) as (kvs1 & Ea1 & Hs1 & Hp1).
  assert (ops1.*1 ≡ₚ ops2.*1) as Hpk by (by rewrite Hp).
  destruct (puts_distinct_content c ops2 l2 Hc) as (kvs2 & Ea2 & Hs2 & Hp2); [| |done|].
  { by rewrite <- Hpk. }
  { intros k k'. rewrite <- !Hpk. apply Hdist. }
  exists kvs1. split; [done|]. split; [|done].
  assert (kvs2 = kvs1) as <-; [|done].
  apply (StronglySorted_unique_strong (fun p q => (c p.1 q.1 < 0)%Z)); [|done..|].
  - intros p q _ _ Hpq Hqp. order Hc.
  - by rewrite Hp2, Hp1.
Qed.

(** X12.  A new list is empty whatever its comparator is: it counts no
    node and is not full, [Get] and [Has] find no key, and the iteration
    yields nothing; none of these calls changes it. *)
Theorem new_list_empty (c : ValueCmp) k :
  Count (NewSkipList c : List Source) = Ok 0%Z (NewSkipList c) /\
  Full (NewSkipList c : List Source) = Ok false (NewSkipList c) /\
  Get k (NewSkipList c : List Source) = Ok (None, false) (NewSkipList c) /\
  Has k (NewSkipList c : List Source) = Ok false (NewSkipList c) /\
  IterAll record [] (NewSkipList c : List Source) = Ok [] (NewSkipList c).
Proof. repeat split; reflexivity. Qed.

Lemma lowOnes_mod (n : nat) (x : Z) : n <= 12 -> lowOnes n (x mod 4096) = lowOnes n x.
Proof.
  intros Hn. unfold lowOnes.
  assert (forall m, m <= n ->
            forallb (fun i => Z.testbit (x mod 4096) (Z.of_nat i)) (seq 0 m) =
            forallb (fun i => Z.testbit x (Z.of_nat i)) (seq 0 m)) as Hm; [|by apply Hm].
  induction m as [|m IH]; intros Hle; [done|].
  rewrite seq_S, !forallb_app, IH by lia. simpl. f_equal. f_equal.
  change 4096%Z with (2 ^ 12)%Z. apply Z.mod_pow2_bits_low. lia.
Qed.

(** X13.  The height [rollHeight] gives depends on the low 12 bits of the
    draw only, and of the 4096 values of these bits 3584 give the height
    0, 448 the height 1, 56 the height 2, 7 the height 3 and one, all
    ones, the height 4: each level is taken by an eighth of the level
    below. *)
Theorem height_distribution (r : Source) :
  (rollHeight r).1 = heightOfRoll ((Int63 r).1 mod 4096) /\
  (fun h => length (filter (fun d => heightOfRoll d = h) (drawsBelow 4096)))
    <$> [0; 1; 2; 3; 4] = [3584; 448; 56; 7; 1].
Proof.
  split.
  - rewrite rollHeight_eq. cbn [fst]. rewrite !heightOfRoll_masks. unfold heightOfDraw.
    by rewrite !lowOnes_mod by lia.
  - vm_compute. reflexivity.
Qed.

(** X14.  [Get] and [Has] take a key up to the equality of the
    comparator: on a list reached with a total order, two keys that the
    comparator takes for equal get the same answer. *)
Theorem get_respects_equality (c : ValueCmp) (l : List Source) k k' :
  total_order c -> reachable c l -> c k k' = 0%Z ->
  Get k l = Get k' l /\ Has k l = Has k' l.
Proof.
  intros Hc Hr E. destruct (reachable_wf _ _ Hr) as [Hwf Ecmp].
  pose proof (reachable_ordered c l Hc Hr) as Ho.
  assert (Get k l = Get k' l) as Eg; [|by rewrite !Has_Get, Eg].
  destruct (Get_cases l k Hwf Ho) as [(i & a & Hra & E0 & ->)|[Habs ->]].
  - symmetry. apply (Get_found l k' i a Hwf Ho Hra). rewrite Ecmp in *. order Hc.
  - symmetry. apply (Get_absent l k' Hwf Ho). intros i a Hra E0.
    apply (Habs i a Hra). rewrite Ecmp in *. order Hc.
Qed.

End Histories.

(** ** The further properties on the lists of the examples *)

Lemma lengthCompare_total : total_order lengthCompare.
Proof.
  split; intros; unfold lengthCompare in *.
  - rewrite <- Z.sgn_opp. f_equal. lia.
  - lia.
Qed.

Lemma after_ops3_reachable : reachable bytesCompare (after ops3).
Proof. apply (puts_reachable bytesCompare ops3 fresh); [constructor | reflexivity]. Qed.

Lemma after_ops3_put : Put (str "a") (str "9") (after ops3) = Ok tt (after ops3a).
Proof. vm_compute. reflexivity. Qed.

Lemma arena_invariant_witness :
  reachable bytesCompare (after ops3) /\
  nodes (after ops3) !! 0 = Some sentinel /\
  forall i a, nodes (after ops3) !! i = Some a ->
    id a = i /\ (0 < i -> key a <> None /\ height a < maxHeight).
Proof.
  split; [exact after_ops3_reachable|].
  exact (arena_invariant bytesCompare (after ops3) after_ops3_reachable).
Defined.

Lemma put_keeps_nodes_witness :
  reachable bytesCompare (after ops3) /\
  Put (str "a") (str "9") (after ops3) = Ok tt (after ops3a) /\
  length (nodes (after ops3)) <= length (nodes (after ops3a))
    <= S (length (nodes (after ops3))) /\
  forall i a, nodes (after ops3) !! i = Some a ->
    exists a', nodes (after ops3a) !! i = Some a' /\
      id a' = id a /\ key a' = key a /\ height a' = height a /\
      (val a' = val a \/
       (0 < i /\ bytesCompare (str "a") (key a) = 0%Z /\ val a' = str "9")).
Proof.
  split; [exact after_ops3_reachable|]. split; [exact after_ops3_put|].
  exact (put_keeps_nodes bytesCompare (after ops3) (after ops3a) (str "a") (str "9")
           after_ops3_reachable after_ops3_put).
Defined.

Lemma links_respect_height_witness :
  reachable bytesCompare (after ops3) /\
  (forall h b, h < maxHeight ->
     nodes (after ops3) !! pget h (head (after ops3)) = Some b -> h <= height b) /\
  (forall i a h b, nodes (after ops3) !! i = Some a -> h < maxHeight ->
     nodes (after ops3) !! pget h (next a) = Some b -> h <= height b) /\
  (forall i a h, nodes (after ops3) !! i = Some a -> height a < h ->
     pget h (next a) = nullID).
Proof.
  split; [exact after_ops3_reachable|].
  exact (links_respect_height bytesCompare (after ops3) after_ops3_reachable).
Defined.

Lemma levels_sorted_witness :
  total_order bytesCompare /\ reachable bytesCompare (after ops3) /\ 1 < maxHeight /\
  exists b, realAt (after ops3) (pget 1 (head (after ops3))) b /\ 1 <= height b /\
    forall j x, realAt (after ops3) j x -> 1 <= height x ->
      (bytesCompare (key b) (key x) <= 0)%Z.
Proof.
  split; [exact bytesCompare_total|]. split; [exact after_ops3_reachable|].
  assert (1 < maxHeight) as Hh by (unfold maxHeight; lia). split; [exact Hh|].
  destruct (levels_sorted bytesCompare (after ops3) bytesCompare_total
              after_ops3_reachable 1 Hh) as (_ & Hhead & _).
  apply Hhead. vm_compute. discriminate.
Defined.

Lemma operations_return_witness :
  total_order bytesCompare /\ reachable bytesCompare (after ops3) /\
  (forall k, returns (Get k (after ops3))) /\
  (forall k, returns (Has k (after ops3))) /\
  returns (IterAll record [] (after ops3)) /\
  (forall k v, k <> None -> Full (after ops3) = Ok false (after ops3) ->
     returns (Put k v (after ops3))).
Proof.
  split; [exact bytesCompare_total|]. split; [exact after_ops3_reachable|].
  exact (operations_return bytesCompare (after ops3) bytesCompare_total
           after_ops3_reachable).
Defined.

Lemma has_after_puts_witness :
  total_order bytesCompare /\ puts ops3 fresh = Ok tt (after ops3) /\
  Has (str "a") (after ops3) = Ok true (after ops3) /\
  Has (str "z") (after ops3) = Ok false (after ops3).
Proof.
  assert (puts ops3 fresh = Ok tt (after ops3)) as Eops by reflexivity.
  split; [exact bytesCompare_total|]. split; [exact Eops|]. split.
  - exact (has_after_puts bytesCompare ops3 (after ops3) (str "a") bytesCompare_total Eops).
  - exact (has_after_puts bytesCompare ops3 (after ops3) (str "z") bytesCompare_total Eops).
Defined.

Lemma iterator_walk_witness :
  total_order bytesCompare /\ reachable bytesCompare (after ops3) /\
  exists it kvs,
    Iter (after ops3) = Ok it (after ops3) /\
    IterAll record [] (after ops3) = Ok kvs (after ops3) /\
    IterCount it (after ops3) = Ok (Z.of_nat (length kvs)) (after ops3) /\
    nexts (length kvs) it (after ops3) = Ok kvs (after ops3) /\
    nexts (S (length kvs)) it (after ops3) = Ok (kvs ++ [(None, None)]) (after ops3).
Proof.
  split; [exact bytesCompare_total|]. split; [exact after_ops3_reachable|].
  exact (iterator_walk bytesCompare (after ops3) bytesCompare_total after_ops3_reachable).
Defined.

Lemma iteration_agrees_with_get_witness :
  total_order bytesCompare /\ reachable bytesCompare (after ops3) /\
  exists kvs, IterAll record [] (after ops3) = Ok kvs (after ops3) /\
    (forall k v, (k, v) ∈ kvs -> Get k (after ops3) = Ok (v, true) (after ops3)) /\
    (forall k v, Get k (after ops3) = Ok (v, true) (after ops3) ->
       exists k', (k', v) ∈ kvs /\ bytesCompare k k' = 0%Z).
Proof.
  split; [exact bytesCompare_total|]. split; [exact after_ops3_reachable|].
  exact (iteration_agrees_with_get bytesCompare (after ops3) bytesCompare_total
           after_ops3_reachable).
Defined.

Lemma put_frames_get_witness :
  total_order bytesCompare /\ reachable bytesCompare (after ops3) /\
  Put (str "a") (str "9") (after ops3) = Ok tt (after ops3a) /\
  Get (str "a") (after ops3a) = Ok (str "9", true) (after ops3a) /\
  exists r, Get (str "b") (after ops3) = Ok r (after ops3) /\
            Get (str "b") (after ops3a) = Ok r (after ops3a).
Proof.
  split; [exact bytesCompare_total|]. split; [exact after_ops3_reachable|].
  split; [exact after_ops3_put|].
  pose proof (put_frames_get bytesCompare (after ops3) (after ops3a) (str "a") (str "9")
                bytesCompare_total after_ops3_reachable after_ops3_put) as Hf.
  split.
  - apply (Hf (str "a")). reflexivity.
  - apply (Hf (str "b")). vm_compute. discriminate.
Defined.

Lemma first_key_last_value_witness :
  total_order lengthCompare /\
  puts opsLength (NewSkipList lengthCompare) = Ok tt (afterLength opsLength) /\
  storedKeys (afterLength opsLength) = [str "b"; str "aa"] /\
  Count (afterLength opsLength) = Ok 2%Z (afterLength opsLength) /\
  exists kvs, IterAll record [] (afterLength opsLength) = Ok kvs (afterLength opsLength) /\
    kvs.*1 ≡ₚ [str "b"; str "aa"] /\
    forall k v, (k, v) ∈ kvs -> lastPut lengthCompare opsLength k = Some v.
Proof.
  assert (puts opsLength (NewSkipList lengthCompare) = Ok tt (afterLength opsLength))
    as Eops by reflexivity.
  split; [exact lengthCompare_total|]. split; [exact Eops|].
  exact (first_key_last_value lengthCompare opsLength (afterLength opsLength)
           lengthCompare_total Eops).
Defined.

Lemma ops3_keys_NoDup : NoDup ops3.*1.
Proof.
  repeat (apply NoDup_cons; split); [| |by intros ?%elem_of_nil|constructor];
    rewrite ?elem_of_cons; intros Hin; repeat (destruct Hin as [Hin|Hin]; [discriminate Hin|]);
    by apply elem_of_nil in Hin.
Qed.

Lemma ops3_keys_distinct k k' :
  k ∈ ops3.*1 -> k' ∈ ops3.*1 -> bytesCompare k k' = 0%Z -> k = k'.
Proof.
  intros Hk Hk' E.
  repeat (apply elem_of_cons in Hk as [->|Hk]); [| | |by apply elem_of_nil in Hk];
    (repeat (apply elem_of_cons in Hk' as [->|Hk']); [| | |by apply elem_of_nil in Hk']);
    try reflexivity; vm_compute in E; discriminate E.
Qed.

Lemma iteration_order_independent_witness :
  total_order bytesCompare /\ NoDup ops3.*1 /\
  (forall k k', k ∈ ops3.*1 -> k' ∈ ops3.*1 -> bytesCompare k k' = 0%Z -> k = k') /\
  ops3 ≡ₚ ops3sorted /\
  puts ops3 fresh = Ok tt (after ops3) /\
  puts ops3sorted fresh = Ok tt (after ops3sorted) /\
  nodes (after ops3) <> nodes (after ops3sorted) /\
  exists kvs,
    IterAll record [] (after ops3) = Ok kvs (after ops3) /\
    IterAll record [] (after ops3sorted) = Ok kvs (after ops3sorted) /\
    kvs ≡ₚ ops3 /\ StronglySorted (fun p q => (bytesCompare p.1 q.1 < 0)%Z) kvs.
Proof.
  assert (puts ops3 fresh = Ok tt (after ops3)) as E1 by reflexivity.
  assert (puts ops3sorted fresh = Ok tt (after ops3sorted)) as E2 by reflexivity.
  assert (ops3 ≡ₚ ops3sorted) as Hp by apply perm_swap.
  split; [exact bytesCompare_total|]. split; [exact ops3_keys_NoDup|].
  split; [exact ops3_keys_distinct|]. split; [exact Hp|].
  split; [exact E1|]. split; [exact E2|].
  split; [vm_compute; discriminate|].
  exact (iteration_order_independent bytesCompare ops3 ops3sorted (after ops3)
           (after ops3sorted) bytesCompare_total ops3_keys_NoDup ops3_keys_distinct
           Hp E1 E2).
Defined.

Lemma get_respects_equality_witness :
  total_order lengthCompare /\
  reachable lengthCompare (afterLength opsLength) /\
  lengthCompare (str "c") (str "b") = 0%Z /\
  Get (str "c") (afterLength opsLength) = Get (str "b") (afterLength opsLength) /\
  Has (str "c") (afterLength opsLength) = Has (str "b") (afterLength opsLength).
Proof.
  assert (reachable lengthCompare (afterLength opsLength)) as Hr.
  { apply (puts_reachable lengthCompare opsLength (NewSkipList lengthCompare));
      [constructor | reflexivity]. }
  assert (lengthCompare (str "c") (str "b") = 0%Z) as E by reflexivity.
  split; [exact lengthCompare_total|]. split; [exact Hr|]. split; [exact E|].
  exact (get_respects_equality lengthCompare (afterLength opsLength) (str "c") (str "b")
           lengthCompare_total Hr E).
Defined.
